(** * tugboat: the repository reconciliation engine

    A shallow embedding of the manager ([internal/repo]), the worker pool
    ([internal/pool]) and the parts of [internal/config] and
    [internal/remote] they use.

    Conventions of the embedding.
    - Go's [int] is taken to be 64 bits wide and is modelled in [Z]; the only
      place an [int] is produced from outside data is [fmt.Sscanf], whose
      range check is written out.  Counters of a run are bounded by the
      number of repositories and are kept in [Z] without wrap-around.
    - A Go [string] is a byte string: [String.string].  The helpers of package
      [strings] are modelled on ASCII white space (tab, newline, vertical tab,
      form feed, carriage return, space); the Unicode spaces outside ASCII,
      which Go also trims, are treated as ordinary bytes.
    - A Go [error] is modelled by its message, [nil] by [None]; a function
      returning [(T, error)] returns [result T].
    - The external world (the [git] executable, the file system, the JSON
      decoder, the hosting provider) is an explicit record of functions that
      the embedded code consults where the source calls out.
    - Timing records ([RepoTiming]) are observational only and are left out. *)

From Stdlib Require Import ZArith Lia Bool Ascii String DecimalString.
From stdpp Require Import base option list gmap strings sorting.

Local Open Scope Z_scope.

(** A value or an error message: Go's [(T, error)] return convention. *)
Inductive result (A : Type) : Type :=
| Ok (a : A)
| Err (msg : string).
Arguments Ok {A} a.
Arguments Err {A} msg.

Definition is_ok {A} (r : result A) : bool :=
  match r with Ok _ => true | Err _ => false end.

(** ** Package [strings] and the two [fmt] verbs the manager uses *)
Module GoStrings.

Definition isSpace (c : ascii) : bool :=
  match nat_of_ascii c with
  | 9%nat | 10%nat | 11%nat | 12%nat | 13%nat | 32%nat => true
  | _ => false
  end.

Fixpoint TrimLeft (s : string) : string :=
  match s with
  | EmptyString => EmptyString
  | String c s' => if isSpace c then TrimLeft s' else s
  end.

Fixpoint TrimRight (s : string) : string :=
  match s with
  | EmptyString => EmptyString
  | String c s' =>
      match TrimRight s' with
      | EmptyString => if isSpace c then EmptyString else String c EmptyString
      | t => String c t
      end
  end.

(** [strings.TrimSpace] *)
Definition TrimSpace (s : string) : string := TrimRight (TrimLeft s).

(** [strings.Index]: byte offset of the first occurrence, [-1] if none. *)
Fixpoint Index (s substr : string) : Z :=
  if String.prefix substr s then 0
  else match s with
       | EmptyString => -1
       | String _ s' => let i := Index s' substr in
                        if i <? 0 then -1 else i + 1
       end.

(** [strings.Contains] *)
Definition Contains (s substr : string) : bool := 0 <=? Index s substr.

(** The slice expression [s[:i]]. *)
Definition slice_to (s : string) (i : Z) : string :=
  String.substring 0 (Z.to_nat i) s.

(** [strings.Split] with a one-byte separator: always at least one piece. *)
Fixpoint Split (s : string) (sep : ascii) : list string :=
  match s with
  | EmptyString => [EmptyString]
  | String c s' =>
      if Ascii.eqb c sep then EmptyString :: Split s' sep
      else match Split s' sep with
           | p :: ps => String c p :: ps
           | [] => [String c EmptyString]
           end
  end.

Definition startsWithSpace (s : string) : bool :=
  match s with
  | String c _ => isSpace c
  | EmptyString => true
  end.

(** [strings.Fields]: the maximal runs of non-space bytes. *)
Fixpoint Fields (s : string) : list string :=
  match s with
  | EmptyString => []
  | String c s' =>
      let r := Fields s' in
      if isSpace c then r
      else match r with
           | t :: ts =>
               if startsWithSpace s' then String c EmptyString :: r
               else String c t :: ts
           | [] => [String c EmptyString]
           end
  end.

Definition isDigit (c : ascii) : bool :=
  let n := nat_of_ascii c in (48 <=? n)%nat && (n <=? 57)%nat.

(** The run of characters [scanNumber] accepts for the verb [%d]: the
    decimal digits (the underscore is a digit for the verb [%v] only). *)
Fixpoint scanNumber (s : string) : string :=
  match s with
  | String c s' => if isDigit c then String c (scanNumber s') else EmptyString
  | EmptyString => EmptyString
  end.

(** Decimal value of a run of digits. *)
Fixpoint parseDigits (acc : Z) (s : string) : Z :=
  match s with
  | EmptyString => acc
  | String c s' => parseDigits (10 * acc + (Z.of_nat (nat_of_ascii c) - 48)) s'
  end.

Definition minInt64 : Z := - 2 ^ 63.
Definition maxInt64 : Z := 2 ^ 63 - 1.

(** [fmt.Sscanf(tok, "%d", &v)] on a token without white space, its error
    ignored as the manager does: an optional sign, then a non-empty run of
    digits; trailing bytes are left unread.  On any failure [v] keeps its
    old value. *)
Definition Sscanf_d (tok : string) (old : Z) : Z :=
  let '(neg, rest) :=
    match tok with
    | String "-"%char r => (true, r)
    | String "+"%char r => (false, r)
    | _ => (false, tok)
    end in
  match scanNumber rest with
  | EmptyString => old
  | run =>
      let n := parseDigits 0 run in
      let v := if neg then - n else n in
      if (minInt64 <=? v) && (v <=? maxInt64) then v else old
  end.

(** The verb [%d] of [fmt.Sprintf] and [fmt.Printf]. *)
Definition fmt_d (z : Z) : string := NilZero.string_of_int (Z.to_int z).

End GoStrings.

(** ** Package [pool]: the bounded task runner

    [Run] starts [workers] goroutines that read items from the buffered
    channel [jobs] and write [fn item] to the buffered channel [results];
    the calling goroutine sends every item, closes [jobs], starts a goroutine
    that closes [results] once every worker has returned, and collects
    [results] until it is closed.  Both channels have room for every item, so
    no send blocks.  The embedding is the interleaving semantics of these
    goroutines: a state, the atomic actions enabled in it, and an execution
    driven by a schedule that picks one enabled action at each step. *)
Module pool.
Section Run.
Context {T R : Type}.

(** The value of [runtime.GOMAXPROCS(0)], at least one. *)
Variable GOMAXPROCS : positive.

(** A worker goroutine is at the head of its [for item := range jobs] loop,
    holds an item whose result it has yet to send, or has returned. *)
Inductive worker : Type :=
| Idle
| Busy (item : T)
| Exited.

Record state : Type := mkState {
  pending : list T;        (* items the caller has still to send *)
  jobs : list T;           (* contents of channel [jobs], oldest first *)
  jobs_closed : bool;      (* [close(jobs)] has run *)
  goroutines : list worker;
  results : list R;        (* contents of channel [results], oldest first *)
  results_closed : bool;   (* [wg.Wait(); close(results)] has run *)
  out : list R             (* the slice the caller collects into *)
}.

Inductive action : Type :=
| MainSend            (* jobs <- item *)
| MainClose           (* close(jobs) *)
| Recv (i : nat)      (* worker i: item := <-jobs *)
| Send (i : nat)      (* worker i: results <- fn(item) *)
| Exit (i : nat)      (* worker i: jobs closed and drained, wg.Done() *)
| CloseResults        (* wg.Wait() returned; close(results) *)
| Collect.            (* out = append(out, <-results) *)

Definition all_exited (ws : list worker) : bool :=
  forallb (fun w => match w with Exited => true | _ => false end) ws.

Definition step (fn : T -> R) (a : action) (s : state) : option state :=
  match a with
  | MainSend =>
      match pending s with
      | x :: xs =>
          Some (mkState xs (jobs s ++ [x]) (jobs_closed s) (goroutines s)
                        (results s) (results_closed s) (out s))
      | [] => None
      end
  | MainClose =>
      match pending s, jobs_closed s with
      | [], false =>
          Some (mkState [] (jobs s) true (goroutines s)
                        (results s) (results_closed s) (out s))
      | _, _ => None
      end
  | Recv i =>
      match goroutines s !! i, jobs s with
      | Some Idle, x :: q =>
          Some (mkState (pending s) q (jobs_closed s) (<[i := Busy x]> (goroutines s))
                        (results s) (results_closed s) (out s))
      | _, _ => None
      end
  | Send i =>
      match goroutines s !! i with
      | Some (Busy x) =>
          Some (mkState (pending s) (jobs s) (jobs_closed s) (<[i := Idle]> (goroutines s))
                        (results s ++ [fn x]) (results_closed s) (out s))
      | _ => None
      end
  | Exit i =>
      match goroutines s !! i, jobs s, jobs_closed s with
      | Some Idle, [], true =>
          Some (mkState (pending s) [] true (<[i := Exited]> (goroutines s))
                        (results s) (results_closed s) (out s))
      | _, _, _ => None
      end
  | CloseResults =>
      if jobs_closed s && all_exited (goroutines s) && negb (results_closed s)
      then Some (mkState (pending s) (jobs s) (jobs_closed s) (goroutines s)
                         (results s) true (out s))
      else None
  | Collect =>
      match jobs_closed s, results s with
      | true, r :: rs =>
          Some (mkState (pending s) (jobs s) true (goroutines s)
                        rs (results_closed s) (out s ++ [r]))
      | _, _ => None
      end
  end.

(** Every action that could be taken in a state, and those that can. *)
Definition candidates (s : state) : list action :=
  [MainSend; MainClose; CloseResults; Collect]
  ++ flat_map (fun i => [Recv i; Send i; Exit i]) (seq 0 (length (goroutines s))).

Definition enabled (fn : T -> R) (s : state) : list action :=
  filter (fun a => is_Some (step fn a s)) (candidates s).

(** The schedule is a list of choices; choice [c] with [n] actions enabled
    takes the one of index [c mod n]; an exhausted schedule takes the first. *)
Fixpoint exec (fn : T -> R) (fuel : nat) (sched : list nat) (s : state) : state :=
  match fuel with
  | O => s
  | S fuel' =>
      match enabled fn s with
      | [] => s
      | (a0 :: _) as en =>
          let c := hd 0%nat sched in
          match step fn (nth (c mod length en) en a0) s with
          | Some s' => exec fn fuel' (tl sched) s'
          | None => s
          end
      end
  end.

(** The number of worker goroutines [Run] starts for [n] items. *)
Definition workerCount (n workers : Z) : Z :=
  let w := if workers <=? 0 then Z.pos GOMAXPROCS else workers in
  if w >? n then n else w.

Definition init (items : list T) (w : Z) : state :=
  mkState items [] false (replicate (Z.to_nat w) Idle) [] false [].

(** Steps a run of [n] items with [w] workers takes before it is over. *)
Definition steps_bound (n w : nat) : nat := (4 * n + w + 2)%nat.

(** The state in which [Run] returns; [None] for the early return on an
    empty input, where no channel or goroutine is created. *)
Definition Run_state (sched : list nat) (items : list T) (workers : Z)
    (fn : T -> R) : option state :=
  if (length items =? 0)%nat then None
  else
    let w := workerCount (Z.of_nat (length items)) workers in
    Some (exec fn (steps_bound (length items) (Z.to_nat w)) sched (init items w)).

(** [pool.Run] *)
Definition Run (sched : list nat) (items : list T) (workers : Z)
    (fn : T -> R) : list R :=
  match Run_state sched items workers fn with
  | None => []
  | Some s => out s
  end.

(** Goroutines started by a call. *)
Definition spawned (sched : list nat) (items : list T) (workers : Z)
    (fn : T -> R) : nat :=
  match Run_state sched items workers fn with
  | None => 0%nat
  | Some s => length (goroutines s)
  end.

(** [Run] has returned: every worker is gone and [results] is closed and
    drained. *)
Definition finished (s : state) : Prop :=
  pending s = [] /\ jobs s = [] /\ jobs_closed s = true
  /\ all_exited (goroutines s) = true
  /\ results s = [] /\ results_closed s = true.

End Run.
End pool.

(** ** Package [config] *)
Module config.

Record CloneOptions : Type := mkCloneOptions {
  Protocol : string                 (* ssh | https | auto *)
}.

Record SyncOptions : Type := mkSyncOptions {
  FFOnly : option bool              (* [*bool]: [None] is the nil pointer *)
}.

(** [SyncOptions.GetFFOnly] *)
Definition GetFFOnly (s : SyncOptions) : bool :=
  match FFOnly s with
  | None => true
  | Some b => b
  end.

Record ProviderOptions : Type := mkProviderOptions {
  Clone : CloneOptions;
  Sync : SyncOptions
}.

Record Provider : Type := mkProvider {
  Type_ : string;
  APIURL : string;
  Token : string;
  Options : ProviderOptions
}.

(** [Target]; its field [Provider] is [ProviderName] here. *)
Record Target : Type := mkTarget {
  Name : string;
  ProviderName : string;
  Org : string;
  Repo : string;
  Path : string
}.

Record Config : Type := mkConfig {
  Workers : Z;
  Providers : gmap string Provider;
  Targets : list Target
}.

(** The zero values Go's map index yields for a missing key. *)
Definition zeroProviderOptions : ProviderOptions :=
  mkProviderOptions (mkCloneOptions "") (mkSyncOptions None).

Definition zeroProvider : Provider := mkProvider "" "" "" zeroProviderOptions.

(** The expression [cfg.Providers[name].Options]. *)
Definition providerOptions (cfg : Config) (name : string) : ProviderOptions :=
  Options (default zeroProvider (Providers cfg !! name)).

End config.

(** ** Package [remote] *)
Module remote.

Record Repository : Type := mkRepository {
  ID : Z;
  Name : string;
  FullName : string;
  Description : string;
  CloneURL : string;
  SSHURL : string;
  HTMLURL : string;
  DefaultBranch : string;
  Empty : bool;
  Archived : bool;
  Private : bool;
  Fork : bool
}.

(** The interface [Client]: what a hosting provider answers. *)
Record Client : Type := mkClient {
  ListOrgRepos : string -> result (list Repository);
  GetRepo : string -> string -> result (option Repository)
}.

End remote.

(** ** Package [repo]: the manager *)
Module repo.

Record RepoStatus : Type := mkRepoStatus {
  Path : string;
  Target : string;
  Provider : string;
  Org : string;
  Name : string;
  Branch : string;
  Dirty : bool;
  Ahead : Z;
  Behind : Z;
  CanFastForward : bool;
  Archived : bool;
  Orphan : bool;
  RemoteError : string;
  Error : string
}.

(** Assignments to one field of a status. *)
Definition setBranch (s : RepoStatus) (v : string) : RepoStatus :=
  mkRepoStatus (Path s) (Target s) (Provider s) (Org s) (Name s) v (Dirty s)
    (Ahead s) (Behind s) (CanFastForward s) (Archived s) (Orphan s)
    (RemoteError s) (Error s).

Definition setDirty (s : RepoStatus) (v : bool) : RepoStatus :=
  mkRepoStatus (Path s) (Target s) (Provider s) (Org s) (Name s) (Branch s) v
    (Ahead s) (Behind s) (CanFastForward s) (Archived s) (Orphan s)
    (RemoteError s) (Error s).

Definition setAhead (s : RepoStatus) (v : Z) : RepoStatus :=
  mkRepoStatus (Path s) (Target s) (Provider s) (Org s) (Name s) (Branch s)
    (Dirty s) v (Behind s) (CanFastForward s) (Archived s) (Orphan s)
    (RemoteError s) (Error s).

Definition setBehind (s : RepoStatus) (v : Z) : RepoStatus :=
  mkRepoStatus (Path s) (Target s) (Provider s) (Org s) (Name s) (Branch s)
    (Dirty s) (Ahead s) v (CanFastForward s) (Archived s) (Orphan s)
    (RemoteError s) (Error s).

Definition setCanFastForward (s : RepoStatus) (v : bool) : RepoStatus :=
  mkRepoStatus (Path s) (Target s) (Provider s) (Org s) (Name s) (Branch s)
    (Dirty s) (Ahead s) (Behind s) v (Archived s) (Orphan s)
    (RemoteError s) (Error s).

Definition setArchived (s : RepoStatus) (v : bool) : RepoStatus :=
  mkRepoStatus (Path s) (Target s) (Provider s) (Org s) (Name s) (Branch s)
    (Dirty s) (Ahead s) (Behind s) (CanFastForward s) v (Orphan s)
    (RemoteError s) (Error s).

Definition setOrphan (s : RepoStatus) (v : bool) : RepoStatus :=
  mkRepoStatus (Path s) (Target s) (Provider s) (Org s) (Name s) (Branch s)
    (Dirty s) (Ahead s) (Behind s) (CanFastForward s) (Archived s) v
    (RemoteError s) (Error s).

Definition setRemoteError (s : RepoStatus) (v : string) : RepoStatus :=
  mkRepoStatus (Path s) (Target s) (Provider s) (Org s) (Name s) (Branch s)
    (Dirty s) (Ahead s) (Behind s) (CanFastForward s) (Archived s) (Orphan s)
    v (Error s).

Definition setError (s : RepoStatus) (v : string) : RepoStatus :=
  mkRepoStatus (Path s) (Target s) (Provider s) (Org s) (Name s) (Branch s)
    (Dirty s) (Ahead s) (Behind s) (CanFastForward s) (Archived s) (Orphan s)
    (RemoteError s) v.

(** [foldoutRepo], fields [Name] and [Target]. *)
Record foldoutRepo : Type := mkFoldoutRepo {
  fr_Name : string;
  fr_Target : string
}.

Record foldoutConfig : Type := mkFoldoutConfig {
  Repos : list foldoutRepo
}.

Record orgKey : Type := mkOrgKey {
  provider : string;
  org : string
}.

(** [orgKey.string] *)
Definition orgKey_string (k : orgKey) : string := provider k +:+ "|" +:+ org k.

Record Manager : Type := mkManager {
  providers : gmap string remote.Client;
  config : config.Config
}.

(** *** The world outside the process *)

(** [os.Stat]: a directory, another file, the not-exist error, another error. *)
Inductive stat_result : Type :=
| StatDir
| StatFile
| StatNotExist
| StatError.

(** [os.ReadFile]: the bytes, the not-exist error, another error. *)
Inductive read_result : Type :=
| ReadData (data : string)
| ReadNotExist
| ReadError (msg : string).

Record DirEntry : Type := mkDirEntry {
  entry_Name : string;
  entry_IsDir : bool
}.

(** The file system as the manager sees it ([os.ReadDir] gives the entries it
    could read and an error or nil), with the two library functions
    whose results depend on it or on the platform: [filepath.Join], and
    [json.Unmarshal] into a [foldoutConfig]. *)
Record OS : Type := mkOS {
  Stat : string -> stat_result;
  ReadDir : string -> list DirEntry * option string;
  ReadFile : string -> read_result;
  Join : string -> string -> string;
  Unmarshal : string -> result foldoutConfig
}.

(** Running [git] with an argument vector in a directory, by the method of
    [exec.Cmd] used: [Output] gives the standard output or an error, [Run] an
    error or nil, [RunStderr] is [Run] with the standard error captured, and
    [CombinedOutput] is reduced to its error (its text only goes to the
    process's standard error). *)
Record Git : Type := mkGit {
  cmd_Output : string -> list string -> result string;
  cmd_Run : string -> list string -> option string;
  cmd_RunStderr : string -> list string -> string * option string;
  cmd_CombinedOutput : string -> list string -> option string
}.

(** Everything a run depends on besides its arguments. *)
Record World : Type := mkWorld {
  w_os : OS;
  w_git : Git;
  w_procs : positive;          (* runtime.GOMAXPROCS(0) *)
  w_sched : list nat           (* how the pool's goroutines interleave *)
}.

Definition nl : string := String (ascii_of_nat 10) EmptyString.
Definition dquote : string := String (ascii_of_nat 34) EmptyString.

(** The verb [%q] on a name: the name between double quotes (the escaping
    of special bytes inside it is not modelled). *)
Definition fmt_q (s : string) : string := dquote +:+ s +:+ dquote.

(** *** Foldout manifests *)

(** The loop of [loadFoldout] over [fc.Repos]: checks each name and
    defaults each empty target, stopping at the first malformed name. *)
Fixpoint defaultTargets (repos : list foldoutRepo) : result (list foldoutRepo) :=
  match repos with
  | [] => Ok []
  | r :: rest =>
      let parts := GoStrings.Split (fr_Name r) "/" in
      if negb (length parts =? 2)%nat then
        Err ("invalid repo name " +:+ fmt_q (fr_Name r)
             +:+ " in .tugboat.json (expected org/repo)")
      else
        let r' := if String.eqb (fr_Target r) ""
                  then mkFoldoutRepo (fr_Name r) (List.last parts "")
                  else r in
        match defaultTargets rest with
        | Err e => Err e
        | Ok rs => Ok (r' :: rs)
        end
  end.

(** [loadFoldout]: [Ok None] is the source's [(nil, nil)]. *)
Definition loadFoldout (os : OS) (path : string) : result (option foldoutConfig) :=
  match ReadFile os (Join os path ".tugboat.json") with
  | ReadNotExist => Ok None
  | ReadError msg => Err msg
  | ReadData data =>
      match Unmarshal os data with
      | Err msg => Err ("parsing .tugboat.json: " +:+ msg)
      | Ok fc =>
          match defaultTargets (Repos fc) with
          | Err e => Err e
          | Ok rs => Ok (Some (mkFoldoutConfig rs))
          end
      end
  end.

Fixpoint cleanFoldoutTargets_from (seen : gset string) (repos : list foldoutRepo)
    : option string :=
  match repos with
  | [] => None
  | r :: rest =>
      if String.eqb (fr_Target r) "" then
        Some ("foldout target empty for " +:+ fr_Name r)
      else if GoStrings.Contains (fr_Target r) ".." then
        Some ("foldout target " +:+ fr_Target r +:+ " must not contain ..")
      else if bool_decide (fr_Target r ∈ seen) then
        Some ("duplicate foldout target " +:+ fr_Target r)
      else cleanFoldoutTargets_from ({[ fr_Target r ]} ∪ seen) rest
  end.

(** [cleanFoldoutTargets]: [None] is the nil error. *)
Definition cleanFoldoutTargets (base : string) (repos : list foldoutRepo)
    : option string :=
  cleanFoldoutTargets_from ∅ repos.

(** *** Git helpers *)

(** [isGitRepo] *)
Definition isGitRepo (os : OS) (path : string) : bool :=
  match Stat os (Join os path ".git") with
  | StatDir => true
  | _ => false
  end.

Definition gitOutput (git : Git) (repoPath : string) (args : list string)
    : result string :=
  cmd_Output git repoPath args.

Definition gitRun (git : Git) (repoPath : string) (args : list string)
    : option string :=
  cmd_Run git repoPath args.

(** [gitFetchWithStderr] *)
Definition gitFetchWithStderr (git : Git) (repoPath : string) : string :=
  match cmd_RunStderr git repoPath ["fetch"; "--quiet"] with
  | (stderr, Some _) =>
      let output := GoStrings.TrimSpace stderr in
      let idx := GoStrings.Index output nl in
      if 0 <? idx then GoStrings.slice_to output idx else output
  | (_, None) => ""
  end.

(** An invocation of [git]: the working directory [cmd.Dir] and the
    argument vector. *)
Definition gitCmd : Type := (string * list string)%type.

(** [exec.Command("git", args...)] with [cmd.Dir = dir], run by
    [cmd.CombinedOutput]: the invocation the process makes, and the error it
    gets.  The log of a run is made of what these calls return and of
    nothing else, so that an invocation is in the log exactly when the call
    was made, with the directory and the arguments of the call. *)
Definition CombinedOutput (git : Git) (dir : string) (args : list string)
    : gitCmd * option string :=
  ((dir, args), cmd_CombinedOutput git dir args).

(** The argument vector [gitPull] builds. *)
Definition pullArgs (ffOnly : bool) : list string :=
  ["pull"] ++ (if ffOnly then ["--ff-only"] else []).

(** [gitPull] and [gitPush]: the invocation made, and the error of the
    command, [None] for nil. *)
Definition gitPull (git : Git) (repoPath : string) (ffOnly : bool)
    : gitCmd * option string :=
  CombinedOutput git repoPath (pullArgs ffOnly).

Definition gitPush (git : Git) (repoPath : string) : gitCmd * option string :=
  CombinedOutput git repoPath ["push"].

(** The assignments to [status.Ahead] and [status.Behind] from the output of
    [git rev-list --left-right --count]. *)
Definition scanCounts (revList : string) (status : RepoStatus) : RepoStatus :=
  match GoStrings.Fields (GoStrings.TrimSpace revList) with
  | [p0; p1] =>
      let status := setAhead status (GoStrings.Sscanf_d p0 (Ahead status)) in
      setBehind status (GoStrings.Sscanf_d p1 (Behind status))
  | _ => status
  end.

(** [getRepoStatus] *)
Definition getRepoStatus (git : Git) (path target org name provider : string)
    : RepoStatus :=
  let status :=
    mkRepoStatus path target provider org name "" false 0 0 false false false "" "" in
  match gitOutput git path ["rev-parse"; "--abbrev-ref"; "HEAD"] with
  | Err err => setError status ("getting branch: " +:+ err)
  | Ok branch =>
      let status := setBranch status (GoStrings.TrimSpace branch) in
      let fetchErr := gitFetchWithStderr git path in
      let status := if negb (String.eqb fetchErr "")
                    then setRemoteError status fetchErr else status in
      match gitOutput git path ["status"; "--porcelain"] with
      | Err err => setError status ("checking status: " +:+ err)
      | Ok dirtyOutput =>
          let status :=
            setDirty status (negb (String.eqb (GoStrings.TrimSpace dirtyOutput) "")) in
          let upstream := "origin/" +:+ Branch status in
          let status :=
            match gitOutput git path
                    ["rev-list"; "--left-right"; "--count";
                     Branch status +:+ "..." +:+ upstream] with
            | Ok revList => scanCounts revList status
            | Err _ => status
            end in
          if 0 <? Behind status then
            let err := gitRun git path
                         ["merge-base"; "--is-ancestor"; Branch status; upstream] in
            setCanFastForward status
              (match err with None => true | Some _ => false end
               || (Ahead status =? 0))
          else setCanFastForward status true
      end
  end.

(** *** Selection of targets *)

(** [Manager.targetsFor] *)
Definition targetsFor (m : Manager) (names : list string)
    : result (list config.Target) :=
  if (length names =? 0)%nat then Ok (config.Targets (config m))
  else
    let nameSet : gmap string config.Target :=
      fold_left (fun acc t => <[config.Name t := t]> acc)
                (config.Targets (config m)) ∅ in
    let '(res, missing, _) :=
      fold_left
        (fun (acc : list config.Target * list string * gset string) n =>
           let '(res, missing, seen) := acc in
           match nameSet !! n with
           | None => (res, missing ++ [n], seen)
           | Some t =>
               if bool_decide (n ∈ seen) then acc
               else (res ++ [t], missing, {[ n ]} ∪ seen)
           end)
        names ([], [], ∅) in
    if (0 <? length missing)%nat then
      Err ("unknown targets: " +:+ String.concat ", " missing)
    else Ok res.

(** *** The remote index *)

(** [Manager.buildRepoIndex], from the index built so far. *)
Fixpoint buildRepoIndex_from (m : Manager) (orgs : list orgKey)
    (index : gmap string (gmap string remote.Repository))
    : result (gmap string (gmap string remote.Repository)) :=
  match orgs with
  | [] => Ok index
  | k :: rest =>
      match providers m !! provider k with
      | None => Err ("no client for provider " +:+ provider k)
      | Some client =>
          match remote.ListOrgRepos client (org k) with
          | Err e =>
              Err ("listing repos for " +:+ provider k +:+ "/" +:+ org k
                   +:+ ": " +:+ e)
          | Ok repos =>
              let byName : gmap string remote.Repository :=
                fold_left (fun acc r => <[remote.Name r := r]> acc) repos ∅ in
              buildRepoIndex_from m rest (<[orgKey_string k := byName]> index)
          end
      end
  end.

Definition buildRepoIndex (m : Manager) (orgs : list orgKey)
    : result (gmap string (gmap string remote.Repository)) :=
  buildRepoIndex_from m orgs ∅.

(** The body of the loop of [markRemoteState] for one element. *)
Definition markRemote (index : gmap string (gmap string remote.Repository))
    (s : RepoStatus) : RepoStatus :=
  let key := orgKey_string (mkOrgKey (Provider s) (Org s)) in
  match index !! key with
  | None => setOrphan s true
  | Some repos =>
      match repos !! Name s with
      | Some r => setArchived s (remote.Archived r)
      | None => setOrphan s true
      end
  end.

(** [markRemoteState]: every element of the slice is updated in place. *)
Definition markRemoteState (statuses : list RepoStatus)
    (index : gmap string (gmap string remote.Repository)) : list RepoStatus :=
  markRemote index <$> statuses.

(** *** Expansion of targets into status jobs *)

(** [statusJob], fields [path], [target], [name], [org], [provider]. *)
Record statusJob : Type := mkStatusJob {
  job_path : string;
  job_target : string;
  job_name : string;
  job_org : string;
  job_provider : string
}.

(** The three accumulators of the first loop of [getAllStatuses]. *)
Record expansion : Type := mkExpansion {
  jobs : list statusJob;
  orgKeys : list orgKey;
  orgKeySet : gset string
}.

Definition addJobs (e : expansion) (js : list statusJob) : expansion :=
  mkExpansion (jobs e ++ js) (orgKeys e) (orgKeySet e).

Definition addOrgKey (t : config.Target) (e : expansion) : expansion :=
  let okey := mkOrgKey (config.ProviderName t) (config.Org t) in
  if bool_decide (orgKey_string okey ∈ orgKeySet e) then e
  else mkExpansion (jobs e) (orgKeys e ++ [okey])
                   ({[ orgKey_string okey ]} ∪ orgKeySet e).

(** Jobs of an organization target: the sub-directories that are working
    copies. *)
Definition orgJobs (os : OS) (t : config.Target) (entries : list DirEntry)
    : list statusJob :=
  omap (fun entry =>
          if negb (entry_IsDir entry) then None
          else
            let repoPath := Join os (config.Path t) (entry_Name entry) in
            if negb (isGitRepo os repoPath) then None
            else Some (mkStatusJob repoPath (config.Name t) (entry_Name entry)
                                   (config.Org t) (config.ProviderName t)))
       entries.

(** Jobs of the foldouts of a repository target that are already cloned. *)
Definition foldoutJobs (os : OS) (t : config.Target) (repos : list foldoutRepo)
    : list statusJob :=
  omap (fun fr =>
          let dest := Join os (config.Path t) (fr_Target fr) in
          if isGitRepo os dest then
            let parts := GoStrings.Split (fr_Name fr) "/" in
            let repoName := List.last parts "" in
            let frOrg := if (length parts =? 2)%nat then List.hd "" parts
                         else config.Org t in
            Some (mkStatusJob dest (config.Name t) repoName frOrg
                              (config.ProviderName t))
          else None)
       repos.

Definition notExistError (t : config.Target) : string :=
  "target " +:+ fmt_q (config.Name t) +:+ " path does not exist: "
  +:+ config.Path t.

(** One iteration of the first loop of [getAllStatuses]. *)
Definition expandTarget (os : OS) (t : config.Target) (e : expansion)
    : result expansion :=
  if String.eqb (config.Repo t) "" then
    match Stat os (config.Path t) with
    | StatNotExist => Err (notExistError t)
    | _ =>
        match ReadDir os (config.Path t) with
        | (_, Some _) => Ok e
        | (entries, None) => Ok (addOrgKey t (addJobs e (orgJobs os t entries)))
        end
    end
  else
    match Stat os (config.Path t) with
    | StatNotExist => Err (notExistError t)
    | _ =>
        let e :=
          if isGitRepo os (config.Path t)
          then addJobs e [mkStatusJob (config.Path t) (config.Name t)
                            (config.Repo t) (config.Org t) (config.ProviderName t)]
          else e in
        match loadFoldout os (config.Path t) with
        | Err err => Err err
        | Ok fc =>
            let e := match fc with
                     | Some fc => addJobs e (foldoutJobs os t (Repos fc))
                     | None => e
                     end in
            Ok (addOrgKey t e)
        end
    end.

Fixpoint expandTargets (os : OS) (targets : list config.Target) (e : expansion)
    : result expansion :=
  match targets with
  | [] => Ok e
  | t :: rest =>
      match expandTarget os t e with
      | Err err => Err err
      | Ok e' => expandTargets os rest e'
      end
  end.

(** The function each pool worker applies to a status job. *)
Definition statusOf (git : Git) (job : statusJob) : RepoStatus :=
  getRepoStatus git (job_path job) (job_target job) (job_org job)
                (job_name job) (job_provider job).

(** The comparison given to [sort.Slice]. *)
Definition lessStatus (a b : RepoStatus) : bool :=
  if String.eqb (Target a) (Target b) then String.ltb (Name a) (Name b)
  else String.ltb (Target a) (Target b).

(** [sort.Slice] promises a sorted rearrangement and no more (it is not
    stable); the embedding takes the merge sort as that rearrangement. *)
Definition notAfter (a b : RepoStatus) : Prop := lessStatus b a = false.

#[global] Instance notAfter_dec (a b : RepoStatus) : Decision (notAfter a b) :=
  decide (lessStatus b a = false).

Definition sortStatuses (statuses : list RepoStatus) : list RepoStatus :=
  merge_sort notAfter statuses.

(** The remote annotation step of [getAllStatuses]. *)
Definition annotate (m : Manager) (keys : list orgKey)
    (statuses : list RepoStatus) : list RepoStatus :=
  if (0 <? length keys)%nat then
    match buildRepoIndex m keys with
    | Ok index => markRemoteState statuses index
    | Err _ => statuses
    end
  else statuses.

(** [Manager.getAllStatuses] (the statuses and the error; the list is empty
    where the source returns nil). *)
Definition getAllStatuses (m : Manager) (w : World)
    (targets : list config.Target) (workers : Z) : result (list RepoStatus) :=
  match expandTargets (w_os w) targets (mkExpansion [] [] ∅) with
  | Err err => Err err
  | Ok e =>
      if (length (jobs e) =? 0)%nat then Ok []
      else
        let statuses :=
          pool.Run (w_procs w) (w_sched w) (jobs e) workers (statusOf (w_git w)) in
        Ok (sortStatuses (annotate m (orgKeys e) statuses))
  end.

(** *** Pull, push and sync *)

(** What a command has done so far: the invocations of [git] made through
    [CombinedOutput], which are those of [gitPull] and [gitPush], in the
    order they were made; the lines written to standard output; and the
    three counters ([nOk] is [pulled], [pushed] or [synced]).  The status
    engine runs [git] through [Output] and [Run]: those invocations are the
    ones [getRepoStatus] spells out, and are not part of this log. *)
Record tally : Type := mkTally {
  ops : list gitCmd;
  printed : list string;
  nOk : Z;
  nSkipped : Z;
  nFailed : Z
}.

Definition tally0 : tally := mkTally [] [] 0 0 0.

Definition ran (st : tally) (c : gitCmd) : tally :=
  mkTally (ops st ++ [c]) (printed st) (nOk st) (nSkipped st) (nFailed st).

Definition say (st : tally) (line : string) : tally :=
  mkTally (ops st) (printed st ++ [line]) (nOk st) (nSkipped st) (nFailed st).

Definition incOk (st : tally) : tally :=
  mkTally (ops st) (printed st) (nOk st + 1) (nSkipped st) (nFailed st).

Definition incSkipped (st : tally) : tally :=
  mkTally (ops st) (printed st) (nOk st) (nSkipped st + 1) (nFailed st).

Definition incFailed (st : tally) : tally :=
  mkTally (ops st) (printed st) (nOk st) (nSkipped st) (nFailed st + 1).

(** [pullJob], fields [path] and [ffOnly]. *)
Record pullJob : Type := mkPullJob {
  pj_path : string;
  pj_ffOnly : bool
}.

Record cloneResult : Type := mkCloneResult {
  repoName : string;
  status : string;
  err : option string
}.

(** One iteration of the job-building loop of [Manager.Pull]. *)
Definition pullTarget (os : OS) (cfg : config.Config) (t : config.Target)
    (js : list pullJob) : result (list pullJob) :=
  let opts := config.providerOptions cfg (config.ProviderName t) in
  let ff := config.GetFFOnly (config.Sync opts) in
  if String.eqb (config.Repo t) "" then
    let entries := fst (ReadDir os (config.Path t)) in
    Ok (js ++ omap (fun e =>
                      if negb (entry_IsDir e) then None
                      else
                        let p := Join os (config.Path t) (entry_Name e) in
                        if isGitRepo os p then Some (mkPullJob p ff) else None)
                   entries)
  else
    let js := if isGitRepo os (config.Path t)
              then js ++ [mkPullJob (config.Path t) ff] else js in
    match loadFoldout os (config.Path t) with
    | Err e => Err e
    | Ok None => Ok js
    | Ok (Some fc) =>
        Ok (js ++ omap (fun fr =>
                          let dest := Join os (config.Path t) (fr_Target fr) in
                          if isGitRepo os dest then Some (mkPullJob dest ff)
                          else None)
                       (Repos fc))
    end.

Fixpoint pullJobs (os : OS) (cfg : config.Config) (targets : list config.Target)
    (js : list pullJob) : result (list pullJob) :=
  match targets with
  | [] => Ok js
  | t :: rest =>
      match pullTarget os cfg t js with
      | Err e => Err e
      | Ok js' => pullJobs os cfg rest js'
      end
  end.

(** The function each pool worker applies to a pull job: the invocation
    its call of [gitPull] makes, and the result. *)
Definition pullOne (git : Git) (job : pullJob) : gitCmd * cloneResult :=
  let '(c, err) := gitPull git (pj_path job) (pj_ffOnly job) in
  (c,
   match err with
   | Some e => mkCloneResult (pj_path job) "error" (Some e)
   | None => mkCloneResult (pj_path job) "cloned" None
   end).

Definition reportPull (st : tally) (r : cloneResult) : tally :=
  if String.eqb (status r) "cloned" then
    incOk (say st ("  [PULL]  " +:+ repoName r))
  else
    incFailed (say st ("  [ERROR] " +:+ repoName r +:+ ": " +:+ default "" (err r))).

(** [Manager.Pull] *)
Definition Pull (m : Manager) (w : World) (targetNames : list string)
    (workers : Z) : result tally :=
  match targetsFor m targetNames with
  | Err e => Err e
  | Ok targets =>
      match pullJobs (w_os w) (config m) targets [] with
      | Err e => Err e
      | Ok js =>
          if (length js =? 0)%nat then
            Ok (say tally0 "Pull: no repositories found.")
          else
            let results :=
              pool.Run (w_procs w) (w_sched w) js workers (pullOne (w_git w)) in
            let st :=
              fold_left reportPull (snd <$> results)
                        (mkTally (fst <$> results) [] 0 0 0) in
            Ok (say st ("Pull complete: " +:+ GoStrings.fmt_d (nOk st)
                        +:+ " pulled, " +:+ GoStrings.fmt_d (nFailed st)
                        +:+ " failed"))
      end
  end.

(** The body of the loop of [Manager.Push]. *)
Definition pushRepo (git : Git) (st : tally) (s : RepoStatus) : tally :=
  if negb (String.eqb (Error s) "") then
    incFailed (say st ("  [ERROR] " +:+ Path s +:+ ": " +:+ Error s))
  else if 0 <? Behind s then
    incSkipped (say st ("  [SKIP]  " +:+ Path s +:+ ": behind remote, pull first"))
  else if Ahead s =? 0 then st
  else
    let '(c, err) := gitPush git (Path s) in
    let st := ran st c in
    match err with
    | Some e => incFailed (say st ("  [ERROR] " +:+ Path s +:+ ": " +:+ e))
    | None =>
        incOk (say st ("  [PUSH]  " +:+ Path s +:+ ": "
                       +:+ GoStrings.fmt_d (Ahead s) +:+ " commits"))
    end.

(** [Manager.Push] *)
Definition Push (m : Manager) (w : World) (targetNames : list string)
    (workers : Z) : result tally :=
  match targetsFor m targetNames with
  | Err e => Err e
  | Ok targets =>
      match getAllStatuses m w targets workers with
      | Err e => Err e
      | Ok statuses =>
          let st := fold_left (pushRepo (w_git w)) statuses tally0 in
          Ok (say st ("Push complete: " +:+ GoStrings.fmt_d (nOk st)
                      +:+ " pushed, " +:+ GoStrings.fmt_d (nSkipped st)
                      +:+ " skipped, " +:+ GoStrings.fmt_d (nFailed st)
                      +:+ " failed"))
      end
  end.

(** The pull step of one iteration of the loop of [Manager.Sync]: [inl] when
    the iteration ends there ([continue]), [inr] when it goes on. *)
Definition syncPull (git : Git) (opts : config.ProviderOptions)
    (st : tally) (s : RepoStatus) : tally + tally :=
  if 0 <? Behind s then
    if negb (CanFastForward s) && config.GetFFOnly (config.Sync opts) then
      inl (incSkipped (say st ("  [SKIP]  " +:+ Path s +:+ ": diverged (ff-only)")))
    else
      let st := say st ("  [PULL]  " +:+ Path s +:+ ": "
                        +:+ GoStrings.fmt_d (Behind s) +:+ " behind") in
      let '(c, err) := gitPull git (Path s) (config.GetFFOnly (config.Sync opts)) in
      let st := ran st c in
      match err with
      | Some e => inl (incFailed (say st ("    error: " +:+ e)))
      | None => inr st
      end
  else inr st.

(** The push step of the same iteration. *)
Definition syncPush (git : Git) (st : tally) (s : RepoStatus) : tally + tally :=
  if 0 <? Ahead s then
    let st := say st ("  [PUSH]  " +:+ Path s +:+ ": "
                      +:+ GoStrings.fmt_d (Ahead s) +:+ " ahead") in
    let '(c, err) := gitPush git (Path s) in
    let st := ran st c in
    match err with
    | Some e => inl (incFailed (say st ("    error: " +:+ e)))
    | None => inr st
    end
  else inr st.

(** The body of the loop of [Manager.Sync]. *)
Definition syncRepo (git : Git) (optMap : gmap string config.ProviderOptions)
    (st : tally) (s : RepoStatus) : tally :=
  let opts := default config.zeroProviderOptions (optMap !! Target s) in
  if negb (String.eqb (Error s) "") then
    incFailed (say st ("  [ERROR] " +:+ Path s +:+ ": " +:+ Error s))
  else if Dirty s then
    incSkipped (say st ("  [SKIP]  " +:+ Path s +:+ ": dirty"))
  else
    match syncPull git opts st s with
    | inl st => st
    | inr st =>
        match syncPush git st s with
        | inl st => st
        | inr st => incOk st
        end
    end.

(** The map from target name to provider options that [Manager.Sync] builds. *)
Definition optMapOf (cfg : config.Config) (targets : list config.Target)
    : gmap string config.ProviderOptions :=
  fold_left (fun acc t =>
               <[config.Name t := config.providerOptions cfg (config.ProviderName t)]> acc)
            targets ∅.

(** [Manager.Sync] *)
Definition Sync (m : Manager) (w : World) (targetNames : list string)
    (workers : Z) : result tally :=
  match targetsFor m targetNames with
  | Err e => Err e
  | Ok targets =>
      match getAllStatuses m w targets workers with
      | Err e => Err e
      | Ok statuses =>
          let optMap := optMapOf (config m) targets in
          let st := fold_left (syncRepo (w_git w) optMap) statuses tally0 in
          Ok (say st ("Sync complete: " +:+ GoStrings.fmt_d (nOk st)
                      +:+ " synced, " +:+ GoStrings.fmt_d (nSkipped st)
                      +:+ " skipped, " +:+ GoStrings.fmt_d (nFailed st)
                      +:+ " failed"))
      end
  end.

End repo.

(** * Properties *)

(** ** The library helpers on concrete inputs *)

Example TrimSpace_ex :
  GoStrings.TrimSpace (String (ascii_of_nat 10) " fatal: x  ") = "fatal: x".
Proof. reflexivity. Qed.

Example Split_ex : GoStrings.Split "acme/mobile-api" "/" = ["acme"; "mobile-api"].
Proof. reflexivity. Qed.

Example Split_empty_ex : GoStrings.Split "" "/" = [""].
Proof. reflexivity. Qed.

Example Fields_ex :
  GoStrings.Fields (String "2" (String (ascii_of_nat 9) "13")) = ["2"; "13"].
Proof. reflexivity. Qed.

Example Sscanf_ex : GoStrings.Sscanf_d "13" 0 = 13 /\ GoStrings.Sscanf_d "x" 7 = 7
                    /\ GoStrings.Sscanf_d "1_0" 7 = 1 /\ GoStrings.Sscanf_d "12ab" 0 = 12
                    /\ GoStrings.Sscanf_d "_5" 7 = 7 /\ GoStrings.Sscanf_d "-3" 0 = -3.
Proof. repeat split; reflexivity. Qed.

Example fmt_d_ex : GoStrings.fmt_d 42 = "42" /\ GoStrings.fmt_d 0 = "0".
Proof. split; reflexivity. Qed.

Example Contains_ex :
  GoStrings.Contains "a..b" ".." = true /\ GoStrings.Contains "a.b" ".." = false.
Proof. split; reflexivity. Qed.

Example pool_Run_ex1 :
  pool.Run 1%positive [] [1; 2; 3] 2 (fun x => x * 10) = [10; 20; 30].
Proof. vm_compute. reflexivity. Qed.

Example pool_Run_ex2 :
  pool.Run 1%positive [0; 0; 1; 2; 2]%nat [1; 2; 3] 2 (fun x => x * 10)
  = [20; 10; 30].
Proof. vm_compute. reflexivity. Qed.

(** ** Lemmas on strings *)
Section StringFacts.
Import GoStrings.

Definition newline : ascii := ascii_of_nat 10.

(** The text before the first newline. *)
Fixpoint firstLine (s : string) : string :=
  match s with
  | EmptyString => EmptyString
  | String c s' => if Ascii.eqb c newline then EmptyString else String c (firstLine s')
  end.

Lemma prefix_nl c s : String.prefix repo.nl (String c s) = Ascii.eqb newline c.
Proof.
  change (String.prefix repo.nl (String c s))
    with (if ascii_dec newline c then String.prefix EmptyString s else false).
  destruct (ascii_dec newline c) as [e|Hne].
  - rewrite <- e, Ascii.eqb_refl. destruct s; reflexivity.
  - symmetry. apply Ascii.eqb_neq. exact Hne.
Qed.

Lemma Index_nl (s : string) :
  (Index s repo.nl = -1 /\ firstLine s = s)
  \/ (Index s repo.nl = Z.of_nat (String.length (firstLine s))
      /\ String.substring 0 (String.length (firstLine s)) s = firstLine s).
Proof.
  induction s as [|c s IH].
  - left. split; reflexivity.
  - cbn [Index firstLine]. rewrite prefix_nl.
    rewrite (Ascii.eqb_sym c newline).
    destruct (Ascii.eqb newline c) eqn:Hc.
    + right. split; reflexivity.
    + destruct IH as [[Hi Hf]|[Hi Hf]].
      * left. rewrite Hi, Hf. split; reflexivity.
      * right. rewrite Hi.
        assert (Hlt : (Z.of_nat (String.length (firstLine s)) <? 0) = false)
          by (apply Z.ltb_ge; lia).
        cbv zeta. rewrite Hlt. cbn [String.length String.substring].
        rewrite Hf. split; [lia | reflexivity].
Qed.

Lemma firstLine_no_newline (s : string) : Contains (firstLine s) repo.nl = false.
Proof.
  unfold Contains.
  assert (H : Index (firstLine s) repo.nl = -1); [|rewrite H; reflexivity].
  induction s as [|c s IH]; [reflexivity|].
  cbn [firstLine]. destruct (Ascii.eqb c newline) eqn:Hc; [reflexivity|].
  cbn [Index]. rewrite prefix_nl, (Ascii.eqb_sym newline c), Hc, IH. reflexivity.
Qed.

Lemma isSpace_newline (c : ascii) : isSpace c = false -> Ascii.eqb c newline = false.
Proof.
  intros H. apply Ascii.eqb_neq. intros ->. discriminate H.
Qed.

Lemma TrimLeft_head (s : string) :
  TrimLeft s = EmptyString
  \/ exists c t, TrimLeft s = String c t /\ isSpace c = false.
Proof.
  induction s as [|c s IH]; [left; reflexivity|].
  cbn [TrimLeft]. destruct (isSpace c) eqn:Hc; [exact IH|].
  right. exists c, s. split; [reflexivity | exact Hc].
Qed.

Lemma TrimRight_head (c : ascii) (t : string) :
  isSpace c = false -> exists t', TrimRight (String c t) = String c t'.
Proof.
  intros Hc. cbn [TrimRight]. destruct (TrimRight t) as [|c' t'].
  - rewrite Hc. eexists. reflexivity.
  - eexists. reflexivity.
Qed.

Lemma TrimSpace_head (s : string) :
  TrimSpace s = EmptyString
  \/ exists c t, TrimSpace s = String c t /\ isSpace c = false.
Proof.
  unfold TrimSpace. destruct (TrimLeft_head s) as [->|(c & t & -> & Hc)].
  - left. reflexivity.
  - right. destruct (TrimRight_head c t Hc) as [t' Ht'].
    exists c, t'. split; [exact Ht' | exact Hc].
Qed.

(** What [gitFetchWithStderr] keeps of a trimmed error output is its first
    line: the guard [idx > 0] never sees a leading newline. *)
Lemma cut_is_firstLine (stderr : string) :
  let output := TrimSpace stderr in
  (if 0 <? Index output repo.nl
   then slice_to output (Index output repo.nl) else output)
  = firstLine output.
Proof.
  cbv zeta. destruct (TrimSpace_head stderr) as [->|(c & t & -> & Hc)];
    [reflexivity|].
  pose proof (isSpace_newline c Hc) as Hn.
  cbn [Index firstLine]. rewrite prefix_nl, (Ascii.eqb_sym newline c), Hn.
  destruct (Index_nl t) as [[Hi Hf]|[Hi Hf]].
  - rewrite Hi, Hf. reflexivity.
  - rewrite Hi.
    assert (Hlt : (Z.of_nat (String.length (firstLine t)) <? 0) = false)
      by (apply Z.ltb_ge; lia).
    cbv zeta. rewrite Hlt.
    assert (Hpos : (0 <? Z.of_nat (String.length (firstLine t)) + 1) = true)
      by (apply Z.ltb_lt; lia).
    rewrite Hpos. unfold slice_to.
    replace (Z.to_nat (Z.of_nat (String.length (firstLine t)) + 1))
      with (S (String.length (firstLine t))) by lia.
    cbn [String.substring]. rewrite Hf. reflexivity.
Qed.

End StringFacts.

(** ** Worlds used to run the definitions *)
Module Scenario.

Definition tab : string := String (ascii_of_nat 9) EmptyString.

(** A [git] that answers by sub-command: the branch, the porcelain status,
    the left-right counts, whether the merge-base test succeeds, the fetch's
    standard error and exit, and the outcome of pull and push. *)
Definition gitWith (branch : result string) (porcelain : result string)
    (counts : result string) (isAncestor : bool)
    (fetch : string * option string) (mutate : list string -> option string)
    : repo.Git :=
  repo.mkGit
    (fun _ args =>
       if String.eqb (hd "" args) "rev-parse" then branch
       else if String.eqb (hd "" args) "status" then porcelain
       else if String.eqb (hd "" args) "rev-list" then counts
       else Err "exit status 129")
    (fun _ _ => if isAncestor then None else Some "exit status 1")
    (fun _ _ => fetch)
    (fun _ args => mutate args).

(** On branch main, clean, two commits ahead and three behind, histories
    diverged; the fetch fails with a message of two lines. *)
Definition git_diverged : repo.Git :=
  gitWith (Ok ("main" +:+ repo.nl)) (Ok "")
          (Ok ("2" +:+ tab +:+ "3" +:+ repo.nl)) false
          (" fatal: unable to access remote" +:+ repo.nl
           +:+ "hint: check the network" +:+ repo.nl, Some "exit status 128")
          (fun _ => None).

(** A working copy whose HEAD cannot be resolved. *)
Definition git_no_head : repo.Git :=
  gitWith (Err "exit status 128") (Ok "") (Ok ("0" +:+ tab +:+ "0")) true
          ("", None) (fun _ => None).

(** A working copy whose [git status] fails after a failed fetch. *)
Definition git_status_fails : repo.Git :=
  gitWith (Ok ("main" +:+ repo.nl)) (Err "exit status 128")
          (Ok ("1" +:+ tab +:+ "1")) true
          ("fatal: offline", Some "exit status 128") (fun _ => None).

End Scenario.

Example getRepoStatus_diverged :
  repo.getRepoStatus Scenario.git_diverged "/w/api" "mobile" "acme" "api" "gitea"
  = repo.mkRepoStatus "/w/api" "mobile" "gitea" "acme" "api" "main" false 2 3
      false false false "fatal: unable to access remote" "".
Proof. vm_compute. reflexivity. Qed.

Example getRepoStatus_no_head :
  repo.getRepoStatus Scenario.git_no_head "/w/api" "mobile" "acme" "api" "gitea"
  = repo.mkRepoStatus "/w/api" "mobile" "gitea" "acme" "api" "" false 0 0
      false false false "" "getting branch: exit status 128".
Proof. vm_compute. reflexivity. Qed.

(** ** The status engine *)
Section StatusEngine.
Import repo.

Definition revParseArgs : list string := ["rev-parse"; "--abbrev-ref"; "HEAD"].
Definition statusArgs : list string := ["status"; "--porcelain"].
Definition fetchArgs : list string := ["fetch"; "--quiet"].

(** The test [git merge-base --is-ancestor <branch> origin/<branch>]
    succeeded: the local branch is an ancestor of its upstream. *)
Definition isAncestor (git : Git) (path branch : string) : bool :=
  match gitRun git path ["merge-base"; "--is-ancestor"; branch; "origin/" +:+ branch] with
  | None => true
  | Some _ => false
  end.

(** The world that differs from [git] only in that the fetch succeeds. *)
Definition fetchSucceeds (git : Git) : Git :=
  mkGit (cmd_Output git) (cmd_Run git) (fun _ _ => (EmptyString, None))
        (cmd_CombinedOutput git).

(** The phases of [getRepoStatus] that follow the fetch, from the status
    built so far. *)
Definition afterFetch (git : Git) (path : string) (status : RepoStatus) : RepoStatus :=
  match gitOutput git path statusArgs with
  | Err err => setError status ("checking status: " +:+ err)
  | Ok dirtyOutput =>
      let status :=
        setDirty status (negb (String.eqb (GoStrings.TrimSpace dirtyOutput) "")) in
      let upstream := "origin/" +:+ Branch status in
      let status :=
        match gitOutput git path
                ["rev-list"; "--left-right"; "--count";
                 Branch status +:+ "..." +:+ upstream] with
        | Ok revList => scanCounts revList status
        | Err _ => status
        end in
      if 0 <? Behind status then
        let err := gitRun git path
                     ["merge-base"; "--is-ancestor"; Branch status; upstream] in
        setCanFastForward status
          (match err with None => true | Some _ => false end
           || (Ahead status =? 0))
      else setCanFastForward status true
  end.

Definition afterBranch (git : Git) (path : string) (status : RepoStatus)
    (branch : string) : RepoStatus :=
  let status := setBranch status (GoStrings.TrimSpace branch) in
  let fetchErr := gitFetchWithStderr git path in
  if negb (String.eqb fetchErr "") then setRemoteError status fetchErr else status.

Lemma getRepoStatus_phases git path target org name provider :
  getRepoStatus git path target org name provider
  = let status :=
      mkRepoStatus path target provider org name "" false 0 0 false false false "" "" in
    match gitOutput git path revParseArgs with
    | Err err => setError status ("getting branch: " +:+ err)
    | Ok branch => afterFetch git path (afterBranch git path status branch)
    end.
Proof. reflexivity. Qed.

Lemma scanCounts_fields revList s :
  let s' := scanCounts revList s in
  Path s' = Path s /\ Target s' = Target s /\ Provider s' = Provider s
  /\ Org s' = Org s /\ Name s' = Name s /\ Branch s' = Branch s
  /\ Dirty s' = Dirty s /\ CanFastForward s' = CanFastForward s
  /\ Archived s' = Archived s /\ Orphan s' = Orphan s
  /\ RemoteError s' = RemoteError s /\ Error s' = Error s.
Proof.
  unfold scanCounts.
  destruct (GoStrings.Fields _) as [|p0 [|p1 [|p2 ps]]]; cbn; repeat split.
Qed.

Lemma scanCounts_setRemoteError revList s e :
  scanCounts revList (setRemoteError s e) = setRemoteError (scanCounts revList s) e.
Proof.
  unfold scanCounts.
  destruct (GoStrings.Fields _) as [|p0 [|p1 [|p2 ps]]]; reflexivity.
Qed.

(** The fetch's message is carried through the later phases untouched. *)
Lemma afterFetch_setRemoteError git path s e :
  afterFetch git path (setRemoteError s e) = setRemoteError (afterFetch git path s) e.
Proof.
  unfold afterFetch. destruct (gitOutput git path statusArgs) as [d|msg];
    [|reflexivity].
  cbn zeta.
  change (Branch (setDirty (setRemoteError s e) _)) with (Branch s).
  change (Branch (setDirty s _)) with (Branch s).
  destruct (gitOutput git path _) as [revList|msg].
  - change (setDirty (setRemoteError s e) ?b) with (setRemoteError (setDirty s b) e).
    rewrite scanCounts_setRemoteError.
    set (s1 := scanCounts revList _).
    change (Behind (setRemoteError s1 e)) with (Behind s1).
    change (Ahead (setRemoteError s1 e)) with (Ahead s1).
    change (Branch (setRemoteError s1 e)) with (Branch s1).
    destruct (0 <? Behind s1); reflexivity.
  - cbn. destruct (0 <? Behind s); reflexivity.
Qed.

Lemma afterFetch_Error git path s :
  Error s = "" ->
  Error (afterFetch git path s) = ""
  <-> exists d, gitOutput git path statusArgs = Ok d.
Proof.
  intros Hs. unfold afterFetch.
  destruct (gitOutput git path statusArgs) as [d|msg].
  - split; [intros _; exists d; reflexivity|intros _].
    cbn zeta.
    match goal with
    | |- Error (if 0 <? Behind ?st then _ else _) = _ =>
        assert (He : Error st = "");
        [|destruct (0 <? Behind st); cbn; exact He]
    end.
    destruct (gitOutput git path _) as [revList|msg]; [|exact Hs].
    destruct (scanCounts_fields revList
                (setDirty s (negb (String.eqb (GoStrings.TrimSpace d) ""))))
      as (_ & _ & _ & _ & _ & _ & _ & _ & _ & _ & _ & He).
    rewrite He. exact Hs.
  - split; [cbn; discriminate|intros [d Hd]; discriminate Hd].
Qed.

(** No minus sign occurs in the text. *)
Fixpoint unsigned (s : string) : bool :=
  match s with
  | EmptyString => true
  | String c s' => negb (Ascii.eqb c "-") && unsigned s'
  end.

(** [git rev-list --count] prints its counts without sign: no output of a
    [rev-list] command in the working copy has a minus sign in it. *)
Definition printsUnsigned (git : Git) (path : string) : Prop :=
  forall args out,
    hd "" args = "rev-list" -> gitOutput git path args = Ok out -> unsigned out = true.

Lemma unsigned_TrimLeft s :
  unsigned s = true -> unsigned (GoStrings.TrimLeft s) = true.
Proof.
  induction s as [|c s IH]; [auto|]. cbn [GoStrings.TrimLeft].
  destruct (GoStrings.isSpace c); [|auto].
  cbn [unsigned]. intros H. apply andb_prop in H as [_ H]. auto.
Qed.

Lemma unsigned_TrimRight s :
  unsigned s = true -> unsigned (GoStrings.TrimRight s) = true.
Proof.
  induction s as [|c s IH]; [auto|]. cbn [GoStrings.TrimRight unsigned].
  intros H. apply andb_prop in H as [Hc H]. specialize (IH H).
  destruct (GoStrings.TrimRight s) as [|d r].
  - destruct (GoStrings.isSpace c); [reflexivity|]. cbn. rewrite Hc. reflexivity.
  - cbn [unsigned] in *. rewrite Hc, IH. reflexivity.
Qed.

Lemma unsigned_Fields s :
  unsigned s = true -> Forall (fun f => unsigned f = true) (GoStrings.Fields s).
Proof.
  induction s as [|c s IH]; [constructor|]. cbn [GoStrings.Fields unsigned].
  intros H. apply andb_prop in H as [Hc H]. specialize (IH H). cbv zeta.
  destruct (GoStrings.isSpace c); [exact IH|].
  assert (Hone : unsigned (String c "") = true) by (cbn; rewrite Hc; reflexivity).
  destruct (GoStrings.Fields s) as [|f fs].
  - constructor; [exact Hone|constructor].
  - destruct (GoStrings.startsWithSpace s).
    + constructor; [exact Hone|exact IH].
    + inversion IH as [|? ? Hf Hfs]; subst.
      constructor; [cbn [unsigned]; rewrite Hc, Hf; reflexivity|exact Hfs].
Qed.

Lemma isDigit_value c :
  GoStrings.isDigit c = true -> 0 <= Z.of_nat (nat_of_ascii c) - 48.
Proof.
  unfold GoStrings.isDigit. cbv zeta. intros H. apply andb_prop in H as [H _].
  apply Nat.leb_le in H. lia.
Qed.

Lemma parseDigits_nonneg s acc :
  0 <= acc -> 0 <= GoStrings.parseDigits acc (GoStrings.scanNumber s).
Proof.
  revert acc. induction s as [|c s IH]; intros acc Hacc; [exact Hacc|].
  cbn [GoStrings.scanNumber]. destruct (GoStrings.isDigit c) eqn:Hd; [|exact Hacc].
  cbn [GoStrings.parseDigits]. apply IH. apply isDigit_value in Hd. lia.
Qed.

Lemma Sscanf_d_nonneg tok old :
  unsigned tok = true -> 0 <= old -> 0 <= GoStrings.Sscanf_d tok old.
Proof.
  intros Hu Hold. unfold GoStrings.Sscanf_d.
  assert (Hneg : exists rest,
            match tok with
            | String "-"%char r => (true, r)
            | String "+"%char r => (false, r)
            | _ => (false, tok)
            end = (false, rest)).
  { destruct tok as [|c r]; [eexists; reflexivity|].
    cbn [unsigned] in Hu. apply andb_prop in Hu as [Hc _].
    destruct c as [[] [] [] [] [] [] [] []]; try (eexists; reflexivity).
    discriminate Hc. }
  destruct Hneg as [rest ->].
  pose proof (parseDigits_nonneg rest 0 ltac:(lia)) as Hp.
  destruct (GoStrings.scanNumber rest) as [|d run]; [exact Hold|].
  cbv zeta.
  destruct (_ && _); [exact Hp|exact Hold].
Qed.

Lemma scanCounts_nonneg revList s :
  unsigned revList = true -> 0 <= Ahead s -> 0 <= Behind s ->
  0 <= Ahead (scanCounts revList s) /\ 0 <= Behind (scanCounts revList s).
Proof.
  intros Hu Ha Hb. unfold scanCounts.
  pose proof (unsigned_Fields _ (unsigned_TrimRight _ (unsigned_TrimLeft _ Hu))) as Hf.
  fold (GoStrings.TrimSpace revList) in Hf.
  destruct (GoStrings.Fields (GoStrings.TrimSpace revList)) as [|p0 [|p1 [|p2 ps]]];
    try (split; assumption).
  inversion Hf as [|? ? H0 Hf1]; subst. inversion Hf1 as [|? ? H1 _]; subst.
  cbn. split; apply Sscanf_d_nonneg; assumption.
Qed.

Lemma afterFetch_counts_nonneg git path st :
  printsUnsigned git path -> 0 <= Ahead st -> 0 <= Behind st ->
  0 <= Ahead (afterFetch git path st) /\ 0 <= Behind (afterFetch git path st).
Proof.
  intros Hp Ha Hb. unfold afterFetch.
  destruct (gitOutput git path statusArgs) as [d|msg]; [|split; assumption].
  cbv zeta.
  match goal with
  | |- context [if 0 <? Behind ?x then _ else _] => set (s1 := x)
  end.
  assert (H1 : 0 <= Ahead s1 /\ 0 <= Behind s1).
  { subst s1. change (Branch (setDirty st _)) with (Branch st).
    destruct (gitOutput git path _) as [revList|msg] eqn:Hr; [|split; assumption].
    apply scanCounts_nonneg; [|assumption|assumption].
    eapply Hp; [|exact Hr]. reflexivity. }
  destruct (0 <? Behind s1); exact H1.
Qed.

(** The counts scanned from unsigned output are not negative. *)
Lemma getRepoStatus_counts_nonneg git path target org name provider :
  printsUnsigned git path ->
  let s := getRepoStatus git path target org name provider in
  0 <= Ahead s /\ 0 <= Behind s.
Proof.
  intros Hp. cbv zeta. rewrite getRepoStatus_phases. cbv zeta.
  destruct (gitOutput git path revParseArgs) as [branch|e]; [|cbn; lia].
  apply afterFetch_counts_nonneg; [exact Hp| |].
  - unfold afterBranch. cbv zeta. destruct (negb _); cbn; lia.
  - unfold afterBranch. cbv zeta. destruct (negb _); cbn; lia.
Qed.

End StatusEngine.

Section StatusEngineClaims.
Import repo.

Lemma afterFetch_canFastForward git path st :
  let s := afterFetch git path st in
  Error s = "" ->
  (Behind s <= 0 -> CanFastForward s = true)
  /\ (0 < Behind s ->
      CanFastForward s = isAncestor git path (Branch s) || (Ahead s =? 0)).
Proof.
  unfold afterFetch.
  destruct (gitOutput git path statusArgs) as [d|msg]; [|cbn; discriminate].
  cbn zeta.
  match goal with
  | |- Error (if 0 <? Behind ?x then _ else _) = _ -> _ => set (s1 := x)
  end.
  assert (Hb : Branch s1 = Branch st).
  { subst s1. destruct (gitOutput git path _) as [revList|msg]; [|reflexivity].
    destruct (scanCounts_fields revList
                (setDirty st (negb (String.eqb (GoStrings.TrimSpace d) ""))))
      as (_ & _ & _ & _ & _ & Hbr & _). exact Hbr. }
  change (Branch (setDirty st _)) with (Branch st).
  destruct (0 <? Behind s1) eqn:Hpos; intros _; cbn.
  - apply Z.ltb_lt in Hpos. split; [lia|intros _].
    unfold isAncestor. rewrite Hb. reflexivity.
  - apply Z.ltb_ge in Hpos. split; [reflexivity|lia].
Qed.

(** C10.  When the branch cannot be resolved, or the dirty check fails, the
    returned status has its fatal-error field set and the derived fields at
    their zero values: not dirty, ahead 0, behind 0, fast-forward false (and
    the two remote flags, which the status engine never sets, false).  On
    the branch failure the branch and the remote-fetch-error are empty as
    well, the fetch never having been attempted. *)
Theorem fatal_status_zero_fields git path target org name provider :
  let s := getRepoStatus git path target org name provider in
  (forall e, gitOutput git path revParseArgs = Err e ->
     Error s = "getting branch: " +:+ e /\ Error s <> ""
     /\ Dirty s = false /\ Ahead s = 0 /\ Behind s = 0
     /\ CanFastForward s = false /\ Archived s = false /\ Orphan s = false
     /\ Branch s = "" /\ RemoteError s = "")
  /\ (forall branch e,
        gitOutput git path revParseArgs = Ok branch ->
        gitOutput git path statusArgs = Err e ->
        Error s = "checking status: " +:+ e /\ Error s <> ""
        /\ Dirty s = false /\ Ahead s = 0 /\ Behind s = 0
        /\ CanFastForward s = false /\ Archived s = false /\ Orphan s = false).
Proof.
  cbv zeta. rewrite getRepoStatus_phases. cbv zeta. split.
  - intros e He. rewrite He. cbn. repeat split. discriminate.
  - intros branch e Hb He. rewrite Hb. unfold afterFetch. rewrite He.
    unfold afterBranch. cbv zeta.
    destruct (negb (String.eqb (gitFetchWithStderr git path) ""));
      cbn; repeat split; discriminate.
Qed.

(** On a working copy whose HEAD cannot be resolved, and on one whose
    [git status] fails. *)
Lemma fatal_status_zero_fields_witness :
  let s := getRepoStatus Scenario.git_no_head "/w/api" "mobile" "acme" "api" "gitea" in
  let s' := getRepoStatus Scenario.git_status_fails "/w/api" "mobile" "acme" "api" "gitea" in
  (Error s <> "" /\ Dirty s = false /\ Ahead s = 0 /\ Behind s = 0
   /\ CanFastForward s = false /\ Archived s = false /\ Orphan s = false
   /\ Branch s = "" /\ RemoteError s = "")
  /\ (Error s' <> "" /\ Dirty s' = false /\ Ahead s' = 0 /\ Behind s' = 0
      /\ CanFastForward s' = false /\ Archived s' = false /\ Orphan s' = false).
Proof.
  cbv zeta. split.
  - apply (proj1 (fatal_status_zero_fields Scenario.git_no_head
                    "/w/api" "mobile" "acme" "api" "gitea") "exit status 128").
    reflexivity.
  - apply (proj2 (fatal_status_zero_fields Scenario.git_status_fails
                    "/w/api" "mobile" "acme" "api" "gitea")
                 ("main" +:+ nl) "exit status 128"); reflexivity.
Defined.

(** C2.  For every status the status engine computes through its fifth
    phase, that is, without a fatal error: when the behind count is zero
    the fast-forward flag is true whatever the ahead count; when the behind
    count is other than zero the flag is true exactly when the local branch
    is an ancestor of [origin/<branch>] or the ahead count is zero.  A
    behind count other than zero is a positive one: the counts are those
    [git rev-list --count] prints, without sign, and the count scanned from
    them is not negative.  (The code tests [Behind > 0]; on a count below
    zero, which unsigned output never yields, the flag is true as well.) *)
Theorem canFastForward_of_counts git path target org name provider :
  let s := getRepoStatus git path target org name provider in
  Error s = "" ->
  (Behind s <= 0 -> CanFastForward s = true)
  /\ (0 < Behind s ->
      CanFastForward s = isAncestor git path (Branch s) || (Ahead s =? 0))
  /\ (printsUnsigned git path ->
      0 <= Behind s
      /\ (Behind s <> 0 ->
          CanFastForward s = isAncestor git path (Branch s) || (Ahead s =? 0))).
Proof.
  cbv zeta. intros He.
  assert (Hc : (Behind (getRepoStatus git path target org name provider) <= 0 ->
                CanFastForward (getRepoStatus git path target org name provider) = true)
               /\ (0 < Behind (getRepoStatus git path target org name provider) ->
                   CanFastForward (getRepoStatus git path target org name provider)
                   = isAncestor git path
                       (Branch (getRepoStatus git path target org name provider))
                     || (Ahead (getRepoStatus git path target org name provider) =? 0))).
  { revert He. rewrite getRepoStatus_phases. cbv zeta.
    destruct (gitOutput git path revParseArgs) as [branch|e]; [|cbn; discriminate].
    apply afterFetch_canFastForward. }
  destruct Hc as [Hz Hpos]. split; [exact Hz|]. split; [exact Hpos|].
  intros Hp.
  destruct (getRepoStatus_counts_nonneg git path target org name provider Hp)
    as [_ Hb].
  split; [exact Hb|]. intros Hnz. apply Hpos. lia.
Qed.

End StatusEngineClaims.

(** A working copy on branch main, clean, with the given counts ahead and
    behind and the given outcome of the ancestor test; the fetch succeeds. *)
Definition git_counts (ahead behind : string) (isAncestor : bool) : repo.Git :=
  Scenario.gitWith (Ok ("main" +:+ repo.nl)) (Ok "")
    (Ok (ahead +:+ Scenario.tab +:+ behind +:+ repo.nl)) isAncestor
    ("", None) (fun _ => None).

Definition status_of (git : repo.Git) : repo.RepoStatus :=
  repo.getRepoStatus git "/w/api" "mobile" "acme" "api" "gitea".

Lemma git_counts_unsigned ahead behind anc path :
  unsigned ahead = true -> unsigned behind = true ->
  printsUnsigned (git_counts ahead behind anc) path.
Proof.
  intros Ha Hb args out Hhd Hout.
  unfold repo.gitOutput, git_counts, Scenario.gitWith in Hout.
  cbn [repo.cmd_Output] in Hout. rewrite Hhd in Hout.
  change (String.eqb "rev-list" "rev-parse") with false in Hout.
  change (String.eqb "rev-list" "status") with false in Hout.
  change (String.eqb "rev-list" "rev-list") with true in Hout.
  cbv iota in Hout. injection Hout as <-.
  assert (Happ : forall a b, unsigned a = true -> unsigned b = true ->
                             unsigned (a +:+ b) = true).
  { induction a as [|c a IH]; intros b H1 H2; [exact H2|].
    cbn [unsigned] in H1. apply andb_prop in H1 as [Hc H1].
    change (String c a +:+ b) with (String c (a +:+ b)).
    cbn [unsigned]. rewrite Hc, (IH b H1 H2). reflexivity. }
  repeat apply Happ; try assumption; reflexivity.
Qed.

(** On four working copies without fatal error: two ahead and not behind
    (the flag is true though the ancestor test fails); two ahead and three
    behind, diverged (false); three behind, an ancestor (true); three
    behind and none ahead, the ancestor test failing (true). *)
Lemma canFastForward_of_counts_witness :
  (repo.Behind (status_of (git_counts "2" "0" false)) = 0
   /\ repo.Ahead (status_of (git_counts "2" "0" false)) = 2
   /\ repo.CanFastForward (status_of (git_counts "2" "0" false)) = true)
  /\ (repo.Behind (status_of (git_counts "2" "3" false)) = 3
      /\ repo.CanFastForward (status_of (git_counts "2" "3" false)) = false)
  /\ repo.CanFastForward (status_of (git_counts "0" "3" true)) = true
  /\ repo.CanFastForward (status_of (git_counts "0" "3" false)) = true.
Proof.
  split; [split; [reflexivity|split; [reflexivity|]]|].
  { apply (proj1 (canFastForward_of_counts (git_counts "2" "0" false)
                    "/w/api" "mobile" "acme" "api" "gitea" eq_refl)).
    vm_compute. discriminate. }
  split; [split; [reflexivity|]|].
  { apply (proj2 (proj2 (proj2 (canFastForward_of_counts (git_counts "2" "3" false)
                                  "/w/api" "mobile" "acme" "api" "gitea" eq_refl))
                          (git_counts_unsigned "2" "3" false "/w/api"
                             eq_refl eq_refl))).
    vm_compute. discriminate. }
  split.
  { apply (proj2 (proj2 (proj2 (canFastForward_of_counts (git_counts "0" "3" true)
                                  "/w/api" "mobile" "acme" "api" "gitea" eq_refl))
                          (git_counts_unsigned "0" "3" true "/w/api"
                             eq_refl eq_refl))).
    vm_compute. discriminate. }
  apply (proj1 (proj2 (canFastForward_of_counts (git_counts "0" "3" false)
                         "/w/api" "mobile" "acme" "api" "gitea" eq_refl))).
  reflexivity.
Defined.

Section FetchClaims.
Import repo.

(** C7.  A failed fetch is not fatal.  Once the branch is resolved, a fetch
    that fails with error output [stderr] leaves in the remote-fetch-error
    field the first line of that output (trimmed) and nothing after it; in
    every other field the status is the one computed had the fetch
    succeeded, so the fatal-error field is set only if the dirty check
    fails, and the dirty check, the counts and the fast-forward flag are
    those of the later phases. *)
Theorem fetch_failure_not_fatal git path target org name provider branch stderr e :
  gitOutput git path revParseArgs = Ok branch ->
  cmd_RunStderr git path fetchArgs = (stderr, Some e) ->
  let s := getRepoStatus git path target org name provider in
  let s_ok := getRepoStatus (fetchSucceeds git) path target org name provider in
  RemoteError s = firstLine (GoStrings.TrimSpace stderr)
  /\ GoStrings.Contains (RemoteError s) nl = false
  /\ s = setRemoteError s_ok (RemoteError s)
  /\ (Error s = "" <-> exists d, gitOutput git path statusArgs = Ok d)
  /\ (Error s = "" ->
      (Behind s <= 0 -> CanFastForward s = true)
      /\ (0 < Behind s ->
          CanFastForward s = isAncestor git path (Branch s) || (Ahead s =? 0))).
Proof.
  intros Hb Hf. cbv zeta.
  set (fe := firstLine (GoStrings.TrimSpace stderr)).
  set (st0 := mkRepoStatus path target provider org name "" false 0 0
                false false false "" "").
  set (st1 := setBranch st0 (GoStrings.TrimSpace branch)).
  assert (Hs : getRepoStatus git path target org name provider
               = setRemoteError (afterFetch git path st1) fe).
  { rewrite getRepoStatus_phases. cbv zeta. rewrite Hb.
    unfold afterBranch. cbv zeta.
    assert (Hfe : gitFetchWithStderr git path = fe).
    { unfold gitFetchWithStderr. fold fetchArgs. rewrite Hf.
      apply cut_is_firstLine. }
    rewrite Hfe. fold st0. fold st1.
    rewrite <- afterFetch_setRemoteError.
    destruct (String.eqb fe "") eqn:Hempty; [|reflexivity].
    apply String.eqb_eq in Hempty. rewrite Hempty. reflexivity. }
  assert (Hok : getRepoStatus (fetchSucceeds git) path target org name provider
                = afterFetch git path st1).
  { rewrite getRepoStatus_phases. cbv zeta.
    change (gitOutput (fetchSucceeds git) path revParseArgs)
      with (gitOutput git path revParseArgs).
    rewrite Hb. reflexivity. }
  rewrite Hs, Hok.
  change (RemoteError (setRemoteError (afterFetch git path st1) fe)) with fe.
  change (Error (setRemoteError (afterFetch git path st1) fe))
    with (Error (afterFetch git path st1)).
  split; [reflexivity|].
  split; [apply firstLine_no_newline|].
  split; [reflexivity|].
  split; [apply afterFetch_Error; reflexivity|].
  apply (afterFetch_canFastForward git path st1).
Qed.

(** On the diverged working copy: the fetch fails with two lines of error
    output and the status is computed all the same. *)
Lemma fetch_failure_not_fatal_witness :
  let s := getRepoStatus Scenario.git_diverged "/w/api" "mobile" "acme" "api" "gitea" in
  RemoteError s = "fatal: unable to access remote"
  /\ Error s = "" /\ Dirty s = false /\ Ahead s = 2 /\ Behind s = 3
  /\ CanFastForward s = false.
Proof.
  cbv zeta.
  destruct (fetch_failure_not_fatal Scenario.git_diverged
              "/w/api" "mobile" "acme" "api" "gitea" ("main" +:+ nl)
              (" fatal: unable to access remote" +:+ nl
               +:+ "hint: check the network" +:+ nl)
              "exit status 128" eq_refl eq_refl)
    as (Hr & _ & _ & _ & _).
  split; [exact Hr|]. repeat split.
Defined.

End FetchClaims.

(** ** The decision engine *)
Section Decisions.
Import repo.




(** The options [Manager.Sync] applies to a status. *)
Definition optsFor (optMap : gmap string config.ProviderOptions) (s : RepoStatus)
    : config.ProviderOptions :=
  default config.zeroProviderOptions (optMap !! Target s).

Definition ffOnlyFor (optMap : gmap string config.ProviderOptions) (s : RepoStatus)
    : bool :=
  config.GetFFOnly (config.Sync (optsFor optMap s)).

(** The two invocations the decisions are about, written out, and what
    [git] answers to each. *)
Definition pullCall (path : string) (ffOnly : bool) : gitCmd :=
  (path, if ffOnly then ["pull"; "--ff-only"] else ["pull"]).

Definition pushCall (path : string) : gitCmd := (path, ["push"]).

Definition pullAnswer (git : Git) (path : string) (ffOnly : bool) : option string :=
  cmd_CombinedOutput git path (if ffOnly then ["pull"; "--ff-only"] else ["pull"]).

Definition pushAnswer (git : Git) (path : string) : option string :=
  cmd_CombinedOutput git path ["push"].

Lemma gitPull_call git path ffOnly :
  gitPull git path ffOnly = (pullCall path ffOnly, pullAnswer git path ffOnly).
Proof. destruct ffOnly; reflexivity. Qed.

Lemma gitPush_call git path :
  gitPush git path = (pushCall path, pushAnswer git path).
Proof. reflexivity. Qed.




(** In a run the commands of one repository do not depend on what was done
    for the repositories before it, so the trace of the run is the
    concatenation of the traces of its statuses. *)
Lemma pushRepo_ops git st s :
  ops (pushRepo git st s) = ops st ++ ops (pushRepo git tally0 s).
Proof.
  unfold pushRepo. rewrite gitPush_call.
  destruct (negb (String.eqb (Error s) "")); [cbn; rewrite app_nil_r; done|].
  destruct (0 <? Behind s); [cbn; rewrite app_nil_r; done|].
  destruct (Ahead s =? 0); [cbn; rewrite app_nil_r; done|].
  destruct (pushAnswer git (Path s)); reflexivity.
Qed.

Lemma push_run_ops git statuses st :
  ops (fold_left (pushRepo git) statuses st)
  = ops st ++ flat_map (fun s => ops (pushRepo git tally0 s)) statuses.
Proof.
  revert st. induction statuses as [|s rest IH]; intros st; cbn.
  - rewrite app_nil_r. reflexivity.
  - rewrite IH, pushRepo_ops, <- app_assoc. reflexivity.
Qed.

Ltac sync_cases :=
  unfold syncRepo, syncPull, syncPush; rewrite ?gitPull_call, ?gitPush_call;
  repeat match goal with
         | |- context [if ?b then _ else _] => destruct b
         | |- context [match pullAnswer ?g ?p ?f with _ => _ end] =>
             destruct (pullAnswer g p f)
         | |- context [match pushAnswer ?g ?p with _ => _ end] =>
             destruct (pushAnswer g p)
         end.

Lemma syncRepo_ops git optMap st s :
  ops (syncRepo git optMap st s) = ops st ++ ops (syncRepo git optMap tally0 s).
Proof.
  sync_cases; cbn; rewrite <- ?app_assoc, ?app_nil_r; reflexivity.
Qed.

Lemma sync_run_ops git optMap statuses st :
  ops (fold_left (syncRepo git optMap) statuses st)
  = ops st ++ flat_map (fun s => ops (syncRepo git optMap tally0 s)) statuses.
Proof.
  revert st. induction statuses as [|s rest IH]; intros st; cbn.
  - rewrite app_nil_r. reflexivity.
  - rewrite IH, syncRepo_ops, <- app_assoc. reflexivity.
Qed.


Lemma Push_ops m w targetNames workers st :
  Push m w targetNames workers = Ok st ->
  exists targets statuses,
    targetsFor m targetNames = Ok targets
    /\ getAllStatuses m w targets workers = Ok statuses
    /\ ops st = flat_map (fun s => ops (pushRepo (w_git w) tally0 s)) statuses.
Proof.
  unfold Push.
  destruct (targetsFor m targetNames) as [targets|e] eqn:Ht; [|discriminate].
  destruct (getAllStatuses m w targets workers) as [statuses|e] eqn:Hs;
    [|discriminate].
  intros H. injection H as <-. exists targets, statuses.
  split; [reflexivity|]. split; [exact Hs|].
  cbn [ops say]. rewrite push_run_ops. reflexivity.
Qed.

Lemma Sync_ops m w targetNames workers st :
  Sync m w targetNames workers = Ok st ->
  exists targets statuses,
    targetsFor m targetNames = Ok targets
    /\ getAllStatuses m w targets workers = Ok statuses
    /\ ops st = flat_map (fun s => ops (syncRepo (w_git w)
                                           (optMapOf (config m) targets) tally0 s))
                         statuses.
Proof.
  unfold Sync.
  destruct (targetsFor m targetNames) as [targets|e] eqn:Ht; [|discriminate].
  destruct (getAllStatuses m w targets workers) as [statuses|e] eqn:Hs;
    [|discriminate].
  intros H. injection H as <-. exists targets, statuses.
  split; [reflexivity|]. split; [exact Hs|].
  cbn [ops say]. rewrite sync_run_ops. reflexivity.
Qed.








End Decisions.

(** ** The remote reconciler: the annotation pass *)
Section Annotation.
Import repo.

(** The fields the annotation pass must leave alone. *)
Definition sameLocalFields (s s' : RepoStatus) : Prop :=
  Path s' = Path s /\ Target s' = Target s /\ Provider s' = Provider s
  /\ Org s' = Org s /\ Name s' = Name s /\ Branch s' = Branch s
  /\ Dirty s' = Dirty s /\ Ahead s' = Ahead s /\ Behind s' = Behind s
  /\ CanFastForward s' = CanFastForward s
  /\ RemoteError s' = RemoteError s /\ Error s' = Error s.

(** The entry of the index for the (provider, organization) pair of [s]. *)
Definition indexEntry (index : gmap string (gmap string remote.Repository))
    (s : RepoStatus) : option (gmap string remote.Repository) :=
  index !! orgKey_string (mkOrgKey (Provider s) (Org s)).

Lemma markRemote_spec index s :
  sameLocalFields s (markRemote index s)
  /\ match indexEntry index s with
     | None =>
         Orphan (markRemote index s) = true
         /\ Archived (markRemote index s) = Archived s
     | Some repos =>
         match repos !! Name s with
         | None =>
             Orphan (markRemote index s) = true
             /\ Archived (markRemote index s) = Archived s
         | Some r =>
             Archived (markRemote index s) = remote.Archived r
             /\ Orphan (markRemote index s) = Orphan s
         end
     end.
Proof.
  unfold markRemote, indexEntry, sameLocalFields.
  destruct (index !! _) as [repos|]; [destruct (repos !! Name s) as [r|]|];
    cbn; repeat split.
Qed.

(** C4.  After the annotation pass the slice has the same length and, at
    every position, a status that agrees with the one before in every field
    but archived and orphan (ahead, behind, dirty and branch among them).
    If the index has no entry for the status's (provider, organization)
    pair, orphan is true; otherwise, if the organization's map has no record
    under the repository's name, orphan is true; and if it has one, archived
    is exactly the record's archived flag. *)
Theorem markRemoteState_spec (statuses : list RepoStatus)
    (index : gmap string (gmap string remote.Repository)) :
  length (markRemoteState statuses index) = length statuses
  /\ forall (i : nat) (s : RepoStatus),
       statuses !! i = Some s ->
       exists s',
         markRemoteState statuses index !! i = Some s'
         /\ sameLocalFields s s'
         /\ match indexEntry index s with
            | None => Orphan s' = true /\ Archived s' = Archived s
            | Some repos =>
                match repos !! Name s with
                | None => Orphan s' = true /\ Archived s' = Archived s
                | Some r => Archived s' = remote.Archived r /\ Orphan s' = Orphan s
                end
            end.
Proof.
  unfold markRemoteState. split; [apply length_fmap|].
  intros i s Hi. exists (markRemote index s).
  split; [rewrite list_lookup_fmap, Hi; reflexivity|].
  apply markRemote_spec.
Qed.

(** An index with one organization, [acme] on [gitea], holding an archived
    repository [old] and a live one [api]. *)
Definition repoNamed (name : string) (archived : bool) : remote.Repository :=
  remote.mkRepository 1 name ("acme/" +:+ name) "" "" "" "" "main"
                      false archived false false.

Definition index_acme : gmap string (gmap string remote.Repository) :=
  {[ "gitea|acme" := {[ "old" := repoNamed "old" true;
                        "api" := repoNamed "api" false ]} ]}.

Definition statusAt (org name : string) : RepoStatus :=
  mkRepoStatus ("/w/" +:+ name) "t" "gitea" org name "main" true 2 1 false
               false false "" "".

Definition statuses_acme : list RepoStatus :=
  [statusAt "acme" "old"; statusAt "acme" "gone"; statusAt "other" "api"].

Example markRemoteState_acme :
  markRemoteState statuses_acme index_acme
  = [setArchived (statusAt "acme" "old") true;
     setOrphan (statusAt "acme" "gone") true;
     setOrphan (statusAt "other" "api") true].
Proof. vm_compute. reflexivity. Qed.

(** The three outcomes of the pass on the index of [acme]. *)
Lemma markRemoteState_spec_witness :
  (exists s', markRemoteState statuses_acme index_acme !! 0%nat = Some s'
              /\ Archived s' = true /\ Orphan s' = false
              /\ sameLocalFields (statusAt "acme" "old") s')
  /\ (exists s', markRemoteState statuses_acme index_acme !! 1%nat = Some s'
                 /\ Orphan s' = true
                 /\ sameLocalFields (statusAt "acme" "gone") s')
  /\ (exists s', markRemoteState statuses_acme index_acme !! 2%nat = Some s'
                 /\ Orphan s' = true
                 /\ sameLocalFields (statusAt "other" "api") s').
Proof.
  pose proof (proj2 (markRemoteState_spec statuses_acme index_acme)) as H.
  refine (conj _ (conj _ _)).
  - destruct (H 0%nat (statusAt "acme" "old") eq_refl) as (s' & Hl & Hs & Hf).
    vm_compute in Hf. exists s'. tauto.
  - destruct (H 1%nat (statusAt "acme" "gone") eq_refl) as (s' & Hl & Hs & Hf).
    vm_compute in Hf. exists s'. tauto.
  - destruct (H 2%nat (statusAt "other" "api") eq_refl) as (s' & Hl & Hs & Hf).
    vm_compute in Hf. exists s'. tauto.
Defined.

End Annotation.

(** ** The foldout resolver *)
Section Foldout.
Import repo.

(** A repo name of the form [org/repo]: exactly two segments. *)
Definition twoSegments (name : string) : Prop :=
  length (GoStrings.Split name "/") = 2%nat.

(** The trailing path segment of a repo name. *)
Definition trailingSegment (name : string) : string :=
  List.last (GoStrings.Split name "/") "".

(** Entry [r'] is entry [r] with its target directory defaulted. *)
Definition defaulted (r r' : foldoutRepo) : Prop :=
  fr_Name r' = fr_Name r
  /\ (fr_Target r = "" -> fr_Target r' = trailingSegment (fr_Name r))
  /\ (fr_Target r <> "" -> fr_Target r' = fr_Target r).

(** The target directory has a [..] path segment. *)
Definition hasParentSegment (target : string) : Prop :=
  ".." ∈ GoStrings.Split target "/".

Lemma defaultTargets_bad_name repos :
  (exists r, r ∈ repos /\ ~ twoSegments (fr_Name r)) ->
  exists e, defaultTargets repos = Err e.
Proof.
  induction repos as [|r rest IH]; intros (r0 & Hin & Hbad).
  - apply elem_of_nil in Hin. contradiction.
  - cbn [defaultTargets].
    destruct (length (GoStrings.Split (fr_Name r) "/") =? 2)%nat eqn:Hlen;
      cbn [negb]; [|eexists; reflexivity].
    apply Nat.eqb_eq in Hlen.
    apply elem_of_cons in Hin as [->|Hin]; [contradiction|].
    destruct (IH (ex_intro _ r0 (conj Hin Hbad))) as [e ->].
    exists e. reflexivity.
Qed.

Lemma defaultTargets_good_names repos :
  Forall (fun r => twoSegments (fr_Name r)) repos ->
  exists rs, defaultTargets repos = Ok rs /\ Forall2 defaulted repos rs.
Proof.
  induction 1 as [|r rest Hr Hrest (rs & IH & Hrs)].
  - exists []. split; [reflexivity|constructor].
  - cbn [defaultTargets]. unfold twoSegments in Hr. rewrite Hr, IH.
    cbn [Nat.eqb negb]. eexists. split; [reflexivity|].
    constructor; [|exact Hrs].
    unfold defaulted, trailingSegment.
    destruct (String.eqb (fr_Target r) "") eqn:Ht; cbn.
    + apply String.eqb_eq in Ht. repeat split; congruence.
    + apply String.eqb_neq in Ht. repeat split; congruence.
Qed.

(** An entry the validation refuses on its own. *)
Definition badTarget (r : foldoutRepo) : Prop :=
  fr_Target r = "" \/ GoStrings.Contains (fr_Target r) ".." = true.

Lemma cleanFoldoutTargets_from_spec seen repos :
  cleanFoldoutTargets_from seen repos <> None
  <-> (exists r, r ∈ repos /\ badTarget r)
      \/ ~ NoDup (fr_Target <$> repos)
      \/ (exists r, r ∈ repos /\ fr_Target r ∈ seen).
Proof.
  revert seen. induction repos as [|r rest IH]; intros seen.
  - cbn. split; [congruence|].
    intros [(r & Hr & _)|[Hd|(r & Hr & _)]].
    + apply elem_of_nil in Hr. contradiction.
    + exfalso. apply Hd. constructor.
    + apply elem_of_nil in Hr. contradiction.
  - cbn [cleanFoldoutTargets_from fmap list_fmap].
    destruct (String.eqb (fr_Target r) "") eqn:He.
    { apply String.eqb_eq in He. split; [intros _|congruence].
      left. exists r. split; [apply list_elem_of_here|left; exact He]. }
    apply String.eqb_neq in He.
    destruct (GoStrings.Contains (fr_Target r) "..") eqn:Hc.
    { split; [intros _|congruence].
      left. exists r. split; [apply list_elem_of_here|right; exact Hc]. }
    destruct (bool_decide (fr_Target r ∈ seen)) eqn:Hs.
    { apply bool_decide_eq_true in Hs. split; [intros _|congruence].
      right. right. exists r. split; [apply list_elem_of_here|exact Hs]. }
    apply bool_decide_eq_false in Hs.
    rewrite IH. rewrite NoDup_cons.
    split.
    + intros [(r0 & Hin & Hb)|[Hd|(r0 & Hin & Hseen)]].
      * left. exists r0. split; [apply list_elem_of_further; exact Hin|exact Hb].
      * right. left. intros [_ Hnd]. exact (Hd Hnd).
      * apply elem_of_union in Hseen as [Hhere|Hseen].
        -- apply elem_of_singleton in Hhere.
           right. left. intros [Hnotin _]. apply Hnotin.
           rewrite <- Hhere. apply list_elem_of_fmap_2. exact Hin.
        -- right. right. exists r0.
           split; [apply list_elem_of_further; exact Hin|exact Hseen].
    + intros [(r0 & Hin & Hb)|[Hd|(r0 & Hin & Hseen)]].
      * apply elem_of_cons in Hin as [->|Hin].
        -- destruct Hb as [Hb|Hb]; [contradiction|congruence].
        -- left. exists r0. split; assumption.
      * destruct (decide (fr_Target r ∈ fr_Target <$> rest)) as [Hdup|Hfresh].
        -- apply list_elem_of_fmap in Hdup as (r0 & Heq & Hin).
           right. right. exists r0. split; [exact Hin|].
           apply elem_of_union. left. apply elem_of_singleton. symmetry. exact Heq.
        -- right. left. intros Hnd. apply Hd. split; assumption.
      * apply elem_of_cons in Hin as [->|Hin]; [contradiction|].
        right. right. exists r0. split; [exact Hin|].
        apply elem_of_union. right. exact Hseen.
Qed.

Lemma cleanFoldoutTargets_spec base repos :
  cleanFoldoutTargets base repos <> None
  <-> (exists r, r ∈ repos /\ badTarget r) \/ ~ NoDup (fr_Target <$> repos).
Proof.
  unfold cleanFoldoutTargets. rewrite cleanFoldoutTargets_from_spec.
  split; [|tauto].
  intros [H|[H|(r & _ & Hr)]]; [tauto|tauto|].
  apply elem_of_empty in Hr. contradiction.
Qed.

End Foldout.

(** ** A small fleet: one organization target and one repository target

    [/w/acme] is the checkout of organization [acme] on provider [gitea];
    it holds the working copy [old], a directory that is no working copy and
    a plain file.  [/w/app] is the repository [beta/app] on provider
    [github]; its manifest names two foldouts, [beta/mobile-api] under [api]
    (cloned) and [beta/mobile-infra] with no target (not cloned).  Provider
    [gitea] leaves [sync.ff_only] unset; provider [github] sets it to
    false.  Listing [acme] succeeds and reports [old] as archived; listing
    [beta] fails. *)
Module Fleet.
Import repo.

Definition isOneOf (p : string) (l : list string) : bool :=
  existsb (String.eqb p) l.

Definition manifest : foldoutConfig :=
  mkFoldoutConfig [mkFoldoutRepo "beta/mobile-api" "api";
                   mkFoldoutRepo "beta/mobile-infra" ""].

Definition os : OS :=
  mkOS
    (fun p => if isOneOf p ["/w/acme"; "/w/acme/old"; "/w/acme/old/.git";
                            "/w/acme/scratch"; "/w/app"; "/w/app/.git";
                            "/w/app/api"; "/w/app/api/.git"]
              then StatDir
              else if isOneOf p ["/w/acme/notes.txt"; "/w/app/.tugboat.json"]
                   then StatFile else StatNotExist)
    (fun p => if String.eqb p "/w/acme"
              then ([mkDirEntry "notes.txt" false; mkDirEntry "old" true;
                     mkDirEntry "scratch" true], None)
              else ([], Some "not a directory"))
    (fun p => if String.eqb p "/w/app/.tugboat.json"
              then ReadData "manifest bytes" else ReadNotExist)
    (fun a b => a +:+ "/" +:+ b)
    (fun _ => Ok manifest).

(** Every working copy is clean and one commit behind; the foldout [api]
    cannot resolve its branch. *)
Definition git : Git :=
  mkGit
    (fun path args =>
       if String.eqb (hd "" args) "rev-parse" then
         if String.eqb path "/w/app/api" then Err "exit status 128"
         else Ok ("main" +:+ nl)
       else if String.eqb (hd "" args) "status" then Ok ""
       else if String.eqb (hd "" args) "rev-list"
            then Ok ("0" +:+ Scenario.tab +:+ "1" +:+ nl)
            else Err "exit status 129")
    (fun _ _ => None)
    (fun _ _ => ("", None))
    (fun _ _ => None).

Definition world : World := mkWorld os git 4%positive [].

Definition gitea : remote.Client :=
  remote.mkClient
    (fun org => if String.eqb org "acme"
                then Ok [remote.mkRepository 7 "old" "acme/old" "" "" "" ""
                           "main" false true false false]
                else Err "404")
    (fun _ _ => Ok None).

Definition github : remote.Client :=
  remote.mkClient (fun _ => Err "503") (fun _ _ => Ok None).

Definition t_acme : config.Target :=
  config.mkTarget "rideshare" "gitea" "acme" "" "/w/acme".

Definition t_app : config.Target :=
  config.mkTarget "mobile" "github" "beta" "app" "/w/app".

Definition noFF : config.ProviderOptions :=
  config.mkProviderOptions (config.mkCloneOptions "https")
                           (config.mkSyncOptions (Some false)).

Definition cfg : config.Config :=
  config.mkConfig 0
    {[ "gitea" := config.mkProvider "gitea" "https://gitea.acme.com" "token"
                    config.zeroProviderOptions;
       "github" := config.mkProvider "github" "https://api.github.com" "token"
                     noFF ]}
    [t_acme; t_app].

Definition manager : Manager :=
  mkManager {[ "gitea" := gitea; "github" := github ]} cfg.

(** The same fleet with the manifest missing. *)
Definition os_bare : OS :=
  mkOS (Stat os) (ReadDir os) (fun _ => ReadNotExist) (Join os) (Unmarshal os).

(** The same fleet with a manifest that has a malformed name. *)
Definition os_malformed : OS :=
  mkOS (Stat os) (ReadDir os) (ReadFile os) (Join os)
       (fun _ => Ok (mkFoldoutConfig [mkFoldoutRepo "beta/mobile-api" "api";
                                      mkFoldoutRepo "mobile-infra" "infra"])).

End Fleet.

Example loadFoldout_fleet :
  repo.loadFoldout Fleet.os "/w/app"
  = Ok (Some (repo.mkFoldoutConfig
                [repo.mkFoldoutRepo "beta/mobile-api" "api";
                 repo.mkFoldoutRepo "beta/mobile-infra" "mobile-infra"])).
Proof. vm_compute. reflexivity. Qed.

Example loadFoldout_bare : repo.loadFoldout Fleet.os_bare "/w/app" = Ok None.
Proof. reflexivity. Qed.

Example loadFoldout_malformed : is_ok (repo.loadFoldout Fleet.os_malformed "/w/app") = false.
Proof. reflexivity. Qed.

Section FoldoutClaims.
Import repo.

Definition manifestPath (os : OS) (path : string) : string :=
  Join os path ".tugboat.json".

(** C8, as the code has it.  Loading gives the distinguished "no manifest"
    result, without error, when the manifest file is absent.  When the file
    is read and decoded, a repo name that does not split into exactly two
    segments makes loading fail; when every name has two segments loading
    succeeds, and an entry without target directory gets the trailing
    segment of its repo name as target while the others keep theirs.
    Validation fails exactly when some entry's target directory is empty or
    contains the two characters [..] anywhere in it (whether or not they
    form a whole path segment), or when two entries of the manifest have the
    same target directory. *)
Theorem foldout_manifest os path :
  (ReadFile os (manifestPath os path) = ReadNotExist ->
   loadFoldout os path = Ok None)
  /\ (forall data fc,
        ReadFile os (manifestPath os path) = ReadData data ->
        Unmarshal os data = Ok fc ->
        ((exists r, r ∈ Repos fc /\ ~ twoSegments (fr_Name r)) ->
         exists e, loadFoldout os path = Err e)
        /\ (Forall (fun r => twoSegments (fr_Name r)) (Repos fc) ->
            exists fc', loadFoldout os path = Ok (Some fc')
                        /\ Forall2 defaulted (Repos fc) (Repos fc')))
  /\ (forall base repos,
        cleanFoldoutTargets base repos <> None
        <-> (exists r, r ∈ repos
                       /\ (fr_Target r = ""
                           \/ GoStrings.Contains (fr_Target r) ".." = true))
            \/ ~ NoDup (fr_Target <$> repos)).
Proof.
  unfold manifestPath. refine (conj _ (conj _ _)).
  - intros H. unfold loadFoldout. rewrite H. reflexivity.
  - intros data fc Hr Hu. unfold loadFoldout. rewrite Hr, Hu. split.
    + intros Hbad. destruct (defaultTargets_bad_name _ Hbad) as [e ->].
      exists e. reflexivity.
    + intros Hgood.
      destruct (defaultTargets_good_names _ Hgood) as (rs & -> & Hrs).
      eexists. split; [reflexivity|exact Hrs].
  - intros base repos. apply cleanFoldoutTargets_spec.
Qed.

(** The fleet's manifest absent, malformed and well formed, and a manifest
    with two entries under one target directory. *)
Lemma foldout_manifest_witness :
  loadFoldout Fleet.os_bare "/w/app" = Ok None
  /\ (exists e, loadFoldout Fleet.os_malformed "/w/app" = Err e)
  /\ (exists fc', loadFoldout Fleet.os "/w/app" = Ok (Some fc')
                  /\ Forall2 defaulted (Repos Fleet.manifest) (Repos fc'))
  /\ cleanFoldoutTargets "/w/app"
       [mkFoldoutRepo "beta/mobile-api" "api"; mkFoldoutRepo "beta/api" "api"]
     <> None.
Proof.
  refine (conj _ (conj _ (conj _ _))).
  - apply (proj1 (foldout_manifest Fleet.os_bare "/w/app")). reflexivity.
  - apply (proj1 (proj1 (proj2 (foldout_manifest Fleet.os_malformed "/w/app"))
                    "manifest bytes" _ eq_refl eq_refl)).
    exists (mkFoldoutRepo "mobile-infra" "infra").
    split; [apply list_elem_of_further, list_elem_of_here|].
    vm_compute. discriminate.
  - apply (proj2 (proj1 (proj2 (foldout_manifest Fleet.os "/w/app"))
                    "manifest bytes" _ eq_refl eq_refl)).
    repeat constructor.
  - apply (proj2 (proj2 (foldout_manifest Fleet.os "/w/app"))).
    right. intros Hnd. apply NoDup_cons in Hnd as [Hnotin _].
    apply Hnotin. apply list_elem_of_here.
Defined.

(** C8 as stated fails: validation refuses a target directory that is not
    empty, has no [..] path segment and duplicates nothing. *)
Lemma foldout_validation_counterexample :
  let repos := [mkFoldoutRepo "acme/notes" "v1..v2"] in
  cleanFoldoutTargets "/w/app" repos <> None
  /\ ~ (exists r, r ∈ repos
                  /\ (fr_Target r = "" \/ hasParentSegment (fr_Target r)))
  /\ NoDup (fr_Target <$> repos).
Proof.
  cbv zeta. refine (conj _ (conj _ _)).
  - vm_compute. discriminate.
  - intros (r & Hin & Hbad). apply list_elem_of_singleton in Hin. subst r.
    destruct Hbad as [Hbad|Hbad]; [discriminate Hbad|].
    unfold hasParentSegment in Hbad. cbn in Hbad.
    apply list_elem_of_singleton in Hbad. discriminate Hbad.
  - cbn. apply NoDup_singleton.
Qed.

End FoldoutClaims.

(** ** The bounded task runner *)
Section PoolCorrect.
Import pool.
Context {T R : Type}.
Variable fn : T -> R.

Abbreviation worker := (@worker T).
Abbreviation state := (@state T R).

(** Steps a worker still has to take: an idle worker exits; a busy one sends
    and then is idle. *)
Definition weight (w : worker) : nat :=
  match w with
  | Idle => 1
  | Busy _ => 3
  | Exited => 0
  end.

Fixpoint weights (ws : list worker) : nat :=
  match ws with
  | [] => 0
  | w :: ws' => weight w + weights ws'
  end.

(** The number of steps left in a state. *)
Definition measure (s : state) : nat :=
  4 * length (pending s) + 3 * length (jobs s)
  + (if jobs_closed s then 0 else 1)
  + weights (goroutines s) + length (results s)
  + (if results_closed s then 0 else 1).

(** The result a worker is about to send. *)
Definition flight (w : worker) : list R :=
  match w with
  | Busy x => [fn x]
  | _ => []
  end.

Fixpoint inFlight (ws : list worker) : list R :=
  match ws with
  | [] => []
  | w :: ws' => flight w ++ inFlight ws'
  end.

(** Every result of the run, produced or still to be produced. *)
Definition account (s : state) : list R :=
  out s ++ results s ++ inFlight (goroutines s)
  ++ (fn <$> jobs s) ++ (fn <$> pending s).

Lemma weights_insert (ws : list worker) (i : nat) (w w' : worker) :
  ws !! i = Some w ->
  (weights (<[i := w']> ws) + weight w = weights ws + weight w')%nat.
Proof.
  revert i. induction ws as [|a ws IH]; intros [|i] H; try discriminate.
  - cbn in H. injection H as ->. cbn. lia.
  - cbn in H. change (<[S i := w']> (a :: ws)) with (a :: <[i := w']> ws).
    cbn [weights]. specialize (IH i H). lia.
Qed.

Lemma inFlight_insert (ws : list worker) (i : nat) (w w' : worker) :
  ws !! i = Some w ->
  inFlight (<[i := w']> ws) ++ flight w ≡ₚ inFlight ws ++ flight w'.
Proof.
  revert i. induction ws as [|a ws IH]; intros [|i] H; try discriminate.
  - cbn in H. injection H as ->. cbn. solve_Permutation.
  - cbn in H. change (<[S i := w']> (a :: ws)) with (a :: <[i := w']> ws).
    cbn [inFlight]. rewrite <- !app_assoc. rewrite (IH i H). reflexivity.
Qed.

Lemma step_measure (a : action) (s s' : state) :
  step fn a s = Some s' -> measure s = S (measure s').
Proof.
  unfold measure. destruct a; cbn [step]; intros H.
  - destruct (pending s) as [|x xs]; [discriminate|].
    injection H as <-. cbn. rewrite length_app. cbn. lia.
  - destruct (pending s), (jobs_closed s); try discriminate.
    injection H as <-. cbn. lia.
  - destruct (goroutines s !! i) as [[| |]|] eqn:Hw; try discriminate.
    destruct (jobs s) as [|x q]; [discriminate|].
    injection H as <-. cbn.
    pose proof (weights_insert _ _ _ (Busy x) Hw) as Hi. cbn in Hi. lia.
  - destruct (goroutines s !! i) as [[|x|]|] eqn:Hw; try discriminate.
    injection H as <-. cbn. rewrite length_app. cbn.
    pose proof (weights_insert _ _ _ Idle Hw) as Hi. cbn in Hi. lia.
  - destruct (goroutines s !! i) as [[| |]|] eqn:Hw; try discriminate.
    destruct (jobs s) eqn:Hj; [|discriminate].
    destruct (jobs_closed s) eqn:Hc; [|discriminate].
    injection H as <-. cbn.
    pose proof (weights_insert _ _ _ Exited Hw) as Hi. cbn in Hi. lia.
  - destruct (jobs_closed s && all_exited (goroutines s) && negb (results_closed s))
      eqn:Hg; [|discriminate].
    injection H as <-. cbn.
    apply andb_prop in Hg as [_ Hg]. apply negb_true_iff in Hg. rewrite Hg. lia.
  - destruct (jobs_closed s) eqn:Hc; [|discriminate].
    destruct (results s) as [|r rs]; [discriminate|].
    injection H as <-. cbn. lia.
Qed.

Lemma step_account (a : action) (s s' : state) :
  step fn a s = Some s' -> account s' ≡ₚ account s.
Proof.
  unfold account. destruct a; cbn [step]; intros H.
  - destruct (pending s) as [|x xs]; [discriminate|].
    injection H as <-. cbn. rewrite fmap_app. cbn. solve_Permutation.
  - destruct (pending s), (jobs_closed s); try discriminate.
    injection H as <-. cbn. reflexivity.
  - destruct (goroutines s !! i) as [[| |]|] eqn:Hw; try discriminate.
    destruct (jobs s) as [|x q]; [discriminate|].
    injection H as <-. cbn.
    pose proof (inFlight_insert _ _ _ (Busy x) Hw) as Hi. cbn in Hi.
    rewrite app_nil_r in Hi. rewrite Hi. solve_Permutation.
  - destruct (goroutines s !! i) as [[|x|]|] eqn:Hw; try discriminate.
    injection H as <-. cbn.
    pose proof (inFlight_insert _ _ _ Idle Hw) as Hi. cbn in Hi.
    rewrite app_nil_r in Hi. rewrite <- Hi. solve_Permutation.
  - destruct (goroutines s !! i) as [[| |]|] eqn:Hw; try discriminate.
    destruct (jobs s) eqn:Hj; [|discriminate].
    destruct (jobs_closed s) eqn:Hc; [|discriminate].
    injection H as <-. cbn.
    pose proof (inFlight_insert _ _ _ Exited Hw) as Hi. cbn in Hi.
    rewrite !app_nil_r in Hi. rewrite Hi. reflexivity.
  - destruct (jobs_closed s && all_exited (goroutines s) && negb (results_closed s));
      [|discriminate].
    injection H as <-. reflexivity.
  - destruct (jobs_closed s) eqn:Hc; [|discriminate].
    destruct (results s) as [|r rs]; [discriminate|].
    injection H as <-. cbn. rewrite <- app_assoc. reflexivity.
Qed.

(** What holds of every state a run passes through, [w] being the number of
    workers started. *)
Record coherent (w : nat) (s : state) : Prop := mkCoherent {
  coh_workers : length (goroutines s) = w;
  coh_closed : jobs_closed s = true -> pending s = [];
  coh_exited : Exited ∈ goroutines s -> jobs s = [] /\ jobs_closed s = true;
  coh_results : results_closed s = true -> all_exited (goroutines s) = true
}.

Lemma all_exited_lookup (ws : list worker) (i : nat) (w : worker) :
  all_exited ws = true -> ws !! i = Some w -> w = Exited.
Proof.
  unfold all_exited. intros Ha Hi.
  apply list_elem_of_lookup_2, list_elem_of_In in Hi.
  pose proof (proj1 (forallb_forall _ _) Ha w Hi) as Hw.
  destruct w; [discriminate|discriminate|reflexivity].
Qed.

Lemma all_exited_insert (ws : list worker) (i : nat) :
  all_exited ws = true -> all_exited (<[i := Exited]> ws) = true.
Proof.
  unfold all_exited. revert i. induction ws as [|a ws IH]; intros i H; [exact H|].
  cbn in H. apply andb_prop in H as [Ha Hws].
  destruct i as [|i].
  - cbn. exact Hws.
  - change (<[S i := Exited]> (a :: ws)) with (a :: <[i := Exited]> ws).
    cbn. rewrite Ha. apply IH. exact Hws.
Qed.

Lemma all_exited_intro (ws : list worker) :
  (forall i w, ws !! i = Some w -> w = Exited) -> all_exited ws = true.
Proof.
  intros H. unfold all_exited. apply forallb_forall. intros w Hw.
  apply list_elem_of_In, list_elem_of_lookup_1 in Hw as [i Hi].
  rewrite (H i w Hi). reflexivity.
Qed.

Lemma elem_of_insert_inv (ws : list worker) (i : nat) (v y : worker) :
  y ∈ <[i := v]> ws -> y = v \/ y ∈ ws.
Proof.
  intros Hy. apply list_elem_of_lookup_1 in Hy as [j Hj].
  apply list_lookup_insert_Some in Hj as [(_ & -> & _)|(_ & Hj)].
  - left. reflexivity.
  - right. apply list_elem_of_lookup_2 in Hj. exact Hj.
Qed.

Lemma step_coherent (w : nat) (a : action) (s s' : state) :
  coherent w s -> step fn a s = Some s' -> coherent w s'.
Proof.
  intros [Hw Hc He Hr]. destruct a; cbn [step]; intros H.
  - destruct (pending s) as [|x xs] eqn:Hp; [discriminate|].
    injection H as <-. constructor; cbn.
    + exact Hw.
    + intros Hcl. specialize (Hc Hcl). discriminate Hc.
    + intros Hex. destruct (He Hex) as [_ Hcl]. specialize (Hc Hcl). discriminate Hc.
    + exact Hr.
  - destruct (pending s) eqn:Hp; [|discriminate].
    destruct (jobs_closed s) eqn:Hcl; [discriminate|].
    injection H as <-. constructor; cbn.
    + exact Hw.
    + reflexivity.
    + intros Hex. destruct (He Hex) as [_ Hcl']. discriminate Hcl'.
    + exact Hr.
  - destruct (goroutines s !! i) as [[| |]|] eqn:Hi; try discriminate.
    destruct (jobs s) as [|x q] eqn:Hj; [discriminate|].
    injection H as <-. constructor; cbn.
    + rewrite length_insert. exact Hw.
    + exact Hc.
    + intros Hex. apply elem_of_insert_inv in Hex as [Hex|Hex]; [discriminate|].
      destruct (He Hex) as [Hnil _]. discriminate Hnil.
    + intros Hrc. specialize (Hr Hrc).
      pose proof (all_exited_lookup _ _ _ Hr Hi) as Hx. discriminate Hx.
  - destruct (goroutines s !! i) as [[|x|]|] eqn:Hi; try discriminate.
    injection H as <-. constructor; cbn.
    + rewrite length_insert. exact Hw.
    + exact Hc.
    + intros Hex. apply elem_of_insert_inv in Hex as [Hex|Hex]; [discriminate|].
      exact (He Hex).
    + intros Hrc. specialize (Hr Hrc).
      pose proof (all_exited_lookup _ _ _ Hr Hi) as Hx. discriminate Hx.
  - destruct (goroutines s !! i) as [[| |]|] eqn:Hi; try discriminate.
    destruct (jobs s) eqn:Hj; [|discriminate].
    destruct (jobs_closed s) eqn:Hcl; [|discriminate].
    injection H as <-. constructor; cbn.
    + rewrite length_insert. exact Hw.
    + exact Hc.
    + intros _. split; reflexivity.
    + intros Hrc. apply all_exited_insert. exact (Hr Hrc).
  - destruct (jobs_closed s && all_exited (goroutines s) && negb (results_closed s))
      eqn:Hg; [|discriminate].
    injection H as <-. constructor; cbn; try assumption.
    intros _. apply andb_prop in Hg as [Hg _]. apply andb_prop in Hg as [_ Hg].
    exact Hg.
  - destruct (jobs_closed s) eqn:Hcl; [|discriminate].
    destruct (results s) as [|r rs]; [discriminate|].
    injection H as <-. constructor; cbn; assumption.
Qed.

Lemma enabled_spec (s : state) (a : action) :
  a ∈ enabled fn s <-> is_Some (step fn a s) /\ a ∈ candidates s.
Proof.
  unfold enabled.
  apply (list_elem_of_filter (fun a => is_Some (step fn a s))).
Qed.

Lemma candidate_worker (s : state) (i : nat) :
  (i < length (goroutines s))%nat ->
  Recv i ∈ candidates s /\ Send i ∈ candidates s /\ Exit i ∈ candidates s.
Proof.
  intros Hi. unfold candidates.
  assert (Hin : forall a, In a [Recv i; Send i; Exit i] ->
                          a ∈ [MainSend; MainClose; CloseResults; Collect]
                              ++ flat_map (fun i => [Recv i; Send i; Exit i])
                                          (seq 0 (length (goroutines s)))).
  { intros a Ha. apply elem_of_app. right. apply list_elem_of_In.
    apply in_flat_map. exists i. split; [apply in_seq; lia|exact Ha]. }
  repeat split; apply Hin; cbn; auto.
Qed.

Lemma stuck_no_step (s : state) (a : action) :
  enabled fn s = [] -> a ∈ candidates s -> step fn a s = None.
Proof.
  intros He Ha. destruct (step fn a s) as [s'|] eqn:Hs; [|reflexivity].
  assert (Hin : a ∈ enabled fn s).
  { apply enabled_spec. split; [rewrite Hs; eexists; reflexivity|exact Ha]. }
  rewrite He in Hin. apply elem_of_nil in Hin. contradiction.
Qed.

(** No deadlock: a coherent state with at least one worker in which no
    action is enabled is one in which [Run] returns. *)
Lemma stuck_finished (w : nat) (s : state) :
  coherent w s -> (0 < w)%nat -> enabled fn s = [] -> finished s.
Proof.
  intros [Hw Hc He Hr] Hpos Hstuck.
  assert (Hbase : forall a, In a [MainSend; MainClose; CloseResults; Collect] ->
                            step fn a s = None).
  { intros a Ha. apply stuck_no_step; [exact Hstuck|].
    unfold candidates. apply elem_of_app. left. apply list_elem_of_In. exact Ha. }
  assert (Hp : pending s = []).
  { pose proof (Hbase MainSend ltac:(cbn; auto)) as H. cbn in H.
    destruct (pending s); [reflexivity|discriminate]. }
  assert (Hcl : jobs_closed s = true).
  { pose proof (Hbase MainClose ltac:(cbn; auto)) as H. cbn in H.
    rewrite Hp in H. destruct (jobs_closed s); [reflexivity|discriminate]. }
  assert (Hres : results s = []).
  { pose proof (Hbase Collect ltac:(cbn; auto)) as H. cbn in H.
    rewrite Hcl in H. destruct (results s); [reflexivity|discriminate]. }
  assert (Hall : all_exited (goroutines s) = true).
  { apply all_exited_intro. intros i wk Hi.
    assert (Hlt : (i < length (goroutines s))%nat)
      by (apply lookup_lt_Some in Hi; exact Hi).
    destruct (candidate_worker s i Hlt) as (Hrecv & Hsend & Hexit).
    pose proof (stuck_no_step s _ Hstuck Hrecv) as H1.
    pose proof (stuck_no_step s _ Hstuck Hsend) as H2.
    pose proof (stuck_no_step s _ Hstuck Hexit) as H3.
    cbn in H1, H2, H3. rewrite Hi in H1, H2, H3. rewrite Hcl in H3.
    destruct wk; [|discriminate H2|reflexivity].
    destruct (jobs s); discriminate. }
  assert (Hjobs : jobs s = []).
  { destruct (goroutines s) as [|wk ws] eqn:Hg; [cbn in Hw; lia|].
    pose proof (all_exited_lookup (wk :: ws) 0 wk Hall eq_refl) as ->.
    apply He. apply list_elem_of_here. }
  assert (Hrc : results_closed s = true).
  { pose proof (Hbase CloseResults ltac:(cbn; auto)) as H. cbn in H.
    rewrite Hcl, Hall in H. destruct (results_closed s); [reflexivity|discriminate]. }
  unfold finished. auto 10.
Qed.

Lemma exec_invariant (P : state -> Prop) :
  (forall a s s', P s -> step fn a s = Some s' -> P s') ->
  forall fuel sched s, P s -> P (exec fn fuel sched s).
Proof.
  intros Hstep. induction fuel as [|fuel IH]; intros sched s Hs; [exact Hs|].
  cbn [exec]. destruct (enabled fn s) as [|a0 en]; [exact Hs|].
  destruct (step fn _ s) as [s'|] eqn:Hs'; [|exact Hs].
  apply IH. exact (Hstep _ _ _ Hs Hs').
Qed.

(** Every run is over within [measure] steps, whatever the schedule. *)
Lemma exec_stuck (fuel : nat) (sched : list nat) (s : state) :
  (measure s <= fuel)%nat -> enabled fn (exec fn fuel sched s) = [].
Proof.
  revert sched s. induction fuel as [|fuel IH]; intros sched s Hm.
  - cbn [exec]. destruct (enabled fn s) as [|a en] eqn:He; [reflexivity|].
    assert (Ha : a ∈ enabled fn s) by (rewrite He; apply list_elem_of_here).
    apply enabled_spec in Ha as [[s' Hs'] _].
    apply step_measure in Hs'. lia.
  - cbn [exec]. destruct (enabled fn s) as [|a0 en] eqn:He; [exact He|].
    set (a := nth (hd 0%nat sched `mod` length (a0 :: en)) (a0 :: en) a0).
    assert (Ha : a ∈ enabled fn s).
    { rewrite He. apply list_elem_of_In. apply nth_In.
      apply Nat.mod_upper_bound. cbn. lia. }
    apply enabled_spec in Ha as [[s' Hs'] _]. rewrite Hs'.
    apply IH. apply step_measure in Hs'. lia.
Qed.

End PoolCorrect.

Section PoolClaims.
Import pool.
Context {T R : Type}.
Variable GOMAXPROCS : positive.
Variable fn : T -> R.

(** A state reached from another by some interleaving of the goroutines. *)
Inductive reaches : @state T R -> @state T R -> Prop :=
| reaches_here s : reaches s s
| reaches_step s a s' s'' :
    step fn a s = Some s' -> reaches s' s'' -> reaches s s''.

Lemma weights_replicate (n : nat) : weights (replicate n (@Idle T)) = n.
Proof. induction n as [|n IH]; cbn; [reflexivity|rewrite IH; reflexivity]. Qed.

Lemma inFlight_replicate (n : nat) : inFlight fn (replicate n (@Idle T)) = [].
Proof. induction n as [|n IH]; cbn; [reflexivity|exact IH]. Qed.

Lemma inFlight_all_exited (ws : list (@worker T)) :
  all_exited ws = true -> inFlight fn ws = [].
Proof.
  induction ws as [|w ws IH]; [reflexivity|].
  cbn. intros H. apply andb_prop in H as [Hw Hws].
  destruct w; try discriminate. cbn. apply IH. exact Hws.
Qed.

Lemma init_measure (items : list T) (w : Z) :
  measure (@init T R items w) = steps_bound (length items) (Z.to_nat w).
Proof.
  unfold measure, init, steps_bound. cbn. rewrite weights_replicate. lia.
Qed.

Lemma init_coherent (items : list T) (w : Z) :
  coherent (Z.to_nat w) (@init T R items w).
Proof.
  constructor; cbn.
  - apply length_replicate.
  - discriminate.
  - intros H. apply elem_of_replicate in H as [H _]. discriminate H.
  - discriminate.
Qed.

Lemma init_account (items : list T) (w : Z) :
  account fn (@init T R items w) = fn <$> items.
Proof. unfold account, init. cbn. rewrite inFlight_replicate. reflexivity. Qed.

Lemma finished_account (s : @state T R) : finished s -> account fn s = out s.
Proof.
  intros (Hp & Hj & _ & Ha & Hr & _). unfold account.
  rewrite Hp, Hj, Hr, (inFlight_all_exited _ Ha). cbn.
  rewrite app_nil_r. reflexivity.
Qed.

Lemma workerCount_bounds (n workers : Z) :
  1 <= n -> 1 <= workerCount GOMAXPROCS n workers <= n.
Proof.
  intros Hn. unfold workerCount.
  destruct (workers <=? 0) eqn:Hw.
  - destruct (Z.pos GOMAXPROCS >? n) eqn:Hg; lia.
  - apply Z.leb_gt in Hw. destruct (workers >? n) eqn:Hg; lia.
Qed.

(** Whatever the interleaving, a run that can go no further has returned
    every result; and no run goes on for ever, each step using up one unit
    of [measure]. *)
Lemma every_interleaving_complete (items : list T) (w : Z) (s : @state T R) :
  1 <= w ->
  reaches (@init T R items w) s ->
  (enabled fn s = [] -> finished s /\ out s ≡ₚ fn <$> items)
  /\ (measure s <= steps_bound (length items) (Z.to_nat w))%nat.
Proof.
  intros Hw Hreach.
  assert (Hgen : forall s0 : @state T R,
             reaches s0 s ->
             coherent (Z.to_nat w) s0 ->
             coherent (Z.to_nat w) s /\ account fn s ≡ₚ account fn s0
             /\ (measure s <= measure s0)%nat).
  { clear Hreach. intros s0 Hr. induction Hr as [s0|s0 a s1 s2 Hstep Hr IH];
      intros Hc; [split; [exact Hc|split; [reflexivity|lia]]|].
    destruct (IH (step_coherent fn _ _ _ _ Hc Hstep)) as (Hc2 & Ha & Hm).
    split; [exact Hc2|]. split.
    - rewrite Ha. apply (step_account fn _ _ _ Hstep).
    - apply (step_measure fn) in Hstep. lia. }
  destruct (Hgen _ Hreach (init_coherent items w)) as (Hc & Ha & Hm).
  rewrite init_measure in Hm. split; [|exact Hm].
  intros Hstuck.
  assert (Hfin : finished s) by (apply (stuck_finished fn (Z.to_nat w)); [exact Hc|lia|exact Hstuck]).
  split; [exact Hfin|].
  rewrite <- (finished_account s Hfin), Ha, init_account. reflexivity.
Qed.

Lemma Run_state_finished (sched : list nat) (items : list T) (workers : Z)
    (s : @state T R) :
  Run_state GOMAXPROCS sched items workers fn = Some s ->
  finished s /\ out s ≡ₚ fn <$> items
  /\ length (goroutines s)
     = Z.to_nat (workerCount GOMAXPROCS (Z.of_nat (length items)) workers).
Proof.
  unfold Run_state. destruct (length items =? 0)%nat eqn:Hn; [discriminate|].
  apply Nat.eqb_neq in Hn. intros H. injection H as <-.
  set (w := workerCount GOMAXPROCS (Z.of_nat (length items)) workers).
  assert (Hw : 1 <= w <= Z.of_nat (length items))
    by (apply workerCount_bounds; lia).
  set (fuel := steps_bound (length items) (Z.to_nat w)).
  assert (Hstuck : enabled fn (exec fn fuel sched (@init T R items w)) = []).
  { apply exec_stuck. rewrite init_measure. reflexivity. }
  assert (Hc : coherent (Z.to_nat w) (exec fn fuel sched (@init T R items w))).
  { apply (exec_invariant fn (coherent (Z.to_nat w))).
    - intros a s s' Hs Hstep. exact (step_coherent fn _ _ _ _ Hs Hstep).
    - apply init_coherent. }
  assert (Ha : account fn (exec fn fuel sched (@init T R items w)) ≡ₚ fn <$> items).
  { apply (exec_invariant fn (fun s => account fn s ≡ₚ fn <$> items)).
    - intros a s s' Hs Hstep. rewrite (step_account fn _ _ _ Hstep). exact Hs.
    - rewrite init_account. reflexivity. }
  assert (Hfin : finished (exec fn fuel sched (@init T R items w)))
    by (apply (stuck_finished fn (Z.to_nat w)); [exact Hc|lia|exact Hstuck]).
  split; [exact Hfin|]. split.
  - rewrite <- (finished_account _ Hfin). exact Ha.
  - apply (coh_workers _ _ Hc).
Qed.

Lemma Run_Permutation (sched : list nat) (items : list T) (workers : Z) :
  Run GOMAXPROCS sched items workers fn ≡ₚ fn <$> items.
Proof.
  unfold Run.
  destruct (Run_state GOMAXPROCS sched items workers fn) as [s|] eqn:Hs.
  - apply (Run_state_finished _ _ _ _ Hs).
  - unfold Run_state in Hs.
    destruct (length items =? 0)%nat eqn:Hn; [|discriminate].
    apply Nat.eqb_eq in Hn. destruct items; [reflexivity|discriminate].
Qed.

(** C9.  For every input list, worker count and function, under every
    schedule of the goroutines: [Run] returns a rearrangement of the results
    [fn x], one for each input [x], hence exactly as many results as inputs;
    it returns only once every worker is gone and both channels are drained;
    for a non-empty input it starts [workerCount] workers, which is the
    number of processing units when the count given is zero or negative, and
    in either case is clamped to the number of inputs; for an empty input it
    returns the empty result without starting any worker. *)
Theorem Run_returns_every_result (sched : list nat) (items : list T) (workers : Z) :
  let n := Z.of_nat (length items) in
  Run GOMAXPROCS sched items workers fn ≡ₚ fn <$> items
  /\ length (Run GOMAXPROCS sched items workers fn) = length items
  /\ (forall s, Run_state GOMAXPROCS sched items workers fn = Some s -> finished s)
  /\ (items <> [] ->
      spawned GOMAXPROCS sched items workers fn
      = Z.to_nat (workerCount GOMAXPROCS n workers))
  /\ (workers <= 0 ->
      workerCount GOMAXPROCS n workers = Z.min (Z.pos GOMAXPROCS) n)
  /\ (0 < workers -> workerCount GOMAXPROCS n workers = Z.min workers n)
  /\ (items = [] ->
      Run GOMAXPROCS sched items workers fn = []
      /\ spawned GOMAXPROCS sched items workers fn = 0%nat).
Proof.
  cbv zeta.
  pose proof (Run_Permutation sched items workers) as Hperm.
  refine (conj Hperm (conj _ (conj _ (conj _ (conj _ (conj _ _)))))).
  - rewrite Hperm. apply length_fmap.
  - intros s Hs. apply (Run_state_finished _ _ _ _ Hs).
  - intros Hne. unfold spawned.
    destruct (Run_state GOMAXPROCS sched items workers fn) as [s|] eqn:Hs.
    + apply (Run_state_finished _ _ _ _ Hs).
    + unfold Run_state in Hs. destruct items; [contradiction|discriminate].
  - intros Hw. unfold workerCount. apply Z.leb_le in Hw. rewrite Hw.
    destruct (Z.pos GOMAXPROCS >? Z.of_nat (length items)) eqn:Hg; lia.
  - intros Hw. unfold workerCount. apply Z.leb_gt in Hw. rewrite Hw.
    destruct (workers >? Z.of_nat (length items)) eqn:Hg; lia.
  - intros ->. split; reflexivity.
Qed.

End PoolClaims.

(** Three inputs under a schedule that lets the second worker finish
    first; the default worker count clamped to the three inputs; no input. *)
Lemma Run_returns_every_result_witness :
  pool.Run 1%positive [0; 0; 1; 2; 2]%nat [1; 2; 3] 2 (fun x => x * 10)
    ≡ₚ [10; 20; 30]
  /\ pool.spawned 1%positive [0; 0; 1; 2; 2]%nat [1; 2; 3] 2 (fun x => x * 10) = 2%nat
  /\ pool.spawned 8%positive [] [1; 2; 3] 0 (fun x => x * 10) = 3%nat
  /\ pool.Run 8%positive [] (@nil Z) 4 (fun x => x * 10) = [].
Proof.
  refine (conj _ (conj _ (conj _ _))).
  - apply (proj1 (Run_returns_every_result 1%positive (fun x => x * 10)
                    [0; 0; 1; 2; 2]%nat [1; 2; 3] 2)).
  - apply (proj1 (proj2 (proj2 (proj2
             (Run_returns_every_result 1%positive (fun x => x * 10)
                [0; 0; 1; 2; 2]%nat [1; 2; 3] 2))))).
    discriminate.
  - apply (proj1 (proj2 (proj2 (proj2
             (Run_returns_every_result 8%positive (fun x => x * 10)
                [] [1; 2; 3] 0))))).
    discriminate.
  - apply (proj2 (proj2 (proj2 (proj2 (proj2 (proj2
             (Run_returns_every_result 8%positive (fun x => x * 10)
                [] (@nil Z) 4))))))).
    reflexivity.
Defined.

(** ** The status run and the remote index *)
Section StatusRun.
Import repo.

Lemma afterFetch_remote_flags git path st :
  Archived (afterFetch git path st) = Archived st
  /\ Orphan (afterFetch git path st) = Orphan st.
Proof.
  unfold afterFetch.
  destruct (gitOutput git path statusArgs) as [d|msg]; [|split; reflexivity].
  cbn zeta.
  match goal with
  | |- Archived (if 0 <? Behind ?x then _ else _) = _ /\ _ => set (s1 := x)
  end.
  assert (H : Archived s1 = Archived st /\ Orphan s1 = Orphan st).
  { subst s1. destruct (gitOutput git path _) as [revList|msg];
      [|split; reflexivity].
    destruct (scanCounts_fields revList
                (setDirty st (negb (String.eqb (GoStrings.TrimSpace d) ""))))
      as (_ & _ & _ & _ & _ & _ & _ & _ & Ha & Ho & _).
    split; [exact Ha|exact Ho]. }
  destruct (0 <? Behind s1); exact H.
Qed.

(** A status leaves the status engine with both remote flags unset. *)
Lemma statusOf_unannotated git job :
  Archived (statusOf git job) = false /\ Orphan (statusOf git job) = false.
Proof.
  unfold statusOf. rewrite getRepoStatus_phases. cbv zeta.
  destruct (gitOutput git (job_path job) revParseArgs) as [branch|e];
    [|split; reflexivity].
  destruct (afterFetch_remote_flags git (job_path job)
              (afterBranch git (job_path job)
                 (mkRepoStatus (job_path job) (job_target job) (job_provider job)
                    (job_org job) (job_name job) "" false 0 0 false false false "" "")
                 branch)) as [-> ->].
  unfold afterBranch. cbv zeta.
  destruct (negb (String.eqb (gitFetchWithStderr git (job_path job)) ""));
    split; reflexivity.
Qed.

(** The listing of organization [k] fails, or its provider has no client. *)
Definition listingFails (m : Manager) (k : orgKey) : Prop :=
  match providers m !! provider k with
  | None => True
  | Some client => exists msg, remote.ListOrgRepos client (org k) = Err msg
  end.

(** One failed listing makes the whole index fail. *)
Lemma buildRepoIndex_from_fails m orgs index k :
  k ∈ orgs -> listingFails m k ->
  exists e, buildRepoIndex_from m orgs index = Err e.
Proof.
  revert index. induction orgs as [|k0 rest IH]; intros index Hin Hfail.
  - apply elem_of_nil in Hin. contradiction.
  - cbn [buildRepoIndex_from].
    destruct (providers m !! provider k0) as [client|] eqn:Hc;
      [|eexists; reflexivity].
    destruct (remote.ListOrgRepos client (org k0)) as [repos|msg] eqn:Hl;
      [|eexists; reflexivity].
    apply elem_of_cons in Hin as [->|Hin].
    + unfold listingFails in Hfail. rewrite Hc in Hfail.
      destruct Hfail as [msg Hmsg]. congruence.
    + apply IH; assumption.
Qed.

Lemma annotate_fails m keys statuses k :
  k ∈ keys -> listingFails m k -> annotate m keys statuses = statuses.
Proof.
  intros Hin Hfail. unfold annotate, buildRepoIndex.
  destruct (buildRepoIndex_from_fails m keys ∅ k Hin Hfail) as [e ->].
  destruct (0 <? length keys)%nat; reflexivity.
Qed.

Lemma sortStatuses_Permutation statuses : sortStatuses statuses ≡ₚ statuses.
Proof. unfold sortStatuses. apply merge_sort_Permutation. Qed.

(** C5, as the code has it.  When the listing of any one organization
    touched by the targets fails, the index is abandoned and the annotation
    pass is skipped for every status, whatever its (provider, organization)
    pair: the run still succeeds and returns, for every expanded repository,
    the status computed locally, with archived and orphan left false. *)
Theorem listing_failure_skips_annotation m w targets workers e0 k :
  expandTargets (w_os w) targets (mkExpansion [] [] ∅) = Ok e0 ->
  k ∈ orgKeys e0 ->
  listingFails m k ->
  exists statuses,
    getAllStatuses m w targets workers = Ok statuses
    /\ statuses ≡ₚ statusOf (w_git w) <$> jobs e0
    /\ Forall (fun s => Archived s = false /\ Orphan s = false) statuses.
Proof.
  intros He Hk Hfail. unfold getAllStatuses. rewrite He.
  destruct (length (jobs e0) =? 0)%nat eqn:Hn.
  - apply Nat.eqb_eq in Hn. destruct (jobs e0); [|discriminate].
    exists []. split; [reflexivity|]. split; [reflexivity|constructor].
  - eexists. split; [reflexivity|].
    rewrite (annotate_fails m _ _ k Hk Hfail).
    assert (Hp : sortStatuses
                   (pool.Run (w_procs w) (w_sched w) (jobs e0) workers
                      (statusOf (w_git w)))
                 ≡ₚ statusOf (w_git w) <$> jobs e0).
    { rewrite sortStatuses_Permutation.
      apply Run_Permutation. }
    split; [exact Hp|].
    rewrite Hp. apply Forall_fmap. apply Forall_forall.
    intros job _. apply statusOf_unannotated.
Qed.

End StatusRun.

(** The status run over the fleet: the listing of [beta] fails, and no
    status is annotated, not even that of [old], which the listing of its
    own organization reports as archived. *)
Definition fleet_statuses : list repo.RepoStatus :=
  [repo.mkRepoStatus "/w/app" "mobile" "github" "beta" "app" "main"
     false 0 1 true false false "" "";
   repo.mkRepoStatus "/w/app/api" "mobile" "github" "beta" "mobile-api" ""
     false 0 0 false false false "" "getting branch: exit status 128";
   repo.mkRepoStatus "/w/acme/old" "rideshare" "gitea" "acme" "old" "main"
     false 0 1 true false false "" ""].

Example getAllStatuses_fleet :
  repo.getAllStatuses Fleet.manager Fleet.world [Fleet.t_acme; Fleet.t_app] 0
  = Ok fleet_statuses.
Proof. vm_compute. reflexivity. Qed.

(** On the fleet, where the listing of [beta] fails. *)
Lemma listing_failure_skips_annotation_witness :
  exists statuses,
    repo.getAllStatuses Fleet.manager Fleet.world [Fleet.t_acme; Fleet.t_app] 0
    = Ok statuses
    /\ length statuses = 3%nat
    /\ Forall (fun s => repo.Archived s = false /\ repo.Orphan s = false) statuses.
Proof.
  destruct (listing_failure_skips_annotation Fleet.manager Fleet.world
              [Fleet.t_acme; Fleet.t_app] 0
              (repo.mkExpansion
                 [repo.mkStatusJob "/w/acme/old" "rideshare" "old" "acme" "gitea";
                  repo.mkStatusJob "/w/app" "mobile" "app" "beta" "github";
                  repo.mkStatusJob "/w/app/api" "mobile" "mobile-api" "beta" "github"]
                 [repo.mkOrgKey "gitea" "acme"; repo.mkOrgKey "github" "beta"]
                 {[ "github|beta"; "gitea|acme" ]})
              (repo.mkOrgKey "github" "beta"))
    as (statuses & Hrun & Hperm & Hflags).
  - vm_compute. reflexivity.
  - apply list_elem_of_further, list_elem_of_here.
  - unfold listingFails. vm_compute. exists "503". reflexivity.
  - exists statuses. split; [exact Hrun|]. split; [|exact Hflags].
    rewrite Hperm. reflexivity.
Defined.

(** C5 as stated fails: the listing of [beta] fails, that of [acme]
    succeeds and reports [old] as archived, and the run returns the status
    of [acme]'s [old] unannotated, where the annotation pass over [acme]'s
    listing alone marks it archived. *)
Lemma listing_failure_counterexample :
  let s_old := repo.mkRepoStatus "/w/acme/old" "rideshare" "gitea" "acme" "old"
                 "main" false 0 1 true false false "" "" in
  remote.ListOrgRepos Fleet.github "beta" = Err "503"
  /\ (exists statuses,
        repo.getAllStatuses Fleet.manager Fleet.world [Fleet.t_acme; Fleet.t_app] 0
        = Ok statuses
        /\ s_old ∈ statuses)
  /\ (exists index,
        repo.buildRepoIndex Fleet.manager [repo.mkOrgKey "gitea" "acme"] = Ok index
        /\ repo.Archived (repo.markRemote index s_old) = true)
  /\ repo.Archived s_old = false.
Proof.
  cbv zeta. refine (conj eq_refl (conj _ (conj _ eq_refl))).
  - exists fleet_statuses. split; [apply getAllStatuses_fleet|].
    unfold fleet_statuses. do 2 apply list_elem_of_further. apply list_elem_of_here.
  - eexists. split; [reflexivity|]. vm_compute. reflexivity.
Qed.

(** ** The pull run *)
Section PullRun.
Import repo.

(** The fast-forward-only flag of the provider of target [t]. *)
Definition ffOnlyOf (cfg : config.Config) (t : config.Target) : bool :=
  config.GetFFOnly (config.Sync (config.providerOptions cfg (config.ProviderName t))).

(** The pull jobs for working copies [paths] of target [t]. *)
Definition jobsAt (cfg : config.Config) (t : config.Target) (paths : list string)
    : list pullJob :=
  (fun p => mkPullJob p (ffOnlyOf cfg t)) <$> paths.

Lemma omap_pointwise {A B} (f g : A -> option B) (l : list A) :
  (forall x, f x = g x) -> omap f l = omap g l.
Proof.
  intros H. induction l as [|x l IH]; [reflexivity|].
  cbn. rewrite H, IH. reflexivity.
Qed.

Lemma omap_jobsAt {A} cfg t (c : A -> bool) (p : A -> string) (l : list A) :
  omap (fun x => if c x then Some (mkPullJob (p x) (ffOnlyOf cfg t)) else None) l
  = jobsAt cfg t (omap (fun x => if c x then Some (p x) else None) l).
Proof.
  unfold jobsAt. induction l as [|x l IH]; [reflexivity|].
  cbn. destruct (c x); cbn; rewrite IH; reflexivity.
Qed.

Lemma pullTarget_spec os cfg t js js' :
  pullTarget os cfg t js = Ok js' ->
  exists paths, js' = js ++ jobsAt cfg t paths.
Proof.
  unfold pullTarget. fold (ffOnlyOf cfg t).
  destruct (String.eqb (config.Repo t) "").
  - intros H. injection H as <-. eexists. f_equal.
    rewrite <- (omap_jobsAt cfg t
                  (fun e => entry_IsDir e
                            && isGitRepo os (Join os (config.Path t) (entry_Name e)))
                  (fun e => Join os (config.Path t) (entry_Name e))).
    apply omap_pointwise. intros e. cbv zeta.
    destruct (entry_IsDir e); [|reflexivity]. cbn [negb andb].
    destruct (isGitRepo os _); reflexivity.
  - destruct (loadFoldout os (config.Path t)) as [[fc|]|e]; [| |discriminate].
    + intros H. injection H as <-.
      exists ((if isGitRepo os (config.Path t) then [config.Path t] else [])
              ++ omap (fun fr =>
                         if isGitRepo os (Join os (config.Path t) (fr_Target fr))
                         then Some (Join os (config.Path t) (fr_Target fr))
                         else None)
                      (Repos fc)).
      unfold jobsAt at 1. rewrite fmap_app.
      change (omap _ (Repos fc))
        with (omap (fun fr =>
                      if isGitRepo os (Join os (config.Path t) (fr_Target fr))
                      then Some (mkPullJob (Join os (config.Path t) (fr_Target fr))
                                           (ffOnlyOf cfg t))
                      else None)
                   (Repos fc)) at 1.
      rewrite (omap_jobsAt cfg t
                 (fun fr => isGitRepo os (Join os (config.Path t) (fr_Target fr)))
                 (fun fr => Join os (config.Path t) (fr_Target fr))).
      unfold jobsAt.
      destruct (isGitRepo os (config.Path t)); cbn;
        rewrite <- ?app_assoc; reflexivity.
    + intros H. injection H as <-.
      exists (if isGitRepo os (config.Path t) then [config.Path t] else []).
      destruct (isGitRepo os (config.Path t)); cbn;
        rewrite ?app_nil_r; reflexivity.
Qed.

Lemma pullJobs_spec os cfg targets js0 js :
  pullJobs os cfg targets js0 = Ok js ->
  exists groups,
    length groups = length targets
    /\ js = js0 ++ concat (zip_with (jobsAt cfg) targets groups).
Proof.
  revert js0. induction targets as [|t rest IH]; intros js0 H.
  - cbn in H. injection H as <-. exists []. split; [reflexivity|].
    cbn. rewrite app_nil_r. reflexivity.
  - cbn [pullJobs] in H.
    destruct (pullTarget os cfg t js0) as [js1|e] eqn:Ht; [|discriminate].
    apply pullTarget_spec in Ht as [paths ->].
    apply IH in H as (groups & Hlen & ->).
    exists (paths :: groups). split; [cbn; rewrite Hlen; reflexivity|].
    cbn. rewrite <- app_assoc. reflexivity.
Qed.

Lemma reportPull_ops st r : ops (reportPull st r) = ops st.
Proof. unfold reportPull. destruct (String.eqb (status r) "cloned"); reflexivity. Qed.

Lemma fold_reportPull_ops rs st : ops (fold_left reportPull rs st) = ops st.
Proof.
  revert st. induction rs as [|r rs IH]; intros st; [reflexivity|].
  cbn. rewrite IH. apply reportPull_ops.
Qed.

Lemma pullOne_call git j :
  pullOne git j
  = (pullCall (pj_path j) (pj_ffOnly j),
     match pullAnswer git (pj_path j) (pj_ffOnly j) with
     | Some e => mkCloneResult (pj_path j) "error" (Some e)
     | None => mkCloneResult (pj_path j) "cloned" None
     end).
Proof. unfold pullOne. rewrite gitPull_call. reflexivity. Qed.

(** C6, as the code has it.  A pull run computes no status, so a
    repository whose status would carry a fatal error is not skipped: the
    run makes one [git pull] for each pull job it builds from the selected
    targets, in the path of the job and with [--ff-only] exactly when the
    job's flag is set, and makes no other; its outcome depends on [git]
    through the answers to those pulls alone.  The pull jobs are, target by
    target, jobs that carry the fast-forward-only flag of the provider of
    that target, and that flag is true when the option is unset. *)
Theorem pull_decision m w targetNames workers targets js :
  targetsFor m targetNames = Ok targets ->
  pullJobs (w_os w) (config m) targets [] = Ok js ->
  (exists st, Pull m w targetNames workers = Ok st
              /\ ops st ≡ₚ (fun j => pullCall (pj_path j) (pj_ffOnly j)) <$> js)
  /\ (exists groups,
        length groups = length targets
        /\ js = concat (zip_with (jobsAt (config m)) targets groups))
  /\ (forall t,
        config.FFOnly (config.Sync
          (config.providerOptions (config m) (config.ProviderName t))) = None ->
        ffOnlyOf (config m) t = true)
  /\ (forall git',
        cmd_CombinedOutput git' = cmd_CombinedOutput (w_git w) ->
        Pull m (mkWorld (w_os w) git' (w_procs w) (w_sched w)) targetNames workers
        = Pull m w targetNames workers).
Proof.
  intros Ht Hj. refine (conj _ (conj _ (conj _ _))).
  - unfold Pull. rewrite Ht, Hj.
    destruct (length js =? 0)%nat eqn:Hn.
    + apply Nat.eqb_eq in Hn. destruct js; [|discriminate].
      eexists. split; [reflexivity|]. reflexivity.
    + eexists. split; [reflexivity|].
      cbn [ops say]. rewrite fold_reportPull_ops. cbn [ops].
      rewrite (Run_Permutation (w_procs w) (pullOne (w_git w))).
      rewrite <- list_fmap_compose.
      erewrite list_fmap_ext; [reflexivity|].
      intros i j _. unfold compose. rewrite pullOne_call. reflexivity.
  - apply pullJobs_spec in Hj as (groups & Hlen & ->). exists groups.
    split; [exact Hlen|reflexivity].
  - intros t Hnone. unfold ffOnlyOf, config.GetFFOnly. rewrite Hnone. reflexivity.
  - intros git' Hgit. unfold Pull. cbn [w_os w_git w_procs w_sched].
    unfold pullOne, gitPull, CombinedOutput. rewrite Hgit. reflexivity.
Qed.

End PullRun.

Example Pull_fleet_ops :
  match repo.Pull Fleet.manager Fleet.world [] 0 with
  | Ok st => repo.ops st
  | Err _ => []
  end
  = [("/w/acme/old", ["pull"; "--ff-only"]); ("/w/app", ["pull"]);
     ("/w/app/api", ["pull"])].
Proof. vm_compute. reflexivity. Qed.

(** The pull run over the fleet: the organisation's working copy is pulled
    with [--ff-only], its provider leaving the option unset; the repository
    and its foldout are pulled without, their provider turning it off. *)
Lemma pull_decision_witness :
  (exists st,
     repo.Pull Fleet.manager Fleet.world [] 0 = Ok st
     /\ repo.ops st ≡ₚ [("/w/acme/old", ["pull"; "--ff-only"]);
                        ("/w/app", ["pull"]); ("/w/app/api", ["pull"])])
  /\ ffOnlyOf Fleet.cfg Fleet.t_acme = true
  /\ ffOnlyOf Fleet.cfg Fleet.t_app = false.
Proof.
  destruct (pull_decision Fleet.manager Fleet.world [] 0
              [Fleet.t_acme; Fleet.t_app]
              [repo.mkPullJob "/w/acme/old" true; repo.mkPullJob "/w/app" false;
               repo.mkPullJob "/w/app/api" false])
    as ((st & Hrun & Hops) & _ & Hdef & _).
  - reflexivity.
  - vm_compute. reflexivity.
  - split; [exists st; split; [exact Hrun|exact Hops]|].
    split; [apply Hdef; reflexivity|reflexivity].
Defined.

(** A working copy that two targets share is found twice, and pulled
    twice. *)
Example Pull_shared_path :
  match repo.Pull
          (repo.mkManager (repo.providers Fleet.manager)
             (config.mkConfig 0 (config.Providers Fleet.cfg)
                [Fleet.t_acme;
                 config.mkTarget "rideshare-too" "gitea" "acme" "" "/w/acme"]))
          Fleet.world [] 0 with
  | Ok st => repo.ops st
  | Err _ => []
  end
  = [("/w/acme/old", ["pull"; "--ff-only"]); ("/w/acme/old", ["pull"; "--ff-only"])].
Proof. vm_compute. reflexivity. Qed.

(** C6 as stated fails: the status of the foldout [api] carries a fatal
    error, in the status run over the same targets as well, and the pull run
    pulls it all the same. *)
Lemma pull_fatal_counterexample :
  let s := repo.getRepoStatus Fleet.git "/w/app/api" "mobile" "beta" "mobile-api"
             "github" in
  repo.Error s <> ""
  /\ (exists statuses,
        repo.getAllStatuses Fleet.manager Fleet.world [Fleet.t_acme; Fleet.t_app] 0
        = Ok statuses /\ s ∈ statuses)
  /\ (exists st,
        repo.Pull Fleet.manager Fleet.world [] 0 = Ok st
        /\ ("/w/app/api", ["pull"]) ∈ repo.ops st).
Proof.
  cbv zeta. refine (conj _ (conj _ _)).
  - vm_compute. discriminate.
  - exists fleet_statuses. split; [apply getAllStatuses_fleet|].
    apply list_elem_of_further, list_elem_of_here.
  - eexists. split; [vm_compute; reflexivity|].
    do 2 apply list_elem_of_further. apply list_elem_of_here.
Qed.

(** * Further properties of the manager *)

(** ** Whole runs of sync and push *)
Section RunSafety.
Import repo.

Definition counted (st : tally) : Z := nOk st + nSkipped st + nFailed st.

Ltac sync_cases :=
  unfold syncRepo, syncPull, syncPush; rewrite ?gitPull_call, ?gitPush_call;
  repeat match goal with
         | |- context [if ?b then _ else _] => destruct b
         | |- context [match pullAnswer ?g ?p ?f with _ => _ end] =>
             destruct (pullAnswer g p f)
         | |- context [match pushAnswer ?g ?p with _ => _ end] =>
             destruct (pushAnswer g p)
         end.

Lemma syncRepo_counted git optMap st s :
  counted (syncRepo git optMap st s) = counted st + 1.
Proof.
  unfold counted. sync_cases; cbn; lia.
Qed.

Lemma sync_run_counted git optMap statuses st :
  counted (fold_left (syncRepo git optMap) statuses st)
  = counted st + Z.of_nat (length statuses).
Proof.
  revert st. induction statuses as [|s rest IH]; intros st; cbn [fold_left length].
  - lia.
  - rewrite IH, syncRepo_counted. lia.
Qed.

(** What entitles an invocation made by the decision loop of a sync run: a
    status without fatal error and not dirty, and either [git pull] in its
    path, with [--ff-only] as the policy has it, for a positive behind count
    that the policy allows, or [git push] in its path for a positive ahead
    count, after no pull that failed. *)
Definition syncEntitled (git : Git) (optMap : gmap string config.ProviderOptions)
    (s : RepoStatus) (c : gitCmd) : Prop :=
  Error s = "" /\ Dirty s = false
  /\ ((c = pullCall (Path s) (ffOnlyFor optMap s) /\ 0 < Behind s
       /\ (CanFastForward s = true \/ ffOnlyFor optMap s = false))
      \/ (c = pushCall (Path s) /\ 0 < Ahead s
          /\ (0 < Behind s ->
              pullAnswer git (Path s) (ffOnlyFor optMap s) = None))).

Ltac in_list H :=
  repeat first
    [ apply elem_of_nil in H; contradiction
    | apply elem_of_cons in H as [H|H]; [subst|] ].

Lemma syncRepo_entitled git optMap s c :
  c ∈ ops (syncRepo git optMap tally0 s) -> syncEntitled git optMap s c.
Proof.
  unfold syncEntitled, ffOnlyFor, optsFor, syncRepo.
  set (ff := config.GetFFOnly
               (config.Sync (default config.zeroProviderOptions (optMap !! Target s)))).
  destruct (String.eqb (Error s) "") eqn:He; cbn [negb];
    [|cbn; intros H; in_list H].
  apply String.eqb_eq in He.
  destruct (Dirty s) eqn:Hd; [cbn; intros H; in_list H|].
  unfold syncPull, syncPush. fold ff. rewrite gitPull_call, gitPush_call.
  destruct (0 <? Behind s) eqn:Hb.
  - apply Z.ltb_lt in Hb.
    destruct (negb (CanFastForward s) && ff) eqn:Hg; [cbn; intros H; in_list H|].
    assert (Hok : CanFastForward s = true \/ ff = false).
    { destruct (CanFastForward s); [left; reflexivity|right; exact Hg]. }
    destruct (pullAnswer git (Path s) ff) eqn:Hp;
      [cbn; intros H; in_list H; auto 10|].
    destruct (0 <? Ahead s) eqn:Ha.
    + apply Z.ltb_lt in Ha.
      destruct (pushAnswer git (Path s)); cbn; intros H; in_list H; auto 10.
    + cbn. intros H. in_list H. auto 10.
  - apply Z.ltb_ge in Hb. destruct (0 <? Ahead s) eqn:Ha.
    + apply Z.ltb_lt in Ha.
      destruct (pushAnswer git (Path s)); cbn; intros H; in_list H;
        (split; [exact He|]; split; [reflexivity|]; right;
         split; [reflexivity|]; split; [exact Ha|]; intros; lia).
    + cbn. intros H. in_list H.
Qed.

Lemma elem_of_flat_map {A B} (f : A -> list B) (l : list A) (y : B) :
  y ∈ flat_map f l <-> exists x, x ∈ l /\ y ∈ f x.
Proof.
  rewrite list_elem_of_In, in_flat_map. split.
  - intros (x & Hx & Hy). exists x. rewrite !list_elem_of_In. auto.
  - intros (x & Hx & Hy). exists x. rewrite <- !list_elem_of_In. auto.
Qed.

(** X1.  Every status of a sync run is counted exactly once, as synced, skipped
    or failed. *)
Theorem Sync_counts_every_status m w targetNames workers st :
  Sync m w targetNames workers = Ok st ->
  exists targets statuses,
    targetsFor m targetNames = Ok targets
    /\ getAllStatuses m w targets workers = Ok statuses
    /\ nOk st + nSkipped st + nFailed st = Z.of_nat (length statuses).
Proof.
  unfold Sync.
  destruct (targetsFor m targetNames) as [targets|e] eqn:Ht; [|discriminate].
  destruct (getAllStatuses m w targets workers) as [statuses|e] eqn:Hs;
    [|discriminate].
  intros H. injection H as <-. exists targets, statuses.
  split; [reflexivity|]. split; [exact Hs|].
  cbn [nOk nSkipped nFailed say].
  pose proof (sync_run_counted (w_git w) (optMapOf (config m) targets)
                statuses tally0) as Hc.
  unfold counted in Hc. cbn in Hc. lia.
Qed.

(** X2.  The decision loop of a sync run invokes [git] for pulls and
    pushes only, and each invocation it makes is entitled by a status of
    the run: the repository has no fatal error and is not dirty; a pull is
    made only for a repository that is behind and, under the
    fast-forward-only policy, can be fast-forwarded; a push only for one
    that is ahead, and never after a pull of that repository that failed.
    (The commands of the status computation, which runs first on every
    working copy, are those of [getRepoStatus] and are not the subject
    here.) *)
Theorem Sync_commands_entitled m w targetNames workers st c :
  Sync m w targetNames workers = Ok st ->
  c ∈ ops st ->
  exists targets statuses s,
    targetsFor m targetNames = Ok targets
    /\ getAllStatuses m w targets workers = Ok statuses
    /\ s ∈ statuses
    /\ syncEntitled (w_git w) (optMapOf (config m) targets) s c.
Proof.
  intros Hrun Hc.
  destruct (Sync_ops m w targetNames workers st Hrun)
    as (targets & statuses & Ht & Hs & Hops).
  rewrite Hops in Hc. apply elem_of_flat_map in Hc as (s & Hin & Hcs).
  exists targets, statuses, s. repeat split; try assumption;
    apply (syncRepo_entitled _ _ _ _ Hcs).
Qed.

(** A status whose repository a push run pushes. *)
Definition pushable (s : RepoStatus) : Prop :=
  Error s = "" /\ Behind s <= 0 /\ Ahead s <> 0.

#[global] Instance pushable_dec s : Decision (pushable s).
Proof. unfold pushable. apply _. Defined.

Lemma pushRepo_calls git s :
  ops (pushRepo git tally0 s)
  = if decide (pushable s) then [pushCall (Path s)] else [].
Proof.
  unfold pushRepo, pushable. rewrite gitPush_call.
  destruct (String.eqb (Error s) "") eqn:He; cbn [negb];
    [apply String.eqb_eq in He|apply String.eqb_neq in He].
  2:{ destruct (decide _) as [(H & _)|_]; [contradiction|reflexivity]. }
  destruct (0 <? Behind s) eqn:Hb;
    [apply Z.ltb_lt in Hb|apply Z.ltb_ge in Hb].
  { destruct (decide _) as [(_ & H & _)|_]; [lia|reflexivity]. }
  destruct (Ahead s =? 0) eqn:Ha;
    [apply Z.eqb_eq in Ha|apply Z.eqb_neq in Ha].
  { destruct (decide _) as [(_ & _ & H)|_]; [contradiction|reflexivity]. }
  destruct (decide _) as [_|H]; [|exfalso; apply H; auto].
  destruct (pushAnswer git (Path s)); reflexivity.
Qed.

Lemma flat_map_filter {A B} (P : A -> Prop) `{forall x, Decision (P x)}
    (f : A -> B) (l : list A) :
  flat_map (fun x => if decide (P x) then [f x] else []) l = f <$> filter P l.
Proof.
  induction l as [|x l IH]; [reflexivity|]. cbn [flat_map]. rewrite IH.
  destruct (decide (P x)) as [Hx|Hx].
  - rewrite (filter_cons_True P) by exact Hx. reflexivity.
  - rewrite (filter_cons_False P) by exact Hx. reflexivity.
Qed.

(** X3.  The decision loop of a push run invokes [git push] once in the
    path of each status of the run that has no fatal error, is not behind
    and has an ahead count other than zero, in the order of the statuses,
    and invokes nothing else: no pull, and no push for any other status.
    The dirty flag plays no part: a dirty repository that is ahead is
    pushed.  (The commands of the status computation, which runs first, are
    those of [getRepoStatus] and are not the subject here.) *)
Theorem Push_commands_entitled m w targetNames workers st :
  Push m w targetNames workers = Ok st ->
  exists targets statuses,
    targetsFor m targetNames = Ok targets
    /\ getAllStatuses m w targets workers = Ok statuses
    /\ ops st = (fun s => pushCall (Path s)) <$> filter pushable statuses
    /\ (forall s d, pushable (setDirty s d) <-> pushable s).
Proof.
  intros Hrun.
  destruct (Push_ops m w targetNames workers st Hrun)
    as (targets & statuses & Ht & Hs & Hops).
  exists targets, statuses.
  split; [exact Ht|]. split; [exact Hs|]. split; [|intros s d; reflexivity].
  rewrite Hops. rewrite <- (flat_map_filter pushable).
  induction statuses as [|s rest IH] in |- *; [reflexivity|].
  cbn [flat_map]. rewrite pushRepo_calls. f_equal. exact IH.
Qed.

End RunSafety.

Example Sync_fleet :
  repo.Sync Fleet.manager Fleet.world [] 0
  = Ok (repo.mkTally
          [("/w/app", ["pull"]); ("/w/acme/old", ["pull"; "--ff-only"])]
          ["  [PULL]  /w/app: 1 behind";
           "  [ERROR] /w/app/api: getting branch: exit status 128";
           "  [PULL]  /w/acme/old: 1 behind";
           "Sync complete: 2 synced, 0 skipped, 1 failed"]
          2 0 1).
Proof. vm_compute. reflexivity. Qed.

(** At the fleet: every status is counted, and the commands run are
    entitled. *)
Lemma Sync_counts_every_status_witness :
  exists targets statuses,
    repo.targetsFor Fleet.manager [] = Ok targets
    /\ repo.getAllStatuses Fleet.manager Fleet.world targets 0 = Ok statuses
    /\ 2 + 0 + 1 = Z.of_nat (length statuses).
Proof.
  apply (Sync_counts_every_status Fleet.manager Fleet.world [] 0 _ Sync_fleet).
Defined.

(** A fleet whose repositories are all clean, one commit ahead and in step
    otherwise; and the same fleet with uncommitted changes everywhere. *)
Definition git_ahead : repo.Git :=
  Scenario.gitWith (Ok "main") (Ok "") (Ok ("1" +:+ Scenario.tab +:+ "0")) true
                   ("", None) (fun _ => None).

Definition world_ahead : repo.World := repo.mkWorld Fleet.os git_ahead 2%positive [].

Definition git_ahead_dirty : repo.Git :=
  Scenario.gitWith (Ok "main") (Ok " M main.go")
                   (Ok ("1" +:+ Scenario.tab +:+ "0")) true
                   ("", None) (fun _ => None).

Definition world_ahead_dirty : repo.World :=
  repo.mkWorld Fleet.os git_ahead_dirty 2%positive [].

Example Sync_fleet_ahead :
  repo.Sync Fleet.manager world_ahead ["rideshare"] 0
  = Ok (repo.mkTally [("/w/acme/old", ["push"])]
          ["  [PUSH]  /w/acme/old: 1 ahead";
           "Sync complete: 1 synced, 0 skipped, 0 failed"] 1 0 0).
Proof. vm_compute. reflexivity. Qed.

(** The sync run skips the dirty repository; the push run pushes it. *)
Example Sync_fleet_ahead_dirty :
  repo.Sync Fleet.manager world_ahead_dirty ["rideshare"] 0
  = Ok (repo.mkTally []
          ["  [SKIP]  /w/acme/old: dirty";
           "Sync complete: 0 synced, 1 skipped, 0 failed"] 0 1 0).
Proof. vm_compute. reflexivity. Qed.

Example Push_fleet_ahead_dirty :
  repo.Push Fleet.manager world_ahead_dirty ["rideshare"] 0
  = Ok (repo.mkTally [("/w/acme/old", ["push"])]
          ["  [PUSH]  /w/acme/old: 1 commits";
           "Push complete: 1 pushed, 0 skipped, 0 failed"] 1 0 0).
Proof. vm_compute. reflexivity. Qed.

Example statuses_ahead_dirty :
  repo.getAllStatuses Fleet.manager world_ahead_dirty [Fleet.t_acme] 0
  = Ok [repo.mkRepoStatus "/w/acme/old" "rideshare" "gitea" "acme" "old" "main"
          true 1 0 true true false "" ""].
Proof. vm_compute. reflexivity. Qed.

(** A pull of the fleet's sync run, and the push of the sync run of the
    fleet that is ahead. *)
Lemma Sync_commands_entitled_witness :
  (exists targets statuses s,
     repo.targetsFor Fleet.manager [] = Ok targets
     /\ repo.getAllStatuses Fleet.manager Fleet.world targets 0 = Ok statuses
     /\ s ∈ statuses
     /\ syncEntitled Fleet.git (repo.optMapOf (repo.config Fleet.manager) targets) s
          ("/w/app", ["pull"]))
  /\ (exists targets statuses s,
        repo.targetsFor Fleet.manager ["rideshare"] = Ok targets
        /\ repo.getAllStatuses Fleet.manager world_ahead targets 0 = Ok statuses
        /\ s ∈ statuses
        /\ syncEntitled git_ahead (repo.optMapOf (repo.config Fleet.manager) targets) s
             ("/w/acme/old", ["push"])).
Proof.
  split.
  - apply (Sync_commands_entitled Fleet.manager Fleet.world [] 0 _ _ Sync_fleet).
    apply list_elem_of_here.
  - apply (Sync_commands_entitled Fleet.manager world_ahead ["rideshare"] 0 _ _
             Sync_fleet_ahead).
    apply list_elem_of_here.
Defined.

(** The push run of the fleet that is ahead and dirty. *)
Lemma Push_commands_entitled_witness :
  exists targets statuses,
    repo.targetsFor Fleet.manager ["rideshare"] = Ok targets
    /\ repo.getAllStatuses Fleet.manager world_ahead_dirty targets 0 = Ok statuses
    /\ [("/w/acme/old", ["push"])]
       = (fun s => pushCall (repo.Path s)) <$> filter pushable statuses
    /\ (forall s d, pushable (repo.setDirty s d) <-> pushable s).
Proof.
  exact (Push_commands_entitled Fleet.manager world_ahead_dirty ["rideshare"] 0 _
           Push_fleet_ahead_dirty).
Defined.

(** ** Selection of targets by name *)
Section TargetSelection.
Import repo.

(** The map [targetsFor] builds from target name to target. *)
Definition nameSetOf (targets : list config.Target) : gmap string config.Target :=
  fold_left (fun acc t => <[config.Name t := t]> acc) targets ∅.

Lemma nameSet_fold_Some targets (acc : gmap string config.Target) n t :
  fold_left (fun acc t => <[config.Name t := t]> acc) targets acc !! n = Some t ->
  (t ∈ targets /\ config.Name t = n) \/ acc !! n = Some t.
Proof.
  revert acc. induction targets as [|t0 rest IH]; intros acc H; cbn in H.
  - right. exact H.
  - apply IH in H as [[Hin Hn]|H].
    + left. split; [apply list_elem_of_further; exact Hin|exact Hn].
    + apply lookup_insert_Some in H as [[Hk Hv]|[_ H]].
      * left. subst. split; [apply list_elem_of_here|reflexivity].
      * right. exact H.
Qed.

Lemma nameSet_fold_is_Some targets (acc : gmap string config.Target) n :
  is_Some (fold_left (fun acc t => <[config.Name t := t]> acc) targets acc !! n)
  <-> n ∈ config.Name <$> targets \/ is_Some (acc !! n).
Proof.
  revert acc. induction targets as [|t0 rest IH]; intros acc; cbn [fold_left].
  - cbn. split; [auto|]. intros [H|H]; [apply elem_of_nil in H; contradiction|exact H].
  - rewrite IH. rewrite fmap_cons, elem_of_cons.
    destruct (decide (n = config.Name t0)) as [->|Hne].
    + rewrite lookup_insert_eq. split; [intros _; auto|intros _; right; eauto].
    + rewrite lookup_insert_ne by congruence. tauto.
Qed.

Lemma nameSetOf_Some targets n t :
  nameSetOf targets !! n = Some t -> t ∈ targets /\ config.Name t = n.
Proof.
  intros H. apply nameSet_fold_Some in H as [H|H]; [exact H|].
  rewrite lookup_empty in H. discriminate.
Qed.

Lemma nameSetOf_None targets n :
  nameSetOf targets !! n = None <-> n ∉ config.Name <$> targets.
Proof.
  rewrite eq_None_not_Some. unfold nameSetOf. rewrite nameSet_fold_is_Some.
  rewrite lookup_empty. split.
  - intros H Hin. apply H. left. exact Hin.
  - intros H [Hin|[x Hx]]; [exact (H Hin)|discriminate].
Qed.

(** The three accumulators of the loop of [targetsFor] after the names
    [names], for any function that steps as the loop body does. *)
Lemma targets_loop (ns : gmap string config.Target)
    (body : list config.Target * list string * gset string -> string ->
            list config.Target * list string * gset string) :
  (forall res missing seen n,
     body (res, missing, seen) n
     = match ns !! n with
       | None => (res, missing ++ [n], seen)
       | Some t =>
           if bool_decide (n ∈ seen) then (res, missing, seen)
           else (res ++ [t], missing, {[ n ]} ∪ seen)
       end) ->
  (forall n t, ns !! n = Some t -> config.Name t = n) ->
  forall names res missing seen res' missing' seen',
    fold_left body names (res, missing, seen) = (res', missing', seen') ->
    (forall n, n ∈ seen <-> n ∈ config.Name <$> res) ->
    NoDup (config.Name <$> res) ->
    (forall t, t ∈ res -> ns !! config.Name t = Some t) ->
    missing' = missing ++ filter (fun n => ns !! n = None) names
    /\ NoDup (config.Name <$> res')
    /\ (forall t, t ∈ res' -> ns !! config.Name t = Some t)
    /\ (forall n, n ∈ config.Name <$> res'
                  <-> n ∈ config.Name <$> res \/ (n ∈ names /\ is_Some (ns !! n))).
Proof.
  intros Hbody Hname.
  induction names as [|n names IH]; intros res missing seen res' missing' seen'
    Hfold Hseen Hnd Hres.
  - cbn in Hfold. injection Hfold as <- <- <-.
    rewrite filter_nil, app_nil_r. repeat split; try assumption; [auto|].
    intros [H|[H _]]; [exact H|apply elem_of_nil in H; contradiction].
  - cbn [fold_left] in Hfold. rewrite Hbody in Hfold.
    destruct (ns !! n) as [t|] eqn:Hn.
    + destruct (bool_decide (n ∈ seen)) eqn:Hs.
      * apply bool_decide_eq_true in Hs.
        destruct (IH _ _ _ _ _ _ Hfold Hseen Hnd Hres) as (Hm & Hnd' & Hres' & Hmem).
        rewrite filter_cons_False by (rewrite Hn; discriminate).
        repeat split; try assumption.
        -- intros H. apply Hmem in H as [H|[H Hsome]]; [auto|]. right.
           split; [apply list_elem_of_further; exact H|exact Hsome].
        -- intros [H|[H Hsome]]; apply Hmem; [auto|].
           apply elem_of_cons in H as [->|H]; [left; apply Hseen; exact Hs|auto].
      * apply bool_decide_eq_false in Hs.
        assert (Hseen' : forall k, k ∈ ({[ n ]} ∪ seen : gset string)
                                   <-> k ∈ config.Name <$> (res ++ [t])).
        { intros k. rewrite elem_of_union, elem_of_singleton, fmap_app, elem_of_app.
          cbn. rewrite list_elem_of_singleton, (Hname n t Hn), Hseen. tauto. }
        assert (Hnd'' : NoDup (config.Name <$> (res ++ [t]))).
        { rewrite fmap_app. apply NoDup_app. split; [exact Hnd|]. split.
          - intros k Hk Hk'. cbn in Hk'. apply list_elem_of_singleton in Hk'.
            subst k. rewrite (Hname n t Hn) in Hk. apply Hs, Hseen. exact Hk.
          - cbn. apply NoDup_singleton. }
        assert (Hres'' : forall t0, t0 ∈ res ++ [t] -> ns !! config.Name t0 = Some t0).
        { intros t0 H. apply elem_of_app in H as [H|H]; [auto|].
          apply list_elem_of_singleton in H. subst t0.
          rewrite (Hname n t Hn). exact Hn. }
        destruct (IH _ _ _ _ _ _ Hfold Hseen' Hnd'' Hres'')
          as (Hm & Hnd' & Hres' & Hmem).
        rewrite filter_cons_False by (rewrite Hn; discriminate).
        repeat split; try assumption.
        -- intros H. apply Hmem in H as [H|[H Hsome]].
           ++ rewrite fmap_app, elem_of_app in H. destruct H as [H|H]; [auto|].
              cbn in H. apply list_elem_of_singleton in H. subst n0.
              rewrite (Hname n t Hn). right.
              split; [apply list_elem_of_here|rewrite Hn; eauto].
           ++ right. split; [apply list_elem_of_further; exact H|exact Hsome].
        -- intros [H|[H Hsome]]; apply Hmem.
           ++ left. rewrite fmap_app, elem_of_app. auto.
           ++ apply elem_of_cons in H as [->|H]; [|auto].
              left. rewrite fmap_app, elem_of_app. right. cbn.
              rewrite (Hname n t Hn). apply list_elem_of_here.
    + destruct (IH _ _ _ _ _ _ Hfold Hseen Hnd Hres) as (Hm & Hnd' & Hres' & Hmem).
      rewrite filter_cons_True by exact Hn.
      rewrite Hm, <- app_assoc. repeat split; try assumption.
      * intros H. apply Hmem in H as [H|[H Hsome]]; [auto|]. right.
        split; [apply list_elem_of_further; exact H|exact Hsome].
      * intros [H|[H Hsome]]; apply Hmem; [auto|].
        apply elem_of_cons in H as [->|H]; [|auto].
        rewrite Hn in Hsome. destruct Hsome as [x Hx]. discriminate.
Qed.

End TargetSelection.

Section TargetSelectionResults.
Import repo.

(** A name that no configured target has. *)
Definition unknownName (m : Manager) (n : string) : Prop :=
  n ∉ config.Name <$> config.Targets (config m).

Lemma targetsFor_loop m names res missing seen :
  fold_left
    (fun (acc : list config.Target * list string * gset string) n =>
       let '(res, missing, seen) := acc in
       match nameSetOf (config.Targets (config m)) !! n with
       | None => (res, missing ++ [n], seen)
       | Some t =>
           if bool_decide (n ∈ seen) then acc
           else (res ++ [t], missing, {[ n ]} ∪ seen)
       end)
    names ([], [], ∅) = (res, missing, seen) ->
  missing = filter (unknownName m) names
  /\ NoDup (config.Name <$> res)
  /\ (forall t, t ∈ res -> t ∈ config.Targets (config m))
  /\ (forall n, n ∈ config.Name <$> res <-> n ∈ names /\ ~ unknownName m n).
Proof.
  intros Hfold.
  apply (targets_loop (nameSetOf (config.Targets (config m)))) in Hfold
    as (Hm & Hnd & Hres & Hmem).
  - split.
    { rewrite Hm. cbn. apply list_filter_iff. intros n. apply nameSetOf_None. }
    split; [exact Hnd|]. split.
    { intros t Ht. apply Hres in Ht. apply nameSetOf_Some in Ht as [Ht _]. exact Ht. }
    intros n. rewrite Hmem. unfold unknownName.
    rewrite <- nameSetOf_None, <- not_eq_None_Some. cbn. split.
    + intros [H|H]; [apply elem_of_nil in H; contradiction|exact H].
    + auto.
  - intros res0 missing0 seen0 n. reflexivity.
  - intros n t H. apply nameSetOf_Some in H as [_ H]. exact H.
  - intros n. cbn. rewrite elem_of_empty. split; [contradiction|].
    intros H. apply elem_of_nil in H. contradiction.
  - constructor.
  - intros t H. apply elem_of_nil in H. contradiction.
Qed.

Lemma filter_all_out {A} (P : A -> Prop) `{forall x, Decision (P x)} (l : list A) :
  Forall (fun x => ~ P x) l -> filter P l = [].
Proof.
  induction 1 as [|x l Hx Hl IH]; [reflexivity|].
  rewrite filter_cons_False by exact Hx. exact IH.
Qed.

Lemma targetsFor_known m names :
  names <> [] ->
  Forall (fun n => ~ unknownName m n) names ->
  exists res,
    targetsFor m names = Ok res
    /\ NoDup (config.Name <$> res)
    /\ (forall t, t ∈ res -> t ∈ config.Targets (config m))
    /\ (forall n, n ∈ config.Name <$> res <-> n ∈ names).
Proof.
  intros Hne Hknown. unfold targetsFor.
  destruct names as [|n0 names0]; [contradiction|].
  cbn [length Nat.eqb]. fold (nameSetOf (config.Targets (config m))).
  match goal with
  | |- context [fold_left ?f ?l ?a] => destruct (fold_left f l a) as [[res missing] seen] eqn:Hfold
  end.
  apply targetsFor_loop in Hfold as (Hm & Hnd & Hres & Hmem).
  assert (Hnil : missing = []).
  { rewrite Hm. apply filter_all_out. exact Hknown. }
  subst missing. rewrite Hnil. cbn [length Nat.ltb Nat.leb].
  exists res. split; [reflexivity|]. split; [exact Hnd|]. split; [exact Hres|].
  intros n. rewrite Hmem. split; [tauto|]. intros Hin. split; [exact Hin|].
  rewrite Forall_forall in Hknown. apply Hknown. exact Hin.
Qed.

Lemma targetsFor_missing m names n :
  n ∈ names -> unknownName m n ->
  targetsFor m names
  = Err ("unknown targets: " +:+ String.concat ", " (filter (unknownName m) names)).
Proof.
  intros Hin Hunk. unfold targetsFor.
  destruct names as [|n0 names0]; [apply elem_of_nil in Hin; contradiction|].
  cbn [length Nat.eqb]. fold (nameSetOf (config.Targets (config m))).
  match goal with
  | |- context [fold_left ?f ?l ?a] => destruct (fold_left f l a) as [[res missing] seen] eqn:Hfold
  end.
  apply targetsFor_loop in Hfold as (Hm & _).
  assert (Hmem : n ∈ missing).
  { rewrite Hm. apply (list_elem_of_filter (unknownName m)). auto. }
  rewrite <- Hm. destruct missing as [|x xs]; [apply elem_of_nil in Hmem; contradiction|].
  reflexivity.
Qed.

(** X4.  With no name given every configured target is selected.  With names
    given, all of them known, the selection succeeds with configured
    targets only, no target name twice however often a name was given, and
    exactly the names given. *)
Theorem targetsFor_selects m names :
  targetsFor m [] = Ok (config.Targets (config m))
  /\ (names <> [] ->
      Forall (fun n => ~ unknownName m n) names ->
      exists res,
        targetsFor m names = Ok res
        /\ NoDup (config.Name <$> res)
        /\ (forall t, t ∈ res -> t ∈ config.Targets (config m))
        /\ (forall n, n ∈ config.Name <$> res <-> n ∈ names)).
Proof.
  split; [reflexivity|]. apply targetsFor_known.
Qed.

(** X5.  With an unknown name among the names given the selection fails, and
    the error lists every unknown name, in the order and as often as
    given. *)
Theorem targetsFor_unknown m names n :
  n ∈ names -> unknownName m n ->
  targetsFor m names
  = Err ("unknown targets: " +:+ String.concat ", " (filter (unknownName m) names)).
Proof.
  apply targetsFor_missing.
Qed.

End TargetSelectionResults.

Ltac mem_cases H :=
  repeat first
    [ apply elem_of_nil in H; contradiction
    | apply elem_of_cons in H as [H|H]; [subst|] ].

(** Both targets of the fleet, one of them asked for twice. *)
Lemma targetsFor_selects_witness :
  exists res,
    repo.targetsFor Fleet.manager ["mobile"; "rideshare"; "mobile"] = Ok res
    /\ NoDup (config.Name <$> res)
    /\ (forall t, t ∈ res -> t ∈ config.Targets (repo.config Fleet.manager))
    /\ (forall n, n ∈ config.Name <$> res <-> n ∈ ["mobile"; "rideshare"; "mobile"]).
Proof.
  apply (proj2 (targetsFor_selects Fleet.manager ["mobile"; "rideshare"; "mobile"])).
  - discriminate.
  - apply Forall_forall. intros n Hn Hu. apply Hu. cbn.
    mem_cases Hn.
    + apply list_elem_of_further, list_elem_of_here.
    + apply list_elem_of_here.
    + apply list_elem_of_further, list_elem_of_here.
Defined.

Lemma targetsFor_unknown_witness :
  repo.targetsFor Fleet.manager ["rideshare"; "nope"; "zz"; "nope"]
  = Err "unknown targets: nope, zz, nope".
Proof.
  rewrite (targetsFor_unknown Fleet.manager ["rideshare"; "nope"; "zz"; "nope"] "nope").
  - vm_compute. reflexivity.
  - apply list_elem_of_further, list_elem_of_here.
  - unfold unknownName. cbn. intros H. mem_cases H; discriminate.
Defined.

(** ** Package [config]: lookup of a target by name *)
Module configLookup.

Fixpoint GetTargetByName_in (targets : list config.Target) (name : string)
    : option config.Target :=
  match targets with
  | [] => None
  | t :: rest =>
      if String.eqb (config.Name t) name then Some t
      else GetTargetByName_in rest name
  end.

(** [Config.GetTargetByName]: the first target of that name, [None] for nil. *)
Definition GetTargetByName (c : config.Config) (name : string)
    : option config.Target :=
  GetTargetByName_in (config.Targets c) name.

End configLookup.

Section TargetLookup.
Import repo.

Lemma GetTargetByName_in_Some targets name t :
  configLookup.GetTargetByName_in targets name = Some t ->
  t ∈ targets /\ config.Name t = name.
Proof.
  induction targets as [|t0 rest IH]; [discriminate|]. cbn.
  destruct (String.eqb (config.Name t0) name) eqn:He.
  - intros H. injection H as <-. apply String.eqb_eq in He.
    split; [apply list_elem_of_here|exact He].
  - intros H. apply IH in H as [H1 H2].
    split; [apply list_elem_of_further; exact H1|exact H2].
Qed.

Lemma GetTargetByName_in_None targets name :
  configLookup.GetTargetByName_in targets name = None
  <-> name ∉ config.Name <$> targets.
Proof.
  induction targets as [|t0 rest IH]; cbn.
  - split; [intros _ H; apply elem_of_nil in H; contradiction|reflexivity].
  - destruct (String.eqb (config.Name t0) name) eqn:He.
    + apply String.eqb_eq in He. split; [discriminate|].
      intros H. exfalso. apply H. rewrite He. apply list_elem_of_here.
    + apply String.eqb_neq in He. rewrite IH, not_elem_of_cons.
      split; [intros H; split; [congruence|exact H]|intros [_ H]; exact H].
Qed.

Lemma unique_by_name (targets : list config.Target) t1 t2 :
  NoDup (config.Name <$> targets) ->
  t1 ∈ targets -> t2 ∈ targets -> config.Name t1 = config.Name t2 -> t1 = t2.
Proof.
  induction targets as [|t0 rest IH]; intros Hnd H1 H2 Hn.
  - apply elem_of_nil in H1. contradiction.
  - rewrite fmap_cons in Hnd. apply NoDup_cons in Hnd as [Hfresh Hnd].
    apply elem_of_cons in H1 as [->|H1]; apply elem_of_cons in H2 as [->|H2].
    + reflexivity.
    + exfalso. apply Hfresh. rewrite Hn. apply list_elem_of_fmap_2. exact H2.
    + exfalso. apply Hfresh. rewrite <- Hn. apply list_elem_of_fmap_2. exact H1.
    + apply IH; assumption.
Qed.

(** X6.  In a configuration whose target names are distinct, selecting one name
    for a command gives the one target that the lookup by name gives; and
    the lookup finds nothing exactly for the names the selection refuses. *)
Theorem GetTargetByName_agrees m name :
  NoDup (config.Name <$> config.Targets (config m)) ->
  (forall t,
     configLookup.GetTargetByName (config m) name = Some t
     <-> targetsFor m [name] = Ok [t])
  /\ (configLookup.GetTargetByName (config m) name = None
      <-> targetsFor m [name] = Err ("unknown targets: " +:+ name)).
Proof.
  intros Hnd. unfold configLookup.GetTargetByName.
  destruct (decide (unknownName m name)) as [Hu|Hk].
  - assert (Herr : targetsFor m [name] = Err ("unknown targets: " +:+ name)).
    { rewrite (targetsFor_missing m [name] name);
        [|apply list_elem_of_here|exact Hu].
      rewrite filter_cons_True by exact Hu. reflexivity. }
    assert (Hnone := proj2 (GetTargetByName_in_None _ _) Hu).
    split.
    + intros t. rewrite Hnone, Herr. split; discriminate.
    + rewrite Hnone, Herr. tauto.
  - destruct (targetsFor_known m [name]) as (res & Hres & Hnd' & Hin & Hmem).
    { discriminate. }
    { constructor; [exact Hk|constructor]. }
    destruct (configLookup.GetTargetByName_in (config.Targets (config m)) name)
      as [t0|] eqn:Hget.
    2:{ exfalso. apply Hk. apply GetTargetByName_in_None. exact Hget. }
    apply GetTargetByName_in_Some in Hget as [Ht0 Hn0].
    assert (Hres' : res = [t0]).
    { destruct res as [|r [|r' rest]].
      - exfalso. assert (H : name ∈ config.Name <$> @nil config.Target)
          by (apply Hmem; apply list_elem_of_here).
        apply elem_of_nil in H. exact H.
      - f_equal. apply (unique_by_name _ _ _ Hnd).
        + apply Hin. apply list_elem_of_here.
        + exact Ht0.
        + rewrite Hn0. assert (H : config.Name r ∈ [name])
            by (apply Hmem; apply list_elem_of_here).
          apply list_elem_of_singleton in H. exact H.
      - exfalso. cbn in Hnd'. apply NoDup_cons in Hnd' as [Hfresh _].
        apply Hfresh.
        assert (H1 : config.Name r ∈ [name])
          by (apply Hmem; apply list_elem_of_here).
        assert (H2 : config.Name r' ∈ [name])
          by (apply Hmem; apply list_elem_of_further, list_elem_of_here).
        apply list_elem_of_singleton in H1, H2. rewrite H1, <- H2.
        apply list_elem_of_here. }
    rewrite Hres, Hres'. split.
    + intros t. split; intros H; injection H as ->; reflexivity.
    + split; discriminate.
Qed.

End TargetLookup.

Lemma GetTargetByName_agrees_witness :
  configLookup.GetTargetByName Fleet.cfg "mobile" = Some Fleet.t_app
  <-> repo.targetsFor Fleet.manager ["mobile"] = Ok [Fleet.t_app].
Proof.
  apply (proj1 (GetTargetByName_agrees Fleet.manager "mobile"
                  ltac:(cbn; repeat constructor; intros H; mem_cases H; discriminate))).
Defined.

(** ** The remote index when every listing succeeds *)
Section RemoteIndex.
Import repo.

(** The map from repository name to repository that [buildRepoIndex]
    builds for one organization. *)
Definition byNameOf (repos : list remote.Repository)
    : gmap string remote.Repository :=
  fold_left (fun acc r => <[remote.Name r := r]> acc) repos ∅.

Lemma byName_fold_Some repos (acc : gmap string remote.Repository) n r :
  fold_left (fun acc r => <[remote.Name r := r]> acc) repos acc !! n = Some r ->
  (r ∈ repos /\ remote.Name r = n) \/ acc !! n = Some r.
Proof.
  revert acc. induction repos as [|r0 rest IH]; intros acc H; cbn in H.
  - right. exact H.
  - apply IH in H as [[Hin Hn]|H].
    + left. split; [apply list_elem_of_further; exact Hin|exact Hn].
    + apply lookup_insert_Some in H as [[Hk Hv]|[_ H]].
      * left. subst. split; [apply list_elem_of_here|reflexivity].
      * right. exact H.
Qed.

Lemma byName_fold_is_Some repos (acc : gmap string remote.Repository) n :
  is_Some (fold_left (fun acc r => <[remote.Name r := r]> acc) repos acc !! n)
  <-> n ∈ remote.Name <$> repos \/ is_Some (acc !! n).
Proof.
  revert acc. induction repos as [|r0 rest IH]; intros acc; cbn [fold_left].
  - cbn. split; [auto|]. intros [H|H]; [apply elem_of_nil in H; contradiction|exact H].
  - rewrite IH. rewrite fmap_cons, elem_of_cons.
    destruct (decide (n = remote.Name r0)) as [->|Hne].
    + rewrite lookup_insert_eq. split; [intros _; auto|intros _; right; eauto].
    + rewrite lookup_insert_ne by congruence. tauto.
Qed.

(** Every listed name has an entry, and an entry is a listed repository of
    that name. *)
Lemma byNameOf_spec repos :
  (forall n, is_Some (byNameOf repos !! n) <-> n ∈ remote.Name <$> repos)
  /\ (forall n r, byNameOf repos !! n = Some r -> r ∈ repos /\ remote.Name r = n).
Proof.
  split.
  - intros n. unfold byNameOf. rewrite byName_fold_is_Some, lookup_empty.
    split; [intros [H|[x Hx]]; [exact H|discriminate]|auto].
  - intros n r H. apply byName_fold_Some in H as [H|H]; [exact H|].
    rewrite lookup_empty in H. discriminate.
Qed.

(** The listing of organization [k] succeeds with [repos]. *)
Definition listingGives (m : Manager) (k : orgKey)
    (repos : list remote.Repository) : Prop :=
  exists client,
    providers m !! provider k = Some client
    /\ remote.ListOrgRepos client (org k) = Ok repos.

Lemma buildRepoIndex_from_ok m orgs index0 :
  Forall (fun k => exists repos, listingGives m k repos) orgs ->
  NoDup (orgKey_string <$> orgs) ->
  exists index,
    buildRepoIndex_from m orgs index0 = Ok index
    /\ (forall key, key ∉ orgKey_string <$> orgs -> index !! key = index0 !! key)
    /\ (forall k repos, k ∈ orgs -> listingGives m k repos ->
                        index !! orgKey_string k = Some (byNameOf repos)).
Proof.
  revert index0. induction orgs as [|k0 rest IH]; intros index0 Hall Hnd.
  - exists index0. split; [reflexivity|]. split; [reflexivity|].
    intros k repos Hk. apply elem_of_nil in Hk. contradiction.
  - apply Forall_cons in Hall as [(repos0 & client0 & Hc0 & Hl0) Hall].
    rewrite fmap_cons in Hnd. apply NoDup_cons in Hnd as [Hfresh Hnd].
    cbn [buildRepoIndex_from]. rewrite Hc0, Hl0. fold (byNameOf repos0).
    destruct (IH (<[orgKey_string k0 := byNameOf repos0]> index0) Hall Hnd)
      as (index & Hok & Hout & Hin).
    exists index. split; [exact Hok|]. split.
    + intros key Hkey. apply not_elem_of_cons in Hkey as [Hne Hkey].
      rewrite (Hout key Hkey). apply lookup_insert_ne. congruence.
    + intros k repos Hk (client & Hc & Hl).
      apply elem_of_cons in Hk as [->|Hk].
      * rewrite (Hout _ Hfresh), lookup_insert_eq. congruence.
      * apply (Hin k repos Hk). exists client. auto.
Qed.

(** X7.  When the listing of every requested organization succeeds and the
    requested keys are distinct, the index is built; it has an entry for
    exactly the requested keys, and the entry of an organization holds, under
    each listed name, a repository of that listing with that name. *)
Theorem buildRepoIndex_complete m orgs :
  Forall (fun k => exists repos, listingGives m k repos) orgs ->
  NoDup (orgKey_string <$> orgs) ->
  exists index,
    buildRepoIndex m orgs = Ok index
    /\ (forall key, is_Some (index !! key) <-> key ∈ orgKey_string <$> orgs)
    /\ (forall k repos,
          k ∈ orgs -> listingGives m k repos ->
          exists byName,
            index !! orgKey_string k = Some byName
            /\ (forall n, is_Some (byName !! n) <-> n ∈ remote.Name <$> repos)
            /\ (forall n r, byName !! n = Some r -> r ∈ repos /\ remote.Name r = n)).
Proof.
  intros Hall Hnd. unfold buildRepoIndex.
  destruct (buildRepoIndex_from_ok m orgs ∅ Hall Hnd) as (index & Hok & Hout & Hin).
  exists index. split; [exact Hok|]. split.
  - intros key. destruct (decide (key ∈ orgKey_string <$> orgs)) as [Hk|Hk].
    + split; [auto|intros _].
      apply list_elem_of_fmap in Hk as (k & -> & Hk).
      rewrite Forall_forall in Hall. destruct (Hall k Hk) as [repos Hr].
      rewrite (Hin k repos Hk Hr). eauto.
    + rewrite (Hout key Hk), lookup_empty. split; [intros [x Hx]; discriminate|tauto].
  - intros k repos Hk Hr. exists (byNameOf repos).
    split; [apply (Hin k repos Hk Hr)|]. apply byNameOf_spec.
Qed.

End RemoteIndex.

Lemma buildRepoIndex_complete_witness :
  exists index,
    repo.buildRepoIndex Fleet.manager [repo.mkOrgKey "gitea" "acme"] = Ok index
    /\ (forall key, is_Some (index !! key) <-> key ∈ ["gitea|acme"]).
Proof.
  destruct (buildRepoIndex_complete Fleet.manager [repo.mkOrgKey "gitea" "acme"])
    as (index & Hok & Hkeys & _).
  - constructor; [|constructor]. eexists. exists Fleet.gitea.
    split; reflexivity.
  - cbn. apply NoDup_singleton.
  - exists index. split; [exact Hok|exact Hkeys].
Defined.

(** ** The order of the status report *)
Section StatusOrder.
Import repo.

Lemma ascii_compare_refl (c : ascii) : Ascii.compare c c = Eq.
Proof. unfold Ascii.compare. apply N.compare_refl. Qed.

Lemma ascii_compare_lt_trans (a b c : ascii) :
  Ascii.compare a b = Lt -> Ascii.compare b c = Lt -> Ascii.compare a c = Lt.
Proof.
  unfold Ascii.compare. rewrite !N.compare_lt_iff. intros H1 H2.
  exact (N.lt_trans _ _ _ H1 H2).
Qed.

Lemma string_compare_refl (s : string) : String.compare s s = Eq.
Proof.
  induction s as [|c s IH]; [reflexivity|].
  cbn. rewrite ascii_compare_refl. exact IH.
Qed.

Lemma string_compare_lt_trans (a b c : string) :
  String.compare a b = Lt -> String.compare b c = Lt -> String.compare a c = Lt.
Proof.
  revert b c. induction a as [|x a IH]; intros [|y b] [|z c]; cbn;
    try discriminate; try reflexivity.
  destruct (Ascii.compare x y) eqn:Hxy; try discriminate;
    destruct (Ascii.compare y z) eqn:Hyz; try discriminate; intros H1 H2.
  - apply Ascii.compare_eq_iff in Hxy, Hyz. subst.
    rewrite ascii_compare_refl. exact (IH _ _ H1 H2).
  - apply Ascii.compare_eq_iff in Hxy. subst. rewrite Hyz. reflexivity.
  - apply Ascii.compare_eq_iff in Hyz. subst. rewrite Hxy. reflexivity.
  - rewrite (ascii_compare_lt_trans _ _ _ Hxy Hyz). reflexivity.
Qed.

(** The three-way comparison of two statuses by target name, then
    repository name. *)
Definition compareStatus (a b : RepoStatus) : comparison :=
  match String.compare (Target a) (Target b) with
  | Eq => String.compare (Name a) (Name b)
  | c => c
  end.

Lemma lessStatus_compare a b : lessStatus a b = true <-> compareStatus a b = Lt.
Proof.
  unfold lessStatus, compareStatus, String.ltb.
  destruct (String.eqb (Target a) (Target b)) eqn:He.
  - apply String.eqb_eq in He. rewrite He, string_compare_refl.
    destruct (String.compare (Name a) (Name b)); split; congruence.
  - apply String.eqb_neq in He.
    destruct (String.compare (Target a) (Target b)) eqn:Hc.
    + apply String.compare_eq_iff in Hc. contradiction.
    + tauto.
    + split; discriminate.
Qed.

Lemma compareStatus_antisym a b : compareStatus a b = CompOpp (compareStatus b a).
Proof.
  unfold compareStatus.
  rewrite (String.compare_antisym (Target b) (Target a)).
  rewrite (String.compare_antisym (Name b) (Name a)).
  destruct (String.compare (Target a) (Target b)); cbn;
    destruct (String.compare (Name a) (Name b)); reflexivity.
Qed.

Lemma compareStatus_lt_trans a b c :
  compareStatus a b = Lt -> compareStatus b c = Lt -> compareStatus a c = Lt.
Proof.
  unfold compareStatus.
  destruct (String.compare (Target a) (Target b)) eqn:Hab; try discriminate;
    destruct (String.compare (Target b) (Target c)) eqn:Hbc; try discriminate;
    intros H1 H2.
  - apply String.compare_eq_iff in Hab, Hbc. rewrite Hab, Hbc, string_compare_refl.
    exact (string_compare_lt_trans _ _ _ H1 H2).
  - apply String.compare_eq_iff in Hab. rewrite Hab, Hbc. reflexivity.
  - apply String.compare_eq_iff in Hbc. rewrite <- Hbc, Hab. reflexivity.
  - rewrite (string_compare_lt_trans _ _ _ Hab Hbc). reflexivity.
Qed.

Lemma compareStatus_eq_lt a b c :
  compareStatus a b = Eq -> compareStatus b c = Lt -> compareStatus a c = Lt.
Proof.
  unfold compareStatus.
  destruct (String.compare (Target a) (Target b)) eqn:Hab; try discriminate.
  intros Hn. apply String.compare_eq_iff in Hab, Hn. rewrite Hab, Hn. tauto.
Qed.

Lemma compareStatus_lt_eq a b c :
  compareStatus a b = Lt -> compareStatus b c = Eq -> compareStatus a c = Lt.
Proof.
  unfold compareStatus. intros H1.
  destruct (String.compare (Target b) (Target c)) eqn:Hbc; try discriminate.
  intros Hn. apply String.compare_eq_iff in Hbc, Hn. rewrite <- Hbc, <- Hn. exact H1.
Qed.

Lemma notAfter_compare a b : notAfter a b <-> compareStatus b a <> Lt.
Proof.
  unfold notAfter. rewrite <- not_true_iff_false, lessStatus_compare. reflexivity.
Qed.

#[local] Instance notAfter_total : Total notAfter.
Proof.
  intros a b. rewrite !notAfter_compare, (compareStatus_antisym b a).
  destruct (compareStatus a b); cbn; [left|left|right]; discriminate.
Qed.

#[local] Instance notAfter_trans : Transitive notAfter.
Proof.
  intros a b c. rewrite !notAfter_compare. intros Hab Hbc Hac. apply Hab.
  destruct (compareStatus c b) eqn:Hcb.
  - apply (compareStatus_eq_lt b c a); [|exact Hac].
    rewrite (compareStatus_antisym b c), Hcb. reflexivity.
  - contradiction.
  - apply (compareStatus_lt_trans b c a); [|exact Hac].
    rewrite (compareStatus_antisym b c), Hcb. reflexivity.
Qed.

Lemma sortStatuses_sorted statuses : StronglySorted notAfter (sortStatuses statuses).
Proof. unfold sortStatuses. apply StronglySorted_merge_sort; typeclasses eauto. Qed.

End StatusOrder.

(** ** Expansion of targets and the status run *)
Section Expansion.
Import repo.

(** What holds of the accumulators of the expansion loop over [targets]:
    the organization keys are distinct and are those recorded in the key
    set, every key and every job comes from one of the targets, and jobs
    never come without a key. *)
Record expanded (targets : list config.Target) (e : expansion) : Prop := mkExpanded {
  exp_keys_nodup : NoDup (orgKey_string <$> orgKeys e);
  exp_keyset : forall key, key ∈ orgKeySet e <-> key ∈ orgKey_string <$> orgKeys e;
  exp_keys_from :
    forall k, k ∈ orgKeys e ->
      exists t, t ∈ targets /\ k = mkOrgKey (config.ProviderName t) (config.Org t);
  exp_jobs_from :
    forall j, j ∈ jobs e ->
      exists t, t ∈ targets /\ job_target j = config.Name t
                /\ job_provider j = config.ProviderName t;
  exp_jobs_keys : jobs e <> [] -> orgKeys e <> []
}.

Lemma expanded_empty targets : expanded targets (mkExpansion [] [] ∅).
Proof.
  constructor; cbn.
  - constructor.
  - intros key. rewrite elem_of_empty. split; [contradiction|].
    intros H. apply elem_of_nil in H. contradiction.
  - intros k H. apply elem_of_nil in H. contradiction.
  - intros j H. apply elem_of_nil in H. contradiction.
  - contradiction.
Qed.

Lemma expanded_add targets e t js :
  expanded targets e -> t ∈ targets ->
  (forall j, j ∈ js -> job_target j = config.Name t
                       /\ job_provider j = config.ProviderName t) ->
  expanded targets (addOrgKey t (addJobs e js)).
Proof.
  intros [Hnd Hset Hkeys Hjobs Hjk] Ht Hjs.
  assert (Hjobs' : forall j, j ∈ jobs e ++ js ->
             exists t0, t0 ∈ targets /\ job_target j = config.Name t0
                        /\ job_provider j = config.ProviderName t0).
  { intros j Hj. apply elem_of_app in Hj as [Hj|Hj]; [auto|].
    exists t. split; [exact Ht|]. apply Hjs. exact Hj. }
  unfold addOrgKey. cbn [addJobs orgKeySet orgKeys jobs].
  destruct (bool_decide _) eqn:Hin.
  - apply bool_decide_eq_true in Hin.
    constructor; cbn; try assumption.
    intros _ Hnil. apply Hset in Hin. rewrite Hnil in Hin.
    apply elem_of_nil in Hin. exact Hin.
  - apply bool_decide_eq_false in Hin.
    constructor; cbn.
    + rewrite fmap_app. apply NoDup_app. split; [exact Hnd|]. split.
      * intros key Hkey Hkey'. cbn in Hkey'. apply list_elem_of_singleton in Hkey'.
        subst key. apply Hin, Hset. exact Hkey.
      * cbn. apply NoDup_singleton.
    + intros key. rewrite elem_of_union, elem_of_singleton, fmap_app, elem_of_app.
      cbn. rewrite list_elem_of_singleton, Hset. tauto.
    + intros k Hk. apply elem_of_app in Hk as [Hk|Hk]; [auto|].
      apply list_elem_of_singleton in Hk. exists t. auto.
    + exact Hjobs'.
    + intros _ Hnil. destruct (orgKeys e); discriminate.
Qed.

Lemma addJobs_addJobs e a b : addJobs (addJobs e a) b = addJobs e (a ++ b).
Proof. unfold addJobs. cbn. rewrite <- app_assoc. reflexivity. Qed.

Lemma addJobs_nil e : addJobs e [] = e.
Proof. destruct e. unfold addJobs. cbn. rewrite app_nil_r. reflexivity. Qed.

Lemma orgJobs_from os t entries j :
  j ∈ orgJobs os t entries ->
  job_target j = config.Name t /\ job_provider j = config.ProviderName t.
Proof.
  unfold orgJobs. intros H. apply list_elem_of_omap in H as (entry & _ & H).
  destruct (negb (entry_IsDir entry)); [discriminate|]. cbv zeta in H.
  destruct (negb (isGitRepo os _)); [discriminate|].
  injection H as <-. split; reflexivity.
Qed.

Lemma foldoutJobs_from os t repos j :
  j ∈ foldoutJobs os t repos ->
  job_target j = config.Name t /\ job_provider j = config.ProviderName t.
Proof.
  unfold foldoutJobs. intros H. apply list_elem_of_omap in H as (fr & _ & H).
  cbv zeta in H. destruct (isGitRepo os _); [|discriminate].
  injection H as <-. split; reflexivity.
Qed.

Lemma expandTarget_expanded os targets t e e' :
  expanded targets e -> t ∈ targets ->
  expandTarget os t e = Ok e' -> expanded targets e'.
Proof.
  intros He Ht. unfold expandTarget.
  destruct (String.eqb (config.Repo t) "").
  - destruct (Stat os (config.Path t)); try discriminate;
      (destruct (ReadDir os (config.Path t)) as [entries [err|]];
       intros H; injection H as <-; [exact He|];
       apply expanded_add; [exact He|exact Ht|apply orgJobs_from]).
  - set (self := mkStatusJob (config.Path t) (config.Name t) (config.Repo t)
                             (config.Org t) (config.ProviderName t)).
    assert (Hself : forall j, j ∈ [self] ->
              job_target j = config.Name t /\ job_provider j = config.ProviderName t).
    { intros j Hj. apply list_elem_of_singleton in Hj. subst j. split; reflexivity. }
    assert (Hall : forall fc (e1 : expansion),
              (e1 = e \/ e1 = addJobs e [self]) ->
              expanded targets
                (addOrgKey t match fc with
                             | Some fc => addJobs e1 (foldoutJobs os t (Repos fc))
                             | None => e1
                             end)).
    { intros fc e1 [-> | ->]; destruct fc as [fc|].
      - apply expanded_add; [exact He|exact Ht|apply foldoutJobs_from].
      - rewrite <- (addJobs_nil e) at 1. apply expanded_add; [exact He|exact Ht|].
        intros j Hj. apply elem_of_nil in Hj. contradiction.
      - rewrite addJobs_addJobs. apply expanded_add; [exact He|exact Ht|].
        intros j Hj. apply elem_of_app in Hj as [Hj|Hj];
          [apply Hself; exact Hj|apply (foldoutJobs_from _ _ _ _ Hj)].
      - apply expanded_add; [exact He|exact Ht|exact Hself]. }
    destruct (Stat os (config.Path t)); try discriminate;
      (destruct (loadFoldout os (config.Path t)) as [fc|err]; [|discriminate];
       intros H; injection H as <-; apply Hall;
       destruct (isGitRepo os (config.Path t)); auto).
Qed.

Lemma expandTargets_expanded os all targets e e' :
  (forall t, t ∈ targets -> t ∈ all) ->
  expanded all e -> expandTargets os targets e = Ok e' -> expanded all e'.
Proof.
  revert e. induction targets as [|t rest IH]; intros e Hsub He H.
  - cbn in H. injection H as <-. exact He.
  - cbn [expandTargets] in H.
    destruct (expandTarget os t e) as [e1|err] eqn:Ht; [|discriminate].
    apply (IH e1); [|apply (expandTarget_expanded os all t e e1 He); auto|exact H].
    + intros t0 Ht0. apply Hsub. apply list_elem_of_further. exact Ht0.
    + apply Hsub. apply list_elem_of_here.
Qed.

(** X8.  The expansion of a target list lists each (provider, organization) key
    once, however many targets share it, so each organization is listed
    remotely at most once in a run; every key and every job comes from one of
    the targets; and there is a key whenever there is a job. *)
Theorem expandTargets_keys_distinct os targets e :
  expandTargets os targets (mkExpansion [] [] ∅) = Ok e ->
  NoDup (orgKey_string <$> orgKeys e)
  /\ (forall k, k ∈ orgKeys e ->
        exists t, t ∈ targets /\ k = mkOrgKey (config.ProviderName t) (config.Org t))
  /\ (forall j, j ∈ jobs e ->
        exists t, t ∈ targets /\ job_target j = config.Name t
                  /\ job_provider j = config.ProviderName t)
  /\ (jobs e <> [] -> orgKeys e <> []).
Proof.
  intros H.
  destruct (expandTargets_expanded os targets targets _ e
              (fun t Ht => Ht) (expanded_empty targets) H)
    as [Hnd _ Hkeys Hjobs Hjk].
  auto.
Qed.

(** A target whose path does not exist, or a repository target whose
    manifest cannot be loaded, makes the expansion fail, wherever it stands
    in the list. *)
Definition unusable (os : OS) (t : config.Target) : Prop :=
  Stat os (config.Path t) = StatNotExist
  \/ (String.eqb (config.Repo t) "" = false
      /\ exists err, loadFoldout os (config.Path t) = Err err).

Lemma expandTargets_unusable os targets t e :
  t ∈ targets -> unusable os t ->
  exists err, expandTargets os targets e = Err err.
Proof.
  revert e. induction targets as [|t0 rest IH]; intros e Hin Hbad.
  - apply elem_of_nil in Hin. contradiction.
  - cbn [expandTargets].
    destruct (expandTarget os t0 e) as [e1|err] eqn:Ht0; [|eexists; reflexivity].
    apply elem_of_cons in Hin as [->|Hin]; [|apply IH; assumption].
    exfalso. unfold expandTarget in Ht0. destruct Hbad as [Hs|(Hr & err & Hl)].
    + rewrite Hs in Ht0. destruct (String.eqb (config.Repo t0) ""); discriminate.
    + rewrite Hr, Hl in Ht0. destruct (Stat os (config.Path t0)); discriminate.
Qed.

End Expansion.

Section StatusRunReport.
Import repo.

Lemma afterFetch_identity git path st :
  let s := afterFetch git path st in
  Path s = Path st /\ Target s = Target st /\ Provider s = Provider st
  /\ Org s = Org st /\ Name s = Name st.
Proof.
  cbv zeta. unfold afterFetch.
  destruct (gitOutput git path statusArgs) as [d|msg]; [|repeat split].
  cbn zeta.
  match goal with
  | |- Path (if 0 <? Behind ?x then _ else _) = _ /\ _ => set (s1 := x)
  end.
  assert (H : Path s1 = Path st /\ Target s1 = Target st /\ Provider s1 = Provider st
              /\ Org s1 = Org st /\ Name s1 = Name st).
  { subst s1. destruct (gitOutput git path _) as [revList|msg]; [|repeat split].
    destruct (scanCounts_fields revList
                (setDirty st (negb (String.eqb (GoStrings.TrimSpace d) ""))))
      as (H1 & H2 & H3 & H4 & H5 & _).
    auto. }
  destruct (0 <? Behind s1); exact H.
Qed.

(** A status names the job it was computed for. *)
Lemma statusOf_identity git job :
  let s := statusOf git job in
  Path s = job_path job /\ Target s = job_target job
  /\ Provider s = job_provider job /\ Org s = job_org job /\ Name s = job_name job.
Proof.
  cbv zeta. unfold statusOf. rewrite getRepoStatus_phases. cbv zeta.
  destruct (gitOutput git (job_path job) revParseArgs) as [branch|e];
    [|repeat split].
  match goal with
  | |- Path (afterFetch ?g ?p ?st) = _ /\ _ =>
      destruct (afterFetch_identity g p st) as (-> & -> & -> & -> & ->)
  end.
  unfold afterBranch. cbv zeta.
  destruct (negb (String.eqb (gitFetchWithStderr git (job_path job)) ""));
    repeat split.
Qed.

Lemma annotate_cases m keys statuses :
  annotate m keys statuses = statuses
  \/ exists index, annotate m keys statuses = markRemote index <$> statuses.
Proof.
  unfold annotate, markRemoteState.
  destruct (0 <? length keys)%nat; [|left; reflexivity].
  destruct (buildRepoIndex m keys) as [index|e]; [right; eauto|left; reflexivity].
Qed.

Lemma markRemote_identity index s :
  Path (markRemote index s) = Path s /\ Target (markRemote index s) = Target s
  /\ Provider (markRemote index s) = Provider s.
Proof.
  destruct (markRemote_spec index s) as [(H1 & H2 & H3 & _) _]. auto.
Qed.

Lemma annotate_elem m keys statuses s :
  s ∈ annotate m keys statuses ->
  exists s0, s0 ∈ statuses /\ Path s = Path s0 /\ Target s = Target s0
             /\ Provider s = Provider s0.
Proof.
  destruct (annotate_cases m keys statuses) as [->|[index ->]].
  - intros H. exists s. auto.
  - intros H. apply list_elem_of_fmap in H as (s0 & -> & H0).
    exists s0. split; [exact H0|]. apply markRemote_identity.
Qed.

Lemma annotate_paths m keys statuses :
  Path <$> annotate m keys statuses = Path <$> statuses.
Proof.
  destruct (annotate_cases m keys statuses) as [->|[index ->]]; [reflexivity|].
  rewrite <- list_fmap_compose. apply list_fmap_ext. intros i s _. cbn.
  apply markRemote_identity.
Qed.

(** The decomposition of a successful status run. *)
Lemma getAllStatuses_ok m w targets workers statuses :
  getAllStatuses m w targets workers = Ok statuses ->
  exists e,
    expandTargets (w_os w) targets (mkExpansion [] [] ∅) = Ok e
    /\ statuses
       = sortStatuses
           (annotate m (orgKeys e)
              (if (length (jobs e) =? 0)%nat then []
               else pool.Run (w_procs w) (w_sched w) (jobs e) workers
                      (statusOf (w_git w)))).
Proof.
  unfold getAllStatuses.
  destruct (expandTargets (w_os w) targets (mkExpansion [] [] ∅)) as [e|err];
    [|discriminate].
  intros H. exists e. split; [reflexivity|].
  destruct (length (jobs e) =? 0)%nat; injection H as <-; [|reflexivity].
  destruct (annotate_cases m (orgKeys e) []) as [->|[index ->]]; reflexivity.
Qed.

Lemma run_statuses_perm w e workers :
  (if (length (jobs e) =? 0)%nat then []
   else pool.Run (w_procs w) (w_sched w) (jobs e) workers (statusOf (w_git w)))
  ≡ₚ statusOf (w_git w) <$> jobs e.
Proof.
  destruct (length (jobs e) =? 0)%nat eqn:Hn.
  - apply Nat.eqb_eq in Hn. destruct (jobs e); [reflexivity|discriminate].
  - apply Run_Permutation.
Qed.

(** X9.  A successful status run reports every expanded working copy exactly
    once, in ascending order of target name and then repository name, and
    every status it returns belongs to one of the targets given. *)
Theorem status_run_report m w targets workers statuses :
  getAllStatuses m w targets workers = Ok statuses ->
  exists e,
    expandTargets (w_os w) targets (mkExpansion [] [] ∅) = Ok e
    /\ StronglySorted notAfter statuses
    /\ Path <$> statuses ≡ₚ job_path <$> jobs e
    /\ (forall s, s ∈ statuses ->
          exists t, t ∈ targets /\ Target s = config.Name t
                    /\ Provider s = config.ProviderName t).
Proof.
  intros H. apply getAllStatuses_ok in H as (e & He & ->).
  exists e. split; [exact He|]. split; [apply sortStatuses_sorted|].
  pose proof (expandTargets_expanded _ targets targets _ e
                (fun t Ht => Ht) (expanded_empty targets) He) as [_ _ _ Hjobs _].
  split.
  - rewrite sortStatuses_Permutation, annotate_paths, run_statuses_perm.
    rewrite <- list_fmap_compose.
    assert (Heq : Path ∘ statusOf (w_git w) <$> jobs e = job_path <$> jobs e).
    { apply list_fmap_ext. intros i j _. cbn. apply statusOf_identity. }
    rewrite Heq. reflexivity.
  - intros s Hs. rewrite sortStatuses_Permutation in Hs.
    apply annotate_elem in Hs as (s0 & Hs0 & _ & Ht & Hp).
    rewrite run_statuses_perm in Hs0.
    apply list_elem_of_fmap in Hs0 as (j & -> & Hj).
    destruct (Hjobs j Hj) as (t & Hin & Hjt & Hjp).
    destruct (statusOf_identity (w_git w) j) as (_ & Hst & Hsp & _).
    exists t. split; [exact Hin|]. split; congruence.
Qed.

(** X10.  When the listing of every organization touched by the targets succeeds,
    the status run returns the computed statuses annotated against the index
    of those listings. *)
Theorem status_run_annotated m w targets workers e :
  expandTargets (w_os w) targets (mkExpansion [] [] ∅) = Ok e ->
  Forall (fun k => exists repos, listingGives m k repos) (orgKeys e) ->
  exists index statuses,
    buildRepoIndex m (orgKeys e) = Ok index
    /\ getAllStatuses m w targets workers = Ok statuses
    /\ statuses ≡ₚ markRemote index <$> (statusOf (w_git w) <$> jobs e).
Proof.
  intros He Hall.
  pose proof (expandTargets_expanded _ targets targets _ e
                (fun t Ht => Ht) (expanded_empty targets) He) as [Hnd _ _ _ Hjk].
  destruct (buildRepoIndex_from_ok m (orgKeys e) ∅ Hall Hnd) as (index & Hidx & _).
  fold (buildRepoIndex m (orgKeys e)) in Hidx.
  exists index. unfold getAllStatuses. rewrite He.
  destruct (length (jobs e) =? 0)%nat eqn:Hn.
  - apply Nat.eqb_eq in Hn. destruct (jobs e); [|discriminate].
    exists []. split; [exact Hidx|]. split; reflexivity.
  - eexists. split; [exact Hidx|]. split; [reflexivity|].
    rewrite sortStatuses_Permutation. unfold annotate. rewrite Hidx.
    assert (Hk : (0 <? length (orgKeys e))%nat = true).
    { apply Nat.ltb_lt. destruct (orgKeys e) eqn:Hkeys; [|cbn; lia].
      exfalso. apply Hjk; [|reflexivity]. intros Hj. rewrite Hj in Hn. discriminate. }
    rewrite Hk. unfold markRemoteState. rewrite Run_Permutation. reflexivity.
Qed.

(** X11.  A target whose path does not exist, or a repository target whose
    manifest cannot be loaded, aborts the status run, and the push and sync
    runs over the same targets end with the same error. *)
Theorem status_run_aborts m w targets workers t :
  t ∈ targets -> unusable (w_os w) t ->
  exists err,
    getAllStatuses m w targets workers = Err err
    /\ forall targetNames,
         targetsFor m targetNames = Ok targets ->
         Push m w targetNames workers = Err err
         /\ Sync m w targetNames workers = Err err.
Proof.
  intros Hin Hbad.
  assert (Hs : exists err, getAllStatuses m w targets workers = Err err).
  { unfold getAllStatuses.
    destruct (expandTargets_unusable (w_os w) targets t (mkExpansion [] [] ∅) Hin Hbad)
      as [err ->].
    exists err. reflexivity. }
  destruct Hs as [err Hs]. exists err. split; [exact Hs|].
  intros targetNames Ht. unfold Push, Sync. rewrite Ht, Hs. split; reflexivity.
Qed.

Lemma optMap_fold_Some cfg targets (acc : gmap string config.ProviderOptions) n v :
  fold_left (fun acc t =>
               <[config.Name t := config.providerOptions cfg (config.ProviderName t)]> acc)
            targets acc !! n = Some v ->
  (exists t, t ∈ targets /\ config.Name t = n
             /\ v = config.providerOptions cfg (config.ProviderName t))
  \/ acc !! n = Some v.
Proof.
  revert acc. induction targets as [|t0 rest IH]; intros acc H; cbn in H.
  - right. exact H.
  - apply IH in H as [(t & Hin & Hn & Hv)|H].
    + left. exists t. split; [apply list_elem_of_further; exact Hin|auto].
    + apply lookup_insert_Some in H as [[Hk Hv]|[_ H]].
      * left. exists t0. split; [apply list_elem_of_here|auto].
      * right. exact H.
Qed.

Lemma optMap_fold_is_Some cfg targets (acc : gmap string config.ProviderOptions) n :
  n ∈ config.Name <$> targets ->
  is_Some (fold_left (fun acc t =>
                        <[config.Name t
                          := config.providerOptions cfg (config.ProviderName t)]> acc)
                     targets acc !! n).
Proof.
  revert acc. induction targets as [|t0 rest IH]; intros acc H.
  - apply elem_of_nil in H. contradiction.
  - cbn [fold_left]. rewrite fmap_cons in H.
    destruct (decide (n ∈ config.Name <$> rest)) as [Hr|Hr]; [apply IH; exact Hr|].
    apply elem_of_cons in H as [->|H]; [|contradiction].
    clear IH. revert acc. induction rest as [|t1 rest IH]; intros acc.
    + cbn. rewrite lookup_insert_eq. eauto.
    + cbn [fold_left]. rewrite fmap_cons in Hr.
      apply not_elem_of_cons in Hr as [Hne Hr].
      rewrite insert_insert_ne by congruence. apply IH. exact Hr.
Qed.

(** X12.  The options a sync run applies to a status are never the zero value
    for want of an entry: they are the provider options of a selected target
    that bears the status's target name. *)
Theorem Sync_options_of_target m w targets workers statuses s :
  getAllStatuses m w targets workers = Ok statuses ->
  s ∈ statuses ->
  exists t,
    t ∈ targets /\ config.Name t = Target s
    /\ optMapOf (config m) targets !! Target s
       = Some (config.providerOptions (config m) (config.ProviderName t)).
Proof.
  intros H Hs. apply getAllStatuses_ok in H as (e & He & ->).
  pose proof (expandTargets_expanded _ targets targets _ e
                (fun t Ht => Ht) (expanded_empty targets) He) as [_ _ _ Hjobs _].
  rewrite sortStatuses_Permutation in Hs.
  apply annotate_elem in Hs as (s0 & Hs0 & _ & Ht & _).
  rewrite run_statuses_perm in Hs0.
  apply list_elem_of_fmap in Hs0 as (j & -> & Hj).
  destruct (Hjobs j Hj) as (t & Hin & Hjt & _).
  destruct (statusOf_identity (w_git w) j) as (_ & Hst & _).
  assert (Hname : Target s ∈ config.Name <$> targets).
  { rewrite Ht, Hst, Hjt. apply list_elem_of_fmap_2. exact Hin. }
  destruct (optMap_fold_is_Some (config m) targets ∅ _ Hname) as [v Hv].
  fold (optMapOf (config m) targets) in Hv.
  pose proof Hv as Hv'. unfold optMapOf in Hv'.
  apply optMap_fold_Some in Hv' as [(t' & Hin' & Hn' & ->)|Hv'].
  - exists t'. auto.
  - rewrite lookup_empty in Hv'. discriminate.
Qed.

End StatusRunReport.

(** The fleet with a second target on the same organization, with a target
    whose path is missing, and with both providers answering. *)
Definition t_acme_again : config.Target :=
  config.mkTarget "rideshare-too" "gitea" "acme" "" "/w/acme".

Definition t_ghost : config.Target :=
  config.mkTarget "ghost" "gitea" "acme" "" "/w/ghost".

Definition github_up : remote.Client :=
  remote.mkClient
    (fun _ => Ok [remote.mkRepository 9 "app" "beta/app" "" "" "" "" "main"
                    false false false false])
    (fun _ _ => Ok None).

Definition manager_up : repo.Manager :=
  repo.mkManager {[ "gitea" := Fleet.gitea; "github" := github_up ]} Fleet.cfg.

Definition fleet_expansion : repo.expansion :=
  repo.mkExpansion
    [repo.mkStatusJob "/w/acme/old" "rideshare" "old" "acme" "gitea";
     repo.mkStatusJob "/w/app" "mobile" "app" "beta" "github";
     repo.mkStatusJob "/w/app/api" "mobile" "mobile-api" "beta" "github"]
    [repo.mkOrgKey "gitea" "acme"; repo.mkOrgKey "github" "beta"]
    {[ "github|beta"; "gitea|acme" ]}.

Example expandTargets_fleet :
  repo.expandTargets Fleet.os [Fleet.t_acme; Fleet.t_app] (repo.mkExpansion [] [] ∅)
  = Ok fleet_expansion.
Proof. vm_compute. reflexivity. Qed.

Example expandTargets_shared_org :
  repo.orgKeys
    match repo.expandTargets Fleet.os [Fleet.t_acme; t_acme_again]
            (repo.mkExpansion [] [] ∅) with
    | Ok e => e
    | Err _ => repo.mkExpansion [] [] ∅
    end
  = [repo.mkOrgKey "gitea" "acme"].
Proof. vm_compute. reflexivity. Qed.

Lemma expandTargets_keys_distinct_witness :
  NoDup (repo.orgKey_string <$> repo.orgKeys fleet_expansion)
  /\ (repo.jobs fleet_expansion <> [] -> repo.orgKeys fleet_expansion <> []).
Proof.
  destruct (expandTargets_keys_distinct Fleet.os [Fleet.t_acme; Fleet.t_app]
              fleet_expansion expandTargets_fleet) as (Hnd & _ & _ & Hjk).
  split; [exact Hnd|exact Hjk].
Defined.

Lemma status_run_report_witness :
  exists e,
    repo.expandTargets Fleet.os [Fleet.t_acme; Fleet.t_app] (repo.mkExpansion [] [] ∅)
    = Ok e
    /\ StronglySorted repo.notAfter fleet_statuses
    /\ repo.Path <$> fleet_statuses ≡ₚ repo.job_path <$> repo.jobs e.
Proof.
  destruct (status_run_report Fleet.manager Fleet.world [Fleet.t_acme; Fleet.t_app] 0
              fleet_statuses getAllStatuses_fleet) as (e & He & Hs & Hp & _).
  exists e. auto.
Defined.

Lemma status_run_annotated_witness :
  exists index statuses,
    repo.buildRepoIndex manager_up (repo.orgKeys fleet_expansion) = Ok index
    /\ repo.getAllStatuses manager_up Fleet.world [Fleet.t_acme; Fleet.t_app] 0
       = Ok statuses
    /\ statuses ≡ₚ repo.markRemote index
                     <$> (repo.statusOf Fleet.git <$> repo.jobs fleet_expansion).
Proof.
  apply (status_run_annotated manager_up Fleet.world [Fleet.t_acme; Fleet.t_app] 0
           fleet_expansion expandTargets_fleet).
  repeat constructor.
  - eexists. exists Fleet.gitea. split; reflexivity.
  - eexists. exists github_up. split; reflexivity.
Defined.

Example getAllStatuses_annotated_fleet :
  repo.getAllStatuses manager_up Fleet.world [Fleet.t_acme; Fleet.t_app] 0
  = Ok [repo.mkRepoStatus "/w/app" "mobile" "github" "beta" "app" "main"
          false 0 1 true false false "" "";
        repo.mkRepoStatus "/w/app/api" "mobile" "github" "beta" "mobile-api" ""
          false 0 0 false false true "" "getting branch: exit status 128";
        repo.mkRepoStatus "/w/acme/old" "rideshare" "gitea" "acme" "old" "main"
          false 0 1 true true false "" ""].
Proof. vm_compute. reflexivity. Qed.

(** The fleet's manager with the target whose path is missing among its
    targets. *)
Definition manager_ghost : repo.Manager :=
  repo.mkManager (repo.providers Fleet.manager)
    (config.mkConfig 0 (config.Providers Fleet.cfg) [Fleet.t_acme; t_ghost]).

Definition ghost_error : string :=
  "target " +:+ repo.fmt_q "ghost" +:+ " path does not exist: /w/ghost".

(** The status, push and sync runs of that manager end with the error, and
    so do the runs that select the target by name. *)
Example ghost_runs :
  repo.getAllStatuses manager_ghost Fleet.world [Fleet.t_acme; t_ghost] 0
  = Err ghost_error
  /\ repo.Push manager_ghost Fleet.world [] 0 = Err ghost_error
  /\ repo.Sync manager_ghost Fleet.world [] 0 = Err ghost_error
  /\ repo.Push manager_ghost Fleet.world ["ghost"] 0 = Err ghost_error
  /\ repo.Sync manager_ghost Fleet.world ["ghost"] 0 = Err ghost_error.
Proof. repeat split; vm_compute; reflexivity. Qed.

(** The fleet with the malformed manifest. *)
Definition world_malformed : repo.World :=
  repo.mkWorld Fleet.os_malformed Fleet.git 4%positive [].

Example malformed_runs :
  exists err,
    repo.loadFoldout Fleet.os_malformed "/w/app" = Err err
    /\ repo.getAllStatuses Fleet.manager world_malformed [Fleet.t_acme; Fleet.t_app] 0
       = Err err
    /\ repo.Push Fleet.manager world_malformed [] 0 = Err err
    /\ repo.Sync Fleet.manager world_malformed ["mobile"] 0 = Err err.
Proof. eexists. repeat split; vm_compute; reflexivity. Qed.

Lemma status_run_aborts_witness :
  (exists err,
     repo.getAllStatuses manager_ghost Fleet.world [Fleet.t_acme; t_ghost] 0 = Err err
     /\ repo.Push manager_ghost Fleet.world [] 0 = Err err
     /\ repo.Sync manager_ghost Fleet.world [] 0 = Err err)
  /\ (exists err,
        repo.getAllStatuses Fleet.manager world_malformed [Fleet.t_acme; Fleet.t_app] 0
        = Err err
        /\ repo.Push Fleet.manager world_malformed [] 0 = Err err
        /\ repo.Sync Fleet.manager world_malformed [] 0 = Err err).
Proof.
  split.
  - destruct (status_run_aborts manager_ghost Fleet.world [Fleet.t_acme; t_ghost] 0
                t_ghost (list_elem_of_further _ _ _ (list_elem_of_here _ _))
                (or_introl eq_refl))
      as (err & Hs & Hruns).
    exists err. split; [exact Hs|]. exact (Hruns [] eq_refl).
  - destruct (status_run_aborts Fleet.manager world_malformed
                [Fleet.t_acme; Fleet.t_app] 0 Fleet.t_app
                (list_elem_of_further _ _ _ (list_elem_of_here _ _))
                (or_intror (conj eq_refl (ex_intro _ _ eq_refl))))
      as (err & Hs & Hruns).
    exists err. split; [exact Hs|]. exact (Hruns [] eq_refl).
Defined.

Lemma Sync_options_of_target_witness :
  exists t,
    t ∈ [Fleet.t_acme; Fleet.t_app]
    /\ config.Name t = "mobile"
    /\ repo.optMapOf Fleet.cfg [Fleet.t_acme; Fleet.t_app] !! "mobile"
       = Some (config.providerOptions Fleet.cfg (config.ProviderName t)).
Proof.
  apply (Sync_options_of_target Fleet.manager Fleet.world
           [Fleet.t_acme; Fleet.t_app] 0 fleet_statuses
           (repo.mkRepoStatus "/w/app" "mobile" "github" "beta" "app" "main"
              false 0 1 true false false "" "")
           getAllStatuses_fleet).
  apply list_elem_of_here.
Defined.

(** ** More of the status engine *)
Section StatusEngineMore.
Import repo.

Definition revListArgs (branch : string) : list string :=
  ["rev-list"; "--left-right"; "--count"; branch +:+ "..." +:+ "origin/" +:+ branch].

(** The upstream lookup gave nothing to count: the command failed, or its
    output does not consist of exactly two fields. *)
Definition noCounts (git : Git) (path branch : string) : Prop :=
  match gitOutput git path (revListArgs branch) with
  | Err _ => True
  | Ok out => length (GoStrings.Fields (GoStrings.TrimSpace out)) <> 2%nat
  end.

(** X13.  A branch whose upstream cannot be counted against (no such upstream
    branch, say) is reported as if it were in step with it: no fatal error,
    ahead 0, behind 0, fast-forward possible; the dirty flag is still that of
    the working copy. *)
Theorem upstream_lookup_tolerated git path target org name provider branch d :
  gitOutput git path revParseArgs = Ok branch ->
  gitOutput git path statusArgs = Ok d ->
  noCounts git path (GoStrings.TrimSpace branch) ->
  let s := getRepoStatus git path target org name provider in
  Error s = "" /\ Ahead s = 0 /\ Behind s = 0 /\ CanFastForward s = true
  /\ Dirty s = negb (String.eqb (GoStrings.TrimSpace d) "")
  /\ Branch s = GoStrings.TrimSpace branch.
Proof.
  intros Hb Hd Hn. cbv zeta. rewrite getRepoStatus_phases. cbv zeta. rewrite Hb.
  unfold afterFetch. rewrite Hd. cbn zeta.
  set (st := afterBranch git path _ branch).
  assert (Hst : Branch st = GoStrings.TrimSpace branch /\ Ahead st = 0
                /\ Behind st = 0 /\ Error st = "").
  { subst st. unfold afterBranch. cbv zeta.
    destruct (negb (String.eqb (gitFetchWithStderr git path) "")); repeat split. }
  destruct Hst as (Hbr & Ha & Hbe & He).
  change (Branch (setDirty st _)) with (Branch st). rewrite Hbr.
  unfold noCounts, revListArgs in Hn.
  assert (Hs : match gitOutput git path
                       ["rev-list"; "--left-right"; "--count";
                        GoStrings.TrimSpace branch +:+ "..." +:+ "origin/"
                        +:+ GoStrings.TrimSpace branch] with
               | Ok revList =>
                   scanCounts revList
                     (setDirty st (negb (String.eqb (GoStrings.TrimSpace d) "")))
               | Err _ => setDirty st (negb (String.eqb (GoStrings.TrimSpace d) ""))
               end
               = setDirty st (negb (String.eqb (GoStrings.TrimSpace d) ""))).
  { destruct (gitOutput git path
                ["rev-list"; "--left-right"; "--count";
                 GoStrings.TrimSpace branch +:+ "..." +:+ "origin/"
                 +:+ GoStrings.TrimSpace branch]) as [out|e]; [|reflexivity].
    unfold scanCounts.
    destruct (GoStrings.Fields (GoStrings.TrimSpace out)) as [|p0 [|p1 [|p2 ps]]];
      try reflexivity.
    exfalso. apply Hn. reflexivity. }
  rewrite Hs. cbn [Behind setDirty]. rewrite Hbe. cbn.
  repeat split; assumption.
Qed.

Lemma firstLine_empty (s : string) :
  (s = EmptyString \/ exists c t, s = String c t /\ GoStrings.isSpace c = false) ->
  firstLine s = EmptyString <-> s = EmptyString.
Proof.
  intros [->|(c & t & -> & Hc)]; [tauto|].
  cbn. rewrite (isSpace_newline c Hc). split; discriminate.
Qed.

(** X14.  The fetch leaves a message exactly when it failed and wrote something
    other than white space to its standard error: a fetch that fails
    silently is indistinguishable, in the status, from one that succeeds. *)
Theorem fetch_message_empty git path stderr err :
  cmd_RunStderr git path fetchArgs = (stderr, err) ->
  gitFetchWithStderr git path = ""
  <-> err = None \/ GoStrings.TrimSpace stderr = "".
Proof.
  intros H. unfold gitFetchWithStderr. fold fetchArgs. rewrite H.
  destruct err as [e|].
  - rewrite cut_is_firstLine, (firstLine_empty _ (TrimSpace_head stderr)).
    split; [auto|]. intros [Hn|Hs]; [discriminate|exact Hs].
  - split; auto.
Qed.

End StatusEngineMore.

(** A branch without upstream, and a fetch that fails without a word. *)
Definition git_no_upstream : repo.Git :=
  Scenario.gitWith (Ok ("topic" +:+ repo.nl)) (Ok (" M file" +:+ repo.nl))
                   (Err "exit status 128") false
                   (repo.nl, Some "exit status 1") (fun _ => None).

Example getRepoStatus_no_upstream :
  repo.getRepoStatus git_no_upstream "/w/x" "t" "acme" "x" "gitea"
  = repo.mkRepoStatus "/w/x" "t" "gitea" "acme" "x" "topic" true 0 0 true
      false false "" "".
Proof. vm_compute. reflexivity. Qed.

Lemma upstream_lookup_tolerated_witness :
  let s := repo.getRepoStatus git_no_upstream "/w/x" "t" "acme" "x" "gitea" in
  repo.Error s = "" /\ repo.Ahead s = 0 /\ repo.Behind s = 0
  /\ repo.CanFastForward s = true
  /\ repo.Dirty s = negb (String.eqb (GoStrings.TrimSpace (" M file" +:+ repo.nl)) "")
  /\ repo.Branch s = GoStrings.TrimSpace ("topic" +:+ repo.nl).
Proof.
  apply (upstream_lookup_tolerated git_no_upstream "/w/x" "t" "acme" "x" "gitea"
           ("topic" +:+ repo.nl) (" M file" +:+ repo.nl)).
  - reflexivity.
  - reflexivity.
  - exact I.
Defined.

Lemma fetch_message_empty_witness :
  repo.gitFetchWithStderr git_no_upstream "/w/x" = "".
Proof.
  apply (fetch_message_empty git_no_upstream "/w/x" repo.nl (Some "exit status 1")
           eq_refl).
  right. reflexivity.
Defined.

(** ** More of the foldout resolver *)
Section FoldoutMore.
Import repo.

Lemma defaultTargets_post repos rs :
  defaultTargets repos = Ok rs ->
  Forall (fun r => twoSegments (fr_Name r)
                   /\ (fr_Target r = "" -> trailingSegment (fr_Name r) = "")) rs
  /\ defaultTargets rs = Ok rs.
Proof.
  revert rs. induction repos as [|r rest IH]; intros rs H; cbn [defaultTargets] in H.
  - injection H as <-. split; [constructor|reflexivity].
  - destruct (length (GoStrings.Split (fr_Name r) "/") =? 2)%nat eqn:Hlen;
      cbn [negb] in H; [|discriminate].
    destruct (defaultTargets rest) as [rs0|e]; [|discriminate].
    injection H as <-. destruct (IH rs0 eq_refl) as [Hall Hfix].
    apply Nat.eqb_eq in Hlen.
    destruct (String.eqb (fr_Target r) "") eqn:Ht.
    + split.
      * constructor; [|exact Hall]. cbn. split; [exact Hlen|]. auto.
      * cbn [defaultTargets fr_Name fr_Target]. rewrite Hlen, Hfix. cbn [Nat.eqb negb].
        destruct (String.eqb (List.last (GoStrings.Split (fr_Name r) "/") "") "") eqn:Hl;
          reflexivity.
    + apply String.eqb_neq in Ht. split.
      * constructor; [|exact Hall]. split; [exact Hlen|]. contradiction.
      * cbn [defaultTargets]. rewrite Hlen, Hfix. cbn [Nat.eqb negb].
        apply String.eqb_neq in Ht. rewrite Ht. reflexivity.
Qed.

(** X15.  Every entry of a loaded manifest has a name of exactly two segments, so
    that the callers' [parts[0]] and [parts[1]] are always in range; an entry
    is left without target directory only when its name ends in a slash; and
    defaulting a loaded manifest again changes nothing. *)
Theorem loadFoldout_entries os path fc :
  loadFoldout os path = Ok (Some fc) ->
  Forall (fun r => twoSegments (fr_Name r)
                   /\ (fr_Target r = "" -> trailingSegment (fr_Name r) = ""))
         (Repos fc)
  /\ defaultTargets (Repos fc) = Ok (Repos fc).
Proof.
  unfold loadFoldout.
  destruct (ReadFile os _) as [data| |msg]; try discriminate.
  destruct (Unmarshal os data) as [fc0|msg]; [|discriminate].
  destruct (defaultTargets (Repos fc0)) as [rs|e] eqn:Hd; [|discriminate].
  intros H. injection H as <-. cbn [Repos]. apply (defaultTargets_post _ _ Hd).
Qed.

End FoldoutMore.

Lemma loadFoldout_entries_witness :
  Forall (fun r => twoSegments (repo.fr_Name r)
                   /\ (repo.fr_Target r = "" -> trailingSegment (repo.fr_Name r) = ""))
         [repo.mkFoldoutRepo "beta/mobile-api" "api";
          repo.mkFoldoutRepo "beta/mobile-infra" "mobile-infra"].
Proof.
  apply (proj1 (loadFoldout_entries Fleet.os "/w/app" _ loadFoldout_fleet)).
Defined.

(** ** The counters of a pull run *)
Section PullCounts.
Import repo.

(** The pull of job [j] succeeds: [git pull], with [--ff-only] when the job
    has the flag, run in the job's path, exits without error. *)
Definition pullSucceeds (git : Git) (j : pullJob) : Prop :=
  cmd_CombinedOutput git (pj_path j)
    (if pj_ffOnly j then ["pull"; "--ff-only"] else ["pull"]) = None.

#[local] Instance pullSucceeds_dec git j : Decision (pullSucceeds git j).
Proof. unfold pullSucceeds. apply _. Defined.

Definition cloned (r : cloneResult) : Prop := status r = "cloned".

#[local] Instance cloned_dec r : Decision (cloned r).
Proof. unfold cloned. apply _. Defined.

Lemma reportPull_counts st r :
  nOk (reportPull st r) = nOk st + (if decide (cloned r) then 1 else 0)
  /\ nFailed (reportPull st r) = nFailed st + (if decide (cloned r) then 0 else 1)
  /\ nSkipped (reportPull st r) = nSkipped st.
Proof.
  unfold reportPull. destruct (decide (cloned r)) as [Hc|Hc]; unfold cloned in Hc.
  - rewrite Hc. cbn. lia.
  - apply String.eqb_neq in Hc. rewrite Hc. cbn. lia.
Qed.

Lemma fold_reportPull_counts rs st :
  nOk (fold_left reportPull rs st)
  = nOk st + Z.of_nat (length (filter cloned rs))
  /\ nFailed (fold_left reportPull rs st)
     = nFailed st + Z.of_nat (length (filter (fun r => ~ cloned r) rs))
  /\ nSkipped (fold_left reportPull rs st) = nSkipped st.
Proof.
  revert st. induction rs as [|r rs IH]; intros st.
  - cbn. lia.
  - cbn [fold_left]. destruct (IH (reportPull st r)) as (H1 & H2 & H3).
    destruct (reportPull_counts st r) as (R1 & R2 & R3).
    rewrite H1, H2, H3, R1, R2, R3.
    destruct (decide (cloned r)) as [Hc|Hc].
    + rewrite (filter_cons_True cloned) by exact Hc.
      rewrite (filter_cons_False (fun r => ~ cloned r)) by tauto.
      cbn [length]. lia.
    + rewrite (filter_cons_False cloned) by exact Hc.
      rewrite (filter_cons_True (fun r => ~ cloned r)) by exact Hc.
      cbn [length]. lia.
Qed.

Lemma length_filter_fmap {A B} (f : A -> B) (P : B -> Prop) (Q : A -> Prop)
    `{forall y, Decision (P y)} `{forall x, Decision (Q x)} (l : list A) :
  (forall x, P (f x) <-> Q x) ->
  length (filter P (f <$> l)) = length (filter Q l).
Proof.
  intros HPQ. induction l as [|x l IH]; [reflexivity|]. rewrite fmap_cons.
  destruct (decide (Q x)) as [Hq|Hq].
  - rewrite (filter_cons_True P), (filter_cons_True Q); [|exact Hq|apply HPQ; exact Hq].
    cbn [length]. rewrite IH. reflexivity.
  - rewrite (filter_cons_False P), (filter_cons_False Q);
      [exact IH|exact Hq|rewrite HPQ; exact Hq].
Qed.

Lemma pullOne_cloned git j : cloned (snd (pullOne git j)) <-> pullSucceeds git j.
Proof.
  rewrite pullOne_call. unfold cloned, pullSucceeds, pullAnswer. cbn [snd].
  destruct (cmd_CombinedOutput git (pj_path j) _); cbn; split; congruence.
Qed.

(** X16.  A pull run whose targets resolve and expand to pull jobs always
    completes, however many of its pulls fail, and its counters partition
    the jobs: [pulled] is the number of jobs whose [git pull] exited
    without error, [failed] the number of those whose pull exited with an
    error, and nothing is ever skipped. *)
Theorem Pull_counts m w targetNames workers targets js :
  targetsFor m targetNames = Ok targets ->
  pullJobs (w_os w) (config m) targets [] = Ok js ->
  exists st,
    Pull m w targetNames workers = Ok st
    /\ nOk st = Z.of_nat (length (filter (pullSucceeds (w_git w)) js))
    /\ nFailed st
       = Z.of_nat (length (filter (fun j => ~ pullSucceeds (w_git w) j) js))
    /\ nOk st + nFailed st = Z.of_nat (length js)
    /\ nSkipped st = 0.
Proof.
  unfold Pull. intros Ht Hj. rewrite Ht, Hj.
  assert (Hsplit : (length (filter (pullSucceeds (w_git w)) js)
                    + length (filter (fun j => ~ pullSucceeds (w_git w) j) js))%nat
                   = length js).
  { rewrite <- length_app. apply Permutation_length, filter_app_complement. }
  destruct (length js =? 0)%nat eqn:Hn.
  - apply Nat.eqb_eq in Hn. destruct js; [|discriminate].
    eexists. split; [reflexivity|]. cbn. repeat split.
  - eexists. split; [reflexivity|]. cbn [nOk nFailed nSkipped say].
    match goal with
    | |- context [fold_left reportPull ?rs ?st0] =>
        destruct (fold_reportPull_counts rs st0) as (H1 & H2 & H3)
    end.
    rewrite H1, H2, H3. cbn [nOk nFailed nSkipped].
    assert (Hperm := Run_Permutation (w_procs w) (pullOne (w_git w)) (w_sched w) js workers).
    assert (Hc : length (filter cloned
                   (snd <$> pool.Run (w_procs w) (w_sched w) js workers
                                     (pullOne (w_git w))))
                 = length (filter (pullSucceeds (w_git w)) js)).
    { rewrite Hperm, <- list_fmap_compose.
      apply length_filter_fmap. intros j. apply pullOne_cloned. }
    assert (Hf : length (filter (fun r => ~ cloned r)
                   (snd <$> pool.Run (w_procs w) (w_sched w) js workers
                                     (pullOne (w_git w))))
                 = length (filter (fun j => ~ pullSucceeds (w_git w) j) js)).
    { rewrite Hperm, <- list_fmap_compose.
      apply length_filter_fmap. intros j.
      change ((snd ∘ pullOne (w_git w)) j) with (snd (pullOne (w_git w) j)).
      rewrite pullOne_cloned. tauto. }
    rewrite Hc, Hf. repeat split; lia.
Qed.

End PullCounts.

(** The fleet with a foldout whose pull fails. *)
Definition git_api_pull_fails : repo.Git :=
  repo.mkGit (repo.cmd_Output Fleet.git) (repo.cmd_Run Fleet.git)
    (repo.cmd_RunStderr Fleet.git)
    (fun path _ => if String.eqb path "/w/app/api" then Some "exit status 1" else None).

Definition world_pull_fails : repo.World :=
  repo.mkWorld Fleet.os git_api_pull_fails 4%positive [].

Definition fleet_pull_jobs : list repo.pullJob :=
  [repo.mkPullJob "/w/acme/old" true; repo.mkPullJob "/w/app" false;
   repo.mkPullJob "/w/app/api" false].

Example Pull_fleet_one_fails :
  repo.Pull Fleet.manager world_pull_fails [] 0
  = Ok (repo.mkTally
          [("/w/acme/old", ["pull"; "--ff-only"]); ("/w/app", ["pull"]);
           ("/w/app/api", ["pull"])]
          ["  [PULL]  /w/acme/old"; "  [PULL]  /w/app";
           "  [ERROR] /w/app/api: exit status 1";
           "Pull complete: 2 pulled, 1 failed"]
          2 0 1).
Proof. vm_compute. reflexivity. Qed.

Lemma Pull_counts_witness :
  exists st,
    repo.Pull Fleet.manager world_pull_fails [] 0 = Ok st
    /\ repo.nOk st = 2 /\ repo.nFailed st = 1
    /\ repo.nOk st + repo.nFailed st = 3 /\ repo.nSkipped st = 0.
Proof.
  exact (Pull_counts Fleet.manager world_pull_fails [] 0
           [Fleet.t_acme; Fleet.t_app] fleet_pull_jobs eq_refl eq_refl).
Defined.

(** * Package [config]: reading, validating and migrating a configuration

    The JSON decoders, the home directory and [filepath.Join] belong to the
    environment; so does the order in which [range] visits the keys of the
    provider map, which Go leaves unspecified. *)
Module configRead.
Import config.

(** [versionProbe]; of the providers only their being nil or not is kept. *)
Record versionProbe : Type := mkVersionProbe {
  probe_Version : Z;
  probe_Providers : option (gset string);
  probe_GiteaURL : string
}.

Record OrganizationV1 : Type := mkOrganizationV1 {
  org_Name : string;
  org_Path : string
}.

Record ConfigV1 : Type := mkConfigV1 {
  GiteaURL : string;
  GiteaToken : string;
  Organizations : list OrganizationV1
}.

Record Env : Type := mkEnv {
  UserHomeDir : result string;
  filepath_Join : string -> string -> string;
  unmarshalProbe : string -> result versionProbe;
  unmarshalV1 : string -> result ConfigV1;
  unmarshalV2 : string -> result Config;
  rangeOrder : gmap string Provider -> list string
}.

Record LoadResult : Type := mkLoadResult {
  lr_Config : Config;
  lr_Version : Z;
  lr_IsDeprecated : bool;
  lr_ConfigPath : string
}.

(** [strings.TrimSuffix] *)
Fixpoint TrimSuffix (s suffix : string) : string :=
  if String.eqb s suffix then ""
  else match s with
       | EmptyString => ""
       | String c s' => String c (TrimSuffix s' suffix)
       end.

Definition dropTwo (s : string) : string :=
  match s with
  | String _ (String _ rest) => rest
  | _ => ""
  end.

(** [expandPath] *)
Definition expandPath (env : Env) (path : string) : string :=
  if String.prefix "~/" path then
    match UserHomeDir env with
    | Ok home => filepath_Join env home (dropTwo path)
    | Err _ => path
    end
  else path.

Definition setAPIURL (p : Provider) (u : string) : Provider :=
  mkProvider (Type_ p) u (Token p) (Options p).

Definition setProtocol (p : Provider) (proto : string) : Provider :=
  mkProvider (Type_ p) (APIURL p) (Token p)
    (mkProviderOptions (mkCloneOptions proto) (Sync (Options p))).

(** The body of the loop over the providers: the provider as it is stored
    back, or the error. *)
Definition checkProvider (name : string) (p : Provider) : result Provider :=
  if negb (String.eqb (Type_ p) "gitea") && negb (String.eqb (Type_ p) "github") then
    Err ("provider " +:+ repo.fmt_q name +:+ " has unsupported type "
         +:+ repo.fmt_q (Type_ p))
  else if String.eqb (Type_ p) "gitea" && String.eqb (APIURL p) "" then
    Err ("provider " +:+ repo.fmt_q name +:+ " (gitea) requires api_url")
  else
    let p := if String.eqb (Type_ p) "github" && String.eqb (APIURL p) ""
             then setAPIURL p "https://api.github.com" else p in
    if String.eqb (Token p) "" then
      Err ("provider " +:+ repo.fmt_q name +:+ " requires token")
    else
      let p := if String.eqb (Protocol (Clone (Options p))) ""
               then setProtocol p "https" else p in
      Ok p.

(** The loop over the providers, the keys visited in the order [names]. *)
Fixpoint checkProviders (names : list string) (ps : gmap string Provider)
    : result (gmap string Provider) :=
  match names with
  | [] => Ok ps
  | name :: rest =>
      match ps !! name with
      | None => checkProviders rest ps
      | Some p =>
          match checkProvider name p with
          | Err e => Err e
          | Ok p' => checkProviders rest (<[name := p']> ps)
          end
      end
  end.

Definition setPath (t : Target) (p : string) : Target :=
  mkTarget (Name t) (ProviderName t) (Org t) (Repo t) p.

Definition setName (t : Target) (n : string) : Target :=
  mkTarget n (ProviderName t) (Org t) (Repo t) (Path t).

(** The loop over the targets, from index [i] on, [nameSet] holding the
    names seen so far. *)
Fixpoint checkTargets (env : Env) (ps : gmap string Provider) (i : Z)
    (ts : list Target) (nameSet : gset string) : result (list Target) :=
  match ts with
  | [] => Ok []
  | t :: rest =>
      if String.eqb (ProviderName t) "" then
        Err ("target " +:+ GoStrings.fmt_d i +:+ " missing provider")
      else
        match ps !! ProviderName t with
        | None =>
            Err ("target " +:+ GoStrings.fmt_d i +:+ " references unknown provider "
                 +:+ repo.fmt_q (ProviderName t))
        | Some _ =>
            if String.eqb (Org t) "" then
              Err ("target " +:+ GoStrings.fmt_d i +:+ " missing org")
            else if String.eqb (Path t) "" then
              Err ("target " +:+ Org t +:+ " missing path")
            else
              let t := setPath t (expandPath env (Path t)) in
              let t := if String.eqb (Name t) "" then
                         if negb (String.eqb (Repo t) "") then setName t (Repo t)
                         else setName t (Org t)
                       else t in
              if bool_decide (Name t ∈ nameSet) then
                Err ("duplicate target name " +:+ repo.fmt_q (Name t))
              else
                match checkTargets env ps (i + 1) rest ({[ Name t ]} ∪ nameSet) with
                | Err e => Err e
                | Ok rest' => Ok (t :: rest')
                end
        end
  end.

(** [validateAndNormalizeV2]: the configuration as the call leaves it when
    it returns nil, or the error. *)
Definition validateAndNormalizeV2 (env : Env) (cfg : Config) : result Config :=
  if (size (Providers cfg) =? 0)%nat then
    Err "at least one provider must be configured"
  else
    match checkProviders (rangeOrder env (Providers cfg)) (Providers cfg) with
    | Err e => Err e
    | Ok ps =>
        if (length (Targets cfg) =? 0)%nat then
          Err "at least one target must be configured"
        else
          match checkTargets env ps 0 (Targets cfg) ∅ with
          | Err e => Err e
          | Ok ts => Ok (mkConfig (Workers cfg) ps ts)
          end
    end.

(** [ReadV2] *)
Definition ReadV2 (env : Env) (data : string) : result Config :=
  match unmarshalV2 env data with
  | Err e => Err ("parsing v2 config: " +:+ e)
  | Ok cfg => validateAndNormalizeV2 env cfg
  end.

(** [migrateV1toV2] *)
Definition migrateV1toV2 (env : Env) (v1 : ConfigV1) : Config :=
  let apiURL := TrimSuffix (GiteaURL v1) "/" in
  mkConfig 0
    {[ "gitea" := mkProvider "gitea" apiURL (GiteaToken v1)
                    (mkProviderOptions (mkCloneOptions "https") (mkSyncOptions None)) ]}
    ((fun org => mkTarget (org_Name org) "gitea" (org_Name org) ""
                   (expandPath env (org_Path org)))
       <$> Organizations v1).

(** [ReadV1] *)
Definition ReadV1 (env : Env) (data : string) : result Config :=
  match unmarshalV1 env data with
  | Err e => Err ("parsing v1 config: " +:+ e)
  | Ok v1 =>
      if String.eqb (GiteaURL v1) "" then Err "gitea_url is required"
      else if String.eqb (GiteaToken v1) "" then Err "gitea_token is required"
      else if (length (Organizations v1) =? 0)%nat then
        Err "at least one organization must be configured"
      else Ok (migrateV1toV2 env v1)
  end.

(** [DetectVersion] *)
Definition DetectVersion (env : Env) (data : string) : result Z :=
  match unmarshalProbe env data with
  | Err e => Err ("parsing config for version detection: " +:+ e)
  | Ok probe =>
      match probe_Providers probe with
      | Some _ => Ok 2
      | None =>
          if 0 <? probe_Version probe then Ok (probe_Version probe)
          else if negb (String.eqb (probe_GiteaURL probe) "") then Ok 1
          else Err "unrecognized config format: missing 'providers' (v2) or 'gitea_url' (v1)"
      end
  end.

(** [LoadFromBytesWithMetadata] *)
Definition LoadFromBytesWithMetadata (env : Env) (data : string) : result LoadResult :=
  match DetectVersion env data with
  | Err e => Err e
  | Ok version =>
      let read :=
        if version =? 1 then ReadV1 env data
        else if version =? 2 then ReadV2 env data
        else Err ("unsupported config version: " +:+ GoStrings.fmt_d version) in
      match read with
      | Err e => Err e
      | Ok cfg => Ok (mkLoadResult cfg version (version <? 2) "")
      end
  end.

(** [LoadFromBytes] *)
Definition LoadFromBytes (env : Env) (data : string) : result Config :=
  match LoadFromBytesWithMetadata env data with
  | Err e => Err e
  | Ok r => Ok (lr_Config r)
  end.

(** [Config.BuildRemoteClients], with the two constructors given and the
    keys visited in the order [names]. *)
Fixpoint buildClients (newGitea newGithub : string -> string -> remote.Client)
    (ps : gmap string Provider) (names : list string)
    (clients : gmap string remote.Client) : result (gmap string remote.Client) :=
  match names with
  | [] => Ok clients
  | name :: rest =>
      match ps !! name with
      | None => buildClients newGitea newGithub ps rest clients
      | Some p =>
          if String.eqb (Type_ p) "gitea" then
            buildClients newGitea newGithub ps rest
                         (<[name := newGitea (APIURL p) (Token p)]> clients)
          else if String.eqb (Type_ p) "github" then
            buildClients newGitea newGithub ps rest
                         (<[name := newGithub (APIURL p) (Token p)]> clients)
          else Err ("unsupported provider type " +:+ repo.fmt_q (Type_ p))
      end
  end.

Definition BuildRemoteClients (env : Env)
    (newGitea newGithub : string -> string -> remote.Client) (c : Config)
    : result (gmap string remote.Client) :=
  buildClients newGitea newGithub (Providers c) (rangeOrder env (Providers c)) ∅.

End configRead.

(** ** What validation accepts, and what it leaves behind *)
Section ConfigValidation.
Import config configRead.

(** A provider that the loop over the providers lets pass. *)
Definition acceptable (p : Provider) : Prop :=
  ((Type_ p = "gitea" /\ APIURL p <> "") \/ Type_ p = "github") /\ Token p <> "".

(** The defaults the loop fills in. *)
Definition normalForm (p : Provider) : Provider :=
  let p := if String.eqb (Type_ p) "github" && String.eqb (APIURL p) ""
           then setAPIURL p "https://api.github.com" else p in
  if String.eqb (Protocol (Clone (Options p))) "" then setProtocol p "https" else p.

(** A provider as every command may rely on it. *)
Definition wellFormed (p : Provider) : Prop :=
  (Type_ p = "gitea" \/ Type_ p = "github")
  /\ APIURL p <> "" /\ Token p <> "" /\ Protocol (Clone (Options p)) <> "".

Ltac eqb_cases :=
  repeat match goal with
         | |- context [String.eqb ?a ?b] =>
             let H := fresh "E" in
             destruct (String.eqb a b) eqn:H;
             [apply String.eqb_eq in H|apply String.eqb_neq in H]
         | H : context [String.eqb ?a ?b] |- _ =>
             let H' := fresh "E" in
             destruct (String.eqb a b) eqn:H';
             [apply String.eqb_eq in H'|apply String.eqb_neq in H']
         end.

Lemma checkProvider_accepts name p :
  acceptable p -> checkProvider name p = Ok (normalForm p).
Proof.
  unfold acceptable, checkProvider, normalForm.
  intros [[[Ht Hu]|Ht] Hk]; rewrite Ht; cbn [String.eqb Ascii.eqb Bool.eqb negb andb];
    destruct p as [ty url tok [[proto] sy]]; cbn in *.
  - destruct (String.eqb tok "") eqn:Etok;
      [apply String.eqb_eq in Etok; contradiction|].
    destruct (String.eqb url "") eqn:Eurl;
      [apply String.eqb_eq in Eurl; contradiction|]. reflexivity.
  - destruct (String.eqb url ""); cbn;
      (destruct (String.eqb tok "") eqn:Etok;
       [apply String.eqb_eq in Etok; contradiction|]); reflexivity.
Qed.

Lemma checkProvider_Ok name p p' :
  checkProvider name p = Ok p' -> acceptable p.
Proof.
  unfold acceptable, checkProvider.
  destruct p as [ty url tok [[proto] sy]]; cbn.
  destruct (String.eqb ty "gitea") eqn:Eg;
    [apply String.eqb_eq in Eg|apply String.eqb_neq in Eg];
    (destruct (String.eqb ty "github") eqn:Eh;
     [apply String.eqb_eq in Eh|apply String.eqb_neq in Eh]);
    cbn; try discriminate.
  - subst ty. discriminate.
  - destruct (String.eqb url "") eqn:Eu;
      [discriminate|apply String.eqb_neq in Eu]. cbn.
    destruct (String.eqb tok "") eqn:Et;
      [discriminate|apply String.eqb_neq in Et]. auto.
  - destruct (String.eqb url "") eqn:Eu; cbn;
      (destruct (String.eqb tok "") eqn:Et;
       [discriminate|apply String.eqb_neq in Et]); auto.
Qed.

Lemma normalForm_wellFormed p : acceptable p -> wellFormed (normalForm p).
Proof.
  unfold acceptable, wellFormed, normalForm.
  destruct p as [ty url tok [[proto] sy]]; cbn -[String.eqb].
  intros [[[-> Hu]| ->] Hk].
  - change (String.eqb "gitea" "github") with false. cbn [andb].
    cbn -[String.eqb].
    destruct (String.eqb proto "") eqn:Ep; cbn -[String.eqb];
      [|apply String.eqb_neq in Ep]; repeat split; auto; discriminate.
  - rewrite String.eqb_refl. cbn [andb].
    destruct (String.eqb url "") eqn:Eu; cbn -[String.eqb];
      [|apply String.eqb_neq in Eu];
      (destruct (String.eqb proto "") eqn:Ep; cbn -[String.eqb];
       [|apply String.eqb_neq in Ep]); repeat split; auto; discriminate.
Qed.

Lemma wellFormed_fixed p : wellFormed p -> acceptable p /\ normalForm p = p.
Proof.
  unfold acceptable, wellFormed, normalForm.
  destruct p as [ty url tok [[proto] sy]]; cbn.
  intros (Ht & Hu & Hk & Hp).
  apply String.eqb_neq in Hu as Eu. apply String.eqb_neq in Hp as Ep.
  rewrite Eu, andb_false_r. cbn. rewrite Ep. split; [|reflexivity].
  destruct Ht; auto.
Qed.

Lemma normalForm_fixed p :
  acceptable p -> acceptable (normalForm p) /\ normalForm (normalForm p) = normalForm p.
Proof. intros H. apply wellFormed_fixed, normalForm_wellFormed, H. Qed.

(** The keys [names] leave no key of [ps] out. *)
Definition covers (names : list string) (ps : gmap string Provider) : Prop :=
  forall k, is_Some (ps !! k) -> k ∈ names.

Lemma checkProviders_accepts names ps :
  (forall k p, ps !! k = Some p -> acceptable p) ->
  exists ps',
    checkProviders names ps = Ok ps'
    /\ forall k, ps' !! k = if decide (k ∈ names) then normalForm <$> ps !! k
                            else ps !! k.
Proof.
  revert ps. induction names as [|name rest IH]; intros ps Hall.
  - exists ps. split; [reflexivity|]. intros k.
    destruct (decide (k ∈ [])) as [H|_]; [apply elem_of_nil in H; contradiction|].
    reflexivity.
  - cbn [checkProviders]. destruct (ps !! name) as [p|] eqn:Hp.
    + rewrite (checkProvider_accepts name p (Hall _ _ Hp)).
      destruct (normalForm_fixed p (Hall _ _ Hp)) as [Hacc Hidem].
      destruct (IH (<[name := normalForm p]> ps)) as (ps' & Hrun & Hlook).
      { intros k q. rewrite lookup_insert_Some.
        intros [[_ <-]|[_ Hq]]; [exact Hacc|exact (Hall _ _ Hq)]. }
      exists ps'. split; [exact Hrun|]. intros k. rewrite Hlook.
      destruct (decide (k = name)) as [->|Hne].
      * rewrite lookup_insert_eq, Hp.
        destruct (decide (name ∈ name :: rest)) as [_|Hn];
          [|exfalso; apply Hn, list_elem_of_here].
        destruct (decide (name ∈ rest)); cbn; rewrite ?Hidem; reflexivity.
      * rewrite lookup_insert_ne by congruence.
        destruct (decide (k ∈ rest)) as [Hin|Hout];
          destruct (decide (k ∈ name :: rest)) as [Hin'|Hout']; try reflexivity.
        -- exfalso. apply Hout'. apply list_elem_of_further. exact Hin.
        -- exfalso. apply elem_of_cons in Hin' as [?|?]; contradiction.
    + destruct (IH ps Hall) as (ps' & Hrun & Hlook).
      exists ps'. split; [exact Hrun|]. intros k. rewrite Hlook.
      destruct (decide (k ∈ rest)) as [Hin|Hout];
        destruct (decide (k ∈ name :: rest)) as [Hin'|Hout']; try reflexivity.
      * exfalso. apply Hout'. apply list_elem_of_further. exact Hin.
      * apply elem_of_cons in Hin' as [->|?]; [|contradiction].
        rewrite Hp. reflexivity.
Qed.

Lemma checkProviders_rejects names ps k p :
  k ∈ names -> ps !! k = Some p -> ~ acceptable p ->
  exists e, checkProviders names ps = Err e.
Proof.
  revert ps. induction names as [|name rest IH]; intros ps Hin Hk Hbad.
  - apply elem_of_nil in Hin. contradiction.
  - cbn [checkProviders]. destruct (ps !! name) as [p0|] eqn:Hp.
    + destruct (checkProvider name p0) as [p'|e] eqn:Hc; [|exists e; reflexivity].
      apply checkProvider_Ok in Hc.
      assert (Hne : k <> name) by (intros ->; rewrite Hp in Hk; congruence).
      apply IH.
      * apply elem_of_cons in Hin as [?|?]; [contradiction|assumption].
      * rewrite lookup_insert_ne by congruence. exact Hk.
      * exact Hbad.
    + assert (Hne : k <> name) by (intros ->; rewrite Hp in Hk; congruence).
      apply IH; [|exact Hk|exact Hbad].
      apply elem_of_cons in Hin as [?|?]; [contradiction|assumption].
Qed.

#[local] Instance acceptable_dec p : Decision (acceptable p).
Proof. unfold acceptable. apply _. Defined.

(** The loop over the providers succeeds exactly when every provider is
    acceptable, and then leaves every provider in normal form, in whatever
    order the keys were visited. *)
Lemma checkProviders_spec names ps ps' :
  covers names ps ->
  checkProviders names ps = Ok ps'
  <-> (forall k p, ps !! k = Some p -> acceptable p) /\ ps' = normalForm <$> ps.
Proof.
  intros Hcov. split.
  - intros Hrun.
    assert (Hall : forall k p, ps !! k = Some p -> acceptable p).
    { intros k p Hk. destruct (decide (acceptable p)) as [H|H]; [exact H|].
      destruct (checkProviders_rejects names ps k p) as [e He]; [|exact Hk|exact H|].
      - apply Hcov. rewrite Hk. eexists; reflexivity.
      - rewrite He in Hrun. discriminate. }
    split; [exact Hall|].
    destruct (checkProviders_accepts names ps Hall) as (ps1 & Hrun1 & Hlook).
    rewrite Hrun in Hrun1. injection Hrun1 as <-.
    apply map_eq. intros k. rewrite Hlook, lookup_fmap.
    destruct (decide (k ∈ names)) as [_|Hout]; [reflexivity|].
    destruct (ps !! k) eqn:Hk; [|reflexivity].
    exfalso. apply Hout, Hcov. rewrite Hk. eexists; reflexivity.
  - intros [Hall ->].
    destruct (checkProviders_accepts names ps Hall) as (ps1 & Hrun1 & Hlook).
    rewrite Hrun1. f_equal.
    apply map_eq. intros k. rewrite Hlook, lookup_fmap.
    destruct (decide (k ∈ names)) as [_|Hout]; [reflexivity|].
    destruct (ps !! k) eqn:Hk; [|reflexivity].
    exfalso. apply Hout, Hcov. rewrite Hk. eexists; reflexivity.
Qed.

(** The name a target ends up with. *)
Definition defaultName (t : Target) : string :=
  if String.eqb (Name t) "" then
    if negb (String.eqb (Repo t) "") then Repo t else Org t
  else Name t.

(** The target as the loop over the targets stores it back. *)
Definition normalTarget (env : Env) (t : Target) : Target :=
  mkTarget (defaultName t) (ProviderName t) (Org t) (Repo t)
           (expandPath env (Path t)).

(** A target that passes the checks made on it alone. *)
Definition usable (ps : gmap string Provider) (t : Target) : Prop :=
  ProviderName t <> "" /\ is_Some (ps !! ProviderName t)
  /\ Org t <> "" /\ Path t <> "".

Lemma checkTargets_cons env ps i t rest seen :
  checkTargets env ps i (t :: rest) seen
  = if String.eqb (ProviderName t) "" then
      Err ("target " +:+ GoStrings.fmt_d i +:+ " missing provider")
    else
      match ps !! ProviderName t with
      | None =>
          Err ("target " +:+ GoStrings.fmt_d i +:+ " references unknown provider "
               +:+ repo.fmt_q (ProviderName t))
      | Some _ =>
          if String.eqb (Org t) "" then
            Err ("target " +:+ GoStrings.fmt_d i +:+ " missing org")
          else if String.eqb (Path t) "" then
            Err ("target " +:+ Org t +:+ " missing path")
          else if bool_decide (defaultName t ∈ seen) then
            Err ("duplicate target name " +:+ repo.fmt_q (defaultName t))
          else
            match checkTargets env ps (i + 1) rest ({[ defaultName t ]} ∪ seen) with
            | Err e => Err e
            | Ok rest' => Ok (normalTarget env t :: rest')
            end
      end.
Proof.
  cbn [checkTargets]. cbv zeta.
  destruct (String.eqb (ProviderName t) ""); [reflexivity|].
  destruct (ps !! ProviderName t); [|reflexivity].
  destruct (String.eqb (Org t) ""); [reflexivity|].
  destruct (String.eqb (Path t) ""); [reflexivity|].
  unfold normalTarget, defaultName, setName, setPath.
  destruct t as [n pr o r pa]; cbn -[String.eqb checkTargets].
  destruct (String.eqb n ""); [|reflexivity].
  destruct (String.eqb r ""); reflexivity.
Qed.

Lemma checkTargets_spec env ps i ts seen ts' :
  checkTargets env ps i ts seen = Ok ts'
  <-> Forall (usable ps) ts
      /\ NoDup (defaultName <$> ts)
      /\ (forall n, n ∈ defaultName <$> ts -> n ∉ seen)
      /\ ts' = normalTarget env <$> ts.
Proof.
  revert i seen ts'. induction ts as [|t rest IH]; intros i seen ts'.
  - cbn. split.
    + intros H. injection H as <-. repeat split; try constructor.
      intros n Hn. apply elem_of_nil in Hn. contradiction.
    + intros (_ & _ & _ & ->). reflexivity.
  - rewrite checkTargets_cons.
    rewrite !fmap_cons, NoDup_cons, Forall_cons. unfold usable at 1.
    destruct (String.eqb (ProviderName t) "") eqn:Ep;
      [apply String.eqb_eq in Ep|apply String.eqb_neq in Ep].
    { split; [discriminate|]. intros (((H & _) & _) & _). contradiction. }
    destruct (ps !! ProviderName t) as [p|] eqn:Hp.
    2:{ split; [discriminate|]. intros (((_ & [? H] & _) & _) & _). discriminate. }
    destruct (String.eqb (Org t) "") eqn:Eo;
      [apply String.eqb_eq in Eo|apply String.eqb_neq in Eo].
    { split; [discriminate|]. intros (((_ & _ & H & _) & _) & _). contradiction. }
    destruct (String.eqb (Path t) "") eqn:Ea;
      [apply String.eqb_eq in Ea|apply String.eqb_neq in Ea].
    { split; [discriminate|]. intros (((_ & _ & _ & H) & _) & _). contradiction. }
    destruct (bool_decide (defaultName t ∈ seen)) eqn:Hs;
      [apply bool_decide_eq_true in Hs|apply bool_decide_eq_false in Hs].
    { split; [discriminate|]. intros (_ & _ & H & _). exfalso.
      apply (H (defaultName t)); [apply list_elem_of_here|exact Hs]. }
    destruct (checkTargets env ps (i + 1) rest ({[defaultName t]} ∪ seen))
      as [rest'|e] eqn:Hrest.
    + apply IH in Hrest as (Hall & Hnd & Hfresh & ->). split.
      * intros H. injection H as <-.
        split; [split; [|exact Hall]; repeat split; auto; eexists; reflexivity|].
        split; [split; [|exact Hnd]|].
        { intros Hin. apply (Hfresh _ Hin). apply elem_of_union_l, elem_of_singleton.
          reflexivity. }
        split; [|reflexivity].
        intros n Hn. apply elem_of_cons in Hn as [->|Hn]; [exact Hs|].
        intros Hseen. apply (Hfresh _ Hn). apply elem_of_union_r. exact Hseen.
      * intros (_ & _ & _ & ->). reflexivity.
    + split; [discriminate|]. intros ((_ & Hall) & (Hout & Hnd) & Hfresh & _).
      exfalso.
      assert (Hok : checkTargets env ps (i + 1) rest ({[defaultName t]} ∪ seen)
                    = Ok (normalTarget env <$> rest)).
      { apply IH. split; [exact Hall|]. split; [exact Hnd|]. split; [|reflexivity].
        intros n Hn Hu. apply elem_of_union in Hu as [Hu|Hu].
        - apply elem_of_singleton in Hu. subst n. contradiction.
        - apply (Hfresh n); [apply list_elem_of_further; exact Hn|exact Hu]. }
      rewrite Hok in Hrest. discriminate.
Qed.

Lemma defaultName_nonempty t : Org t <> "" -> defaultName t <> "".
Proof.
  unfold defaultName. intros Ho.
  destruct (String.eqb (Name t) "") eqn:En;
    [|apply String.eqb_neq in En; exact En].
  destruct (String.eqb (Repo t) "") eqn:Er; cbn;
    [exact Ho|apply String.eqb_neq in Er; exact Er].
Qed.

Lemma validate_spec env cfg cfg' :
  covers (rangeOrder env (Providers cfg)) (Providers cfg) ->
  validateAndNormalizeV2 env cfg = Ok cfg'
  <-> Providers cfg <> ∅
      /\ (forall k p, Providers cfg !! k = Some p -> acceptable p)
      /\ Targets cfg <> []
      /\ Forall (usable (Providers cfg)) (Targets cfg)
      /\ NoDup (defaultName <$> Targets cfg)
      /\ cfg' = mkConfig (Workers cfg) (normalForm <$> Providers cfg)
                         (normalTarget env <$> Targets cfg).
Proof.
  intros Hcov. unfold validateAndNormalizeV2.
  assert (Huse : forall t, usable (normalForm <$> Providers cfg) t
                           <-> usable (Providers cfg) t).
  { intros t. unfold usable. rewrite lookup_fmap, fmap_is_Some. reflexivity. }
  destruct (size (Providers cfg) =? 0)%nat eqn:Hsz.
  { apply Nat.eqb_eq, map_size_empty_iff in Hsz.
    split; [discriminate|]. intros (H & _). contradiction. }
  apply Nat.eqb_neq in Hsz. rewrite map_size_empty_iff in Hsz.
  destruct (checkProviders (rangeOrder env (Providers cfg)) (Providers cfg))
    as [ps|e] eqn:Hps.
  2:{ split; [discriminate|]. intros (_ & Hall & _). exfalso.
      assert (H : checkProviders (rangeOrder env (Providers cfg)) (Providers cfg)
                  = Ok (normalForm <$> Providers cfg))
        by (apply (checkProviders_spec _ _ _ Hcov); split; [exact Hall|reflexivity]).
      rewrite H in Hps. discriminate. }
  apply (checkProviders_spec _ _ _ Hcov) in Hps as [Hall ->].
  destruct (length (Targets cfg) =? 0)%nat eqn:Hlen.
  { apply Nat.eqb_eq in Hlen. destruct (Targets cfg); [|discriminate].
    split; [discriminate|]. intros (_ & _ & H & _). contradiction. }
  assert (Hne : Targets cfg <> []).
  { intros H. rewrite H in Hlen. discriminate. }
  destruct (checkTargets env (normalForm <$> Providers cfg) 0 (Targets cfg) ∅)
    as [ts|e] eqn:Hts.
  - apply checkTargets_spec in Hts as (Hu & Hnd & _ & ->). split.
    + intros H. injection H as <-.
      refine (conj Hsz (conj Hall (conj Hne (conj _ (conj Hnd eq_refl))))).
      eapply Forall_impl; [exact Hu|]. intros t. apply Huse.
    + intros (_ & _ & _ & _ & _ & ->). reflexivity.
  - split; [discriminate|]. intros (_ & _ & _ & Hu & Hnd & _). exfalso.
    assert (H : checkTargets env (normalForm <$> Providers cfg) 0 (Targets cfg) ∅
                = Ok (normalTarget env <$> Targets cfg)).
    { apply checkTargets_spec. split.
      - eapply Forall_impl; [exact Hu|]. intros t. apply Huse.
      - split; [exact Hnd|]. split; [|reflexivity].
        intros n _. apply not_elem_of_empty. }
    rewrite H in Hts. discriminate.
Qed.

Lemma validated_config_facts env cfg cfg' :
  covers (rangeOrder env (Providers cfg)) (Providers cfg) ->
  validateAndNormalizeV2 env cfg = Ok cfg' ->
  Providers cfg' <> ∅
  /\ (forall k p, Providers cfg' !! k = Some p -> wellFormed p)
  /\ Targets cfg' <> []
  /\ NoDup (Name <$> Targets cfg')
  /\ Forall (fun t => Name t <> "" /\ Org t <> ""
                      /\ is_Some (Providers cfg' !! ProviderName t)
                      /\ ProviderName t <> "")
            (Targets cfg').
Proof.
  intros Hcov H. apply (validate_spec _ _ _ Hcov) in H
    as (Hne & Hall & Hts & Hu & Hnd & ->). cbn [Workers Providers Targets].
  split; [rewrite fmap_empty_iff; exact Hne|].
  split.
  { intros k p. rewrite lookup_fmap_Some. intros (p0 & <- & Hp0).
    apply normalForm_wellFormed, (Hall _ _ Hp0). }
  split; [intros H; apply fmap_nil_inv in H; contradiction|].
  split; [rewrite <- list_fmap_compose; exact Hnd|].
  rewrite Forall_fmap. eapply Forall_impl; [exact Hu|].
  intros t (Hp & Hs & Ho & _). cbn. split; [apply defaultName_nonempty, Ho|].
  split; [exact Ho|]. split; [|exact Hp]. rewrite lookup_fmap, fmap_is_Some. exact Hs.
Qed.

(** X17.  What a configuration that passed validation can be relied on for:
    every provider is of type gitea or github with an API address, a token
    and a clone protocol; there is a target; target names are distinct and
    not empty; every target names an organisation and a configured
    provider.  The number of workers, the provider names and the number of
    targets are those of the input. *)
Theorem validated_config env cfg cfg' :
  covers (rangeOrder env (Providers cfg)) (Providers cfg) ->
  validateAndNormalizeV2 env cfg = Ok cfg' ->
  Workers cfg' = Workers cfg
  /\ dom (Providers cfg') = dom (Providers cfg)
  /\ length (Targets cfg') = length (Targets cfg)
  /\ Providers cfg' <> ∅
  /\ (forall k p, Providers cfg' !! k = Some p -> wellFormed p)
  /\ Targets cfg' <> []
  /\ NoDup (Name <$> Targets cfg')
  /\ Forall (fun t => Name t <> "" /\ Org t <> ""
                      /\ is_Some (Providers cfg' !! ProviderName t)
                      /\ ProviderName t <> "")
            (Targets cfg').
Proof.
  intros Hcov H. pose proof (validated_config_facts env cfg cfg' Hcov H) as Hfacts.
  apply (validate_spec _ _ _ Hcov) in H as (_ & _ & _ & _ & _ & ->).
  cbn [Workers Providers Targets] in *.
  split; [reflexivity|]. split; [apply dom_fmap_L|].
  split; [apply length_fmap|]. exact Hfacts.
Qed.

(** X18.  Whether a configuration is accepted, and what it is normalised to, do
    not depend on the order in which the provider map is ranged over: two
    runs that differ in that order alone agree on every configuration that
    either of them accepts.  (Which error is reported for a configuration
    with several faults does depend on it.) *)
Theorem validation_order_independent env order' cfg cfg' :
  covers (rangeOrder env (Providers cfg)) (Providers cfg) ->
  covers (order' (Providers cfg)) (Providers cfg) ->
  validateAndNormalizeV2 env cfg = Ok cfg' ->
  validateAndNormalizeV2
    (mkEnv (UserHomeDir env) (filepath_Join env) (unmarshalProbe env)
           (unmarshalV1 env) (unmarshalV2 env) order') cfg
  = Ok cfg'.
Proof.
  intros Hcov Hcov' H. apply (validate_spec _ _ _ Hcov) in H.
  apply validate_spec; [exact Hcov'|]. exact H.
Qed.

(** X19.  Validation is idempotent on what it accepts: a normalised configuration
    whose paths need no further expansion is accepted again, unchanged. *)
Theorem validation_idempotent env cfg cfg' :
  covers (rangeOrder env (Providers cfg)) (Providers cfg) ->
  covers (rangeOrder env (Providers cfg')) (Providers cfg') ->
  Forall (fun t => Path t <> "" /\ expandPath env (Path t) = Path t) (Targets cfg') ->
  validateAndNormalizeV2 env cfg = Ok cfg' ->
  validateAndNormalizeV2 env cfg' = Ok cfg'.
Proof.
  intros Hcov Hcov' Hpaths H.
  destruct (validated_config_facts env cfg cfg' Hcov H) as (Hne & Hwf & Hts & Hnd & Hall).
  apply (validate_spec _ _ _ Hcov'). split; [exact Hne|].
  split; [intros k p Hk; apply wellFormed_fixed, (Hwf _ _ Hk)|].
  split; [exact Hts|]. split.
  { rewrite Forall_forall in Hall, Hpaths. apply Forall_forall. intros t Ht.
    destruct (Hall t Ht) as (Hn & Ho & Hs & Hp). destruct (Hpaths t Ht) as [Hpa _].
    repeat split; auto. }
  assert (Hfix : normalTarget env <$> Targets cfg' = Targets cfg').
  { rewrite <- (list_fmap_id (Targets cfg')) at 2. apply list_fmap_ext.
    rewrite Forall_forall in Hall, Hpaths. intros j t Hj.
    apply list_elem_of_lookup_2 in Hj.
    destruct (Hall t Hj) as (Hn & _). destruct (Hpaths t Hj) as [_ Hpa].
    unfold normalTarget, defaultName. apply String.eqb_neq in Hn. rewrite Hn, Hpa.
    destruct t; reflexivity. }
  assert (Hnames : defaultName <$> Targets cfg' = Name <$> Targets cfg').
  { apply list_fmap_ext. rewrite Forall_forall in Hall. intros j t Hj.
    apply list_elem_of_lookup_2 in Hj. destruct (Hall t Hj) as (Hn & _).
    unfold defaultName. apply String.eqb_neq in Hn. rewrite Hn. reflexivity. }
  split; [rewrite Hnames; exact Hnd|].
  rewrite Hfix.
  assert (Hps : normalForm <$> Providers cfg' = Providers cfg').
  { apply map_eq. intros k. rewrite lookup_fmap.
    destruct (Providers cfg' !! k) as [p|] eqn:Hk; [|reflexivity].
    cbn. f_equal. apply wellFormed_fixed, (Hwf _ _ Hk). }
  rewrite Hps. destruct cfg'; reflexivity.
Qed.

End ConfigValidation.

(** ** Loading a configuration and building its clients *)
Section ConfigLoading.
Import config configRead.

(** The environment ranges over every key of a map. *)
Definition ranges (env : Env) : Prop :=
  forall ps, covers (rangeOrder env ps) ps.

(** The client [BuildRemoteClients] makes for a provider. *)
Definition clientFor (newGitea newGithub : string -> string -> remote.Client)
    (p : Provider) : remote.Client :=
  if String.eqb (Type_ p) "gitea" then newGitea (APIURL p) (Token p)
  else newGithub (APIURL p) (Token p).

Definition knownType (p : Provider) : Prop :=
  Type_ p = "gitea" \/ Type_ p = "github".

Lemma buildClients_ok g h ps names clients :
  (forall k p, ps !! k = Some p -> knownType p) ->
  exists cs,
    buildClients g h ps names clients = Ok cs
    /\ forall k, cs !! k = match ps !! k with
                          | Some p => if decide (k ∈ names)
                                      then Some (clientFor g h p) else clients !! k
                          | None => clients !! k
                          end.
Proof.
  intros Hall. revert clients. induction names as [|name rest IH]; intros clients.
  - exists clients. split; [reflexivity|]. intros k.
    destruct (ps !! k); [|reflexivity].
    destruct (decide (k ∈ [])) as [H|_]; [apply elem_of_nil in H; contradiction|].
    reflexivity.
  - cbn [buildClients]. destruct (ps !! name) as [p|] eqn:Hp.
    + assert (Hstep : (if String.eqb (Type_ p) "gitea" then
                         buildClients g h ps rest
                           (<[name := g (APIURL p) (Token p)]> clients)
                       else if String.eqb (Type_ p) "github" then
                         buildClients g h ps rest
                           (<[name := h (APIURL p) (Token p)]> clients)
                       else Err ("unsupported provider type "
                                 +:+ repo.fmt_q (Type_ p)))
                      = buildClients g h ps rest (<[name := clientFor g h p]> clients)).
      { unfold clientFor. destruct (Hall _ _ Hp) as [Ht|Ht]; rewrite Ht; reflexivity. }
      rewrite Hstep.
      destruct (IH (<[name := clientFor g h p]> clients)) as (cs & Hrun & Hlook).
      exists cs. split; [exact Hrun|]. intros k. rewrite Hlook.
      destruct (decide (k = name)) as [->|Hne].
      * rewrite Hp, lookup_insert_eq.
        destruct (decide (name ∈ name :: rest)) as [_|Hn];
          [|exfalso; apply Hn, list_elem_of_here].
        destruct (decide (name ∈ rest)); reflexivity.
      * rewrite lookup_insert_ne by congruence.
        destruct (ps !! k); [|reflexivity].
        destruct (decide (k ∈ rest)) as [Hin|Hout];
          destruct (decide (k ∈ name :: rest)) as [Hin'|Hout']; try reflexivity.
        -- exfalso. apply Hout'. apply list_elem_of_further. exact Hin.
        -- exfalso. apply elem_of_cons in Hin' as [?|?]; contradiction.
    + destruct (IH clients) as (cs & Hrun & Hlook).
      exists cs. split; [exact Hrun|]. intros k. rewrite Hlook.
      destruct (ps !! k) eqn:Hk; [|reflexivity].
      destruct (decide (k ∈ rest)) as [Hin|Hout];
        destruct (decide (k ∈ name :: rest)) as [Hin'|Hout']; try reflexivity.
      * exfalso. apply Hout'. apply list_elem_of_further. exact Hin.
      * apply elem_of_cons in Hin' as [->|?]; [|contradiction]. congruence.
Qed.

Lemma BuildRemoteClients_ok env g h c :
  covers (rangeOrder env (Providers c)) (Providers c) ->
  (forall k p, Providers c !! k = Some p -> knownType p) ->
  exists clients,
    BuildRemoteClients env g h c = Ok clients
    /\ forall k, clients !! k = clientFor g h <$> Providers c !! k.
Proof.
  intros Hcov Hall. unfold BuildRemoteClients.
  destruct (buildClients_ok g h (Providers c) (rangeOrder env (Providers c)) ∅ Hall)
    as (cs & Hrun & Hlook).
  exists cs. split; [exact Hrun|]. intros k. rewrite Hlook.
  destruct (Providers c !! k) as [p|] eqn:Hk; [|apply lookup_empty].
  destruct (decide (k ∈ rangeOrder env (Providers c))) as [_|Hout]; [reflexivity|].
  exfalso. apply Hout, Hcov. rewrite Hk. eexists; reflexivity.
Qed.

(** What the commands need of a configuration to build their manager. *)
Definition serviceable (c : Config) : Prop :=
  (forall k p, Providers c !! k = Some p -> knownType p)
  /\ Targets c <> []
  /\ Forall (fun t => is_Some (Providers c !! ProviderName t)) (Targets c).

Lemma ReadV2_serviceable env data c :
  ranges env -> ReadV2 env data = Ok c -> serviceable c.
Proof.
  intros Hr. unfold ReadV2.
  destruct (unmarshalV2 env data) as [c0|e]; [|discriminate]. intros H.
  destruct (validated_config_facts env c0 c (Hr _) H) as (_ & Hwf & Hts & _ & Hall).
  split; [|split; [exact Hts|]].
  - intros k p Hk. apply (Hwf _ _ Hk).
  - eapply Forall_impl; [exact Hall|]. intros t (_ & _ & Hs & _). exact Hs.
Qed.

Lemma ReadV1_serviceable env data c :
  ReadV1 env data = Ok c -> serviceable c.
Proof.
  unfold ReadV1.
  destruct (unmarshalV1 env data) as [v1|e]; [|discriminate].
  destruct (String.eqb (GiteaURL v1) ""); [discriminate|].
  destruct (String.eqb (GiteaToken v1) ""); [discriminate|].
  destruct (Organizations v1) as [|o os] eqn:Ho; [discriminate|].
  cbn [length Nat.eqb]. intros H. injection H as <-.
  unfold migrateV1toV2. rewrite Ho. split; [|split].
  - intros k p Hk. cbn [Providers] in Hk.
    apply lookup_singleton_Some in Hk as [_ <-]. left. reflexivity.
  - discriminate.
  - cbn [Targets Providers]. rewrite Forall_fmap. apply Forall_forall.
    intros org _. cbn. rewrite lookup_singleton_eq. eexists; reflexivity.
Qed.

Lemma Load_cases env data r :
  LoadFromBytesWithMetadata env data = Ok r ->
  exists probe,
    unmarshalProbe env data = Ok probe
    /\ ((lr_Version r = 2 /\ lr_IsDeprecated r = false
         /\ ReadV2 env data = Ok (lr_Config r)
         /\ (is_Some (probe_Providers probe) \/ probe_Version probe = 2))
        \/ (lr_Version r = 1 /\ lr_IsDeprecated r = true
            /\ ReadV1 env data = Ok (lr_Config r)
            /\ probe_Providers probe = None
            /\ (probe_Version probe = 1
                \/ (probe_Version probe <= 0 /\ probe_GiteaURL probe <> "")))).
Proof.
  unfold LoadFromBytesWithMetadata, DetectVersion.
  destruct (unmarshalProbe env data) as [probe|e]; [|discriminate].
  intros H. exists probe. split; [reflexivity|].
  destruct (probe_Providers probe) as [ps|] eqn:Hps.
  - cbn in H. destruct (ReadV2 env data) as [c|e]; [|discriminate].
    injection H as <-. left. cbn. repeat split. left. eexists; reflexivity.
  - destruct (0 <? probe_Version probe) eqn:Hv.
    + apply Z.ltb_lt in Hv.
      destruct (probe_Version probe =? 1) eqn:H1.
      * apply Z.eqb_eq in H1. destruct (ReadV1 env data) as [c|e]; [|discriminate].
        injection H as <-. right. cbn. rewrite H1. repeat split. left. reflexivity.
      * destruct (probe_Version probe =? 2) eqn:H2; [|discriminate].
        apply Z.eqb_eq in H2. destruct (ReadV2 env data) as [c|e]; [|discriminate].
        injection H as <-. left. cbn. rewrite H2. repeat split. right. reflexivity.
    + apply Z.ltb_ge in Hv.
      destruct (String.eqb (probe_GiteaURL probe) "") eqn:Hu; [discriminate|].
      apply String.eqb_neq in Hu. cbn in H.
      destruct (ReadV1 env data) as [c|e]; [|discriminate].
      injection H as <-. right. cbn. repeat split. right. split; assumption.
Qed.

(** X20.  Whatever version it was read from, a loaded configuration has a target,
    and a client can be built for it: building the clients succeeds, gives
    one client per provider, of the provider's type, address and token, and
    so a client for the provider of every target. *)
Theorem loaded_config_has_clients env g h data c :
  ranges env ->
  LoadFromBytes env data = Ok c ->
  Targets c <> []
  /\ exists clients,
       BuildRemoteClients env g h c = Ok clients
       /\ (forall k, clients !! k = clientFor g h <$> Providers c !! k)
       /\ Forall (fun t => is_Some (clients !! ProviderName t)) (Targets c).
Proof.
  intros Hr. unfold LoadFromBytes.
  destruct (LoadFromBytesWithMetadata env data) as [r|e] eqn:Hload; [|discriminate].
  intros H. injection H as <-.
  assert (Hs : serviceable (lr_Config r)).
  { apply Load_cases in Hload as (probe & _ & [(_ & _ & H2 & _)|(_ & _ & H1 & _)]).
    - apply (ReadV2_serviceable env data _ Hr H2).
    - apply (ReadV1_serviceable env data _ H1). }
  destruct Hs as (Hty & Hts & Hall). split; [exact Hts|].
  destruct (BuildRemoteClients_ok env g h (lr_Config r) (Hr _) Hty)
    as (clients & Hrun & Hlook).
  exists clients. split; [exact Hrun|]. split; [exact Hlook|].
  eapply Forall_impl; [exact Hall|]. intros t Hs. cbn in Hs.
  rewrite Hlook, fmap_is_Some. exact Hs.
Qed.

Lemma is_ok_Ok {A} (r : result A) : is_ok r = true <-> exists x, r = Ok x.
Proof.
  destruct r as [x|e]; cbn; split.
  - intros _. exists x. reflexivity.
  - reflexivity.
  - discriminate.
  - intros [x H]. discriminate.
Qed.

(** X21.  A version 1 configuration is read with fewer checks than version 2
    makes: what it migrates to passes the version 2 validation exactly when
    the address is more than a slash, the token is not empty, there is an
    organisation, every organisation has a name and a path, and no two
    organisations share a name. *)
Theorem migrated_config_validates env v1 :
  ranges env ->
  is_ok (validateAndNormalizeV2 env (migrateV1toV2 env v1)) = true
  <-> TrimSuffix (GiteaURL v1) "/" <> "" /\ GiteaToken v1 <> ""
      /\ Organizations v1 <> []
      /\ Forall (fun o => org_Name o <> "" /\ expandPath env (org_Path o) <> "")
                (Organizations v1)
      /\ NoDup (org_Name <$> Organizations v1).
Proof.
  intros Hr. rewrite is_ok_Ok.
  set (mk := fun org => mkTarget (org_Name org) "gitea" (org_Name org) ""
                          (expandPath env (org_Path org))).
  assert (Hnames : defaultName <$> (mk <$> Organizations v1)
                   = org_Name <$> Organizations v1).
  { rewrite <- list_fmap_compose. apply list_fmap_ext. intros j o _.
    unfold defaultName; cbn -[String.eqb].
    destruct (String.eqb (org_Name o) ""); reflexivity. }
  split.
  - intros [c Hc]. apply (validate_spec _ _ _ (Hr _)) in Hc
      as (_ & Hall & Hts & Hu & Hnd & _).
    unfold migrateV1toV2 in *. cbn [Providers Targets Workers] in *. fold mk in Hts, Hu, Hnd.
    destruct (Hall "gitea" _ (lookup_singleton_eq _ _)) as [[[_ Hurl]|Hty] Htok];
      [|discriminate]. cbn in Hurl, Htok.
    split; [exact Hurl|]. split; [exact Htok|].
    split; [intros H; apply Hts; rewrite H; reflexivity|].
    split; [|rewrite <- Hnames; exact Hnd].
    rewrite Forall_fmap in Hu. eapply Forall_impl; [exact Hu|].
    intros o (_ & _ & Ho & Hp). split; [exact Ho|exact Hp].
  - intros (Hurl & Htok & Horgs & Hall & Hnd). eexists.
    apply (validate_spec _ _ _ (Hr _)).
    unfold migrateV1toV2. cbn [Providers Targets Workers]. fold mk.
    split; [apply map_non_empty_singleton|]. split.
    { intros k p Hk. apply lookup_singleton_Some in Hk as [_ <-].
      split; [left; split; [reflexivity|exact Hurl]|exact Htok]. }
    split; [intros H; apply fmap_nil_inv in H; contradiction|]. split.
    { rewrite Forall_fmap. eapply Forall_impl; [exact Hall|].
      intros o [Ho Hp]. split; [discriminate|]. split.
      - cbn. rewrite lookup_singleton_eq. eexists; reflexivity.
      - split; [exact Ho|exact Hp]. }
    split; [rewrite Hnames; exact Hnd|]. reflexivity.
Qed.

End ConfigLoading.

(** ** A configuration of two providers, and one of the old format *)
Module Setup.
Import config configRead.

Definition raw : Config :=
  mkConfig 8
    {[ "gh" := mkProvider "github" "" "ghp" zeroProviderOptions;
       "gt" := mkProvider "gitea" "https://gitea.acme.com" "tok"
                 (mkProviderOptions (mkCloneOptions "ssh") (mkSyncOptions (Some false))) ]}
    [mkTarget "" "gh" "acme" "app" "~/src/app";
     mkTarget "" "gt" "team" "" "/srv/team"].

Definition normal : Config :=
  mkConfig 8
    {[ "gh" := mkProvider "github" "https://api.github.com" "ghp"
                 (mkProviderOptions (mkCloneOptions "https") (mkSyncOptions None));
       "gt" := mkProvider "gitea" "https://gitea.acme.com" "tok"
                 (mkProviderOptions (mkCloneOptions "ssh") (mkSyncOptions (Some false))) ]}
    [mkTarget "app" "gh" "acme" "app" "/home/u/src/app";
     mkTarget "team" "gt" "team" "" "/srv/team"].

(** Two organisations of the same name. *)
Definition old : ConfigV1 :=
  mkConfigV1 "https://gitea.acme.com/" "tok"
    [mkOrganizationV1 "team" "~/team"; mkOrganizationV1 "team" "~/team2"].

Definition env : Env :=
  mkEnv (Ok "/home/u") (fun a b => a +:+ "/" +:+ b)
    (fun data => if String.eqb data "v2" then Ok (mkVersionProbe 0 (Some ∅) "")
                 else if String.eqb data "v1"
                      then Ok (mkVersionProbe 0 None "https://gitea.acme.com/")
                      else Err "unexpected end of JSON input")
    (fun data => if String.eqb data "v1" then Ok old
                 else Err "unexpected end of JSON input")
    (fun data => if String.eqb data "v2" then Ok raw
                 else Err "unexpected end of JSON input")
    (fun ps => (map_to_list ps).*1).

Definition backwards (ps : gmap string Provider) : list string :=
  reverse (map_to_list ps).*1.

End Setup.

Lemma ranges_env : ranges Setup.env.
Proof.
  intros ps k [p Hk]. cbn. apply list_elem_of_fmap. exists (k, p).
  split; [reflexivity|]. apply elem_of_map_to_list. exact Hk.
Qed.

Lemma covers_backwards ps : covers (Setup.backwards ps) ps.
Proof.
  intros k Hk. unfold Setup.backwards. rewrite elem_of_reverse.
  apply (ranges_env ps k Hk).
Qed.

Example validate_raw :
  configRead.validateAndNormalizeV2 Setup.env Setup.raw = Ok Setup.normal.
Proof. vm_compute. reflexivity. Qed.

Lemma validated_config_witness :
  config.Workers Setup.normal = config.Workers Setup.raw
  /\ dom (config.Providers Setup.normal) = dom (config.Providers Setup.raw)
  /\ length (config.Targets Setup.normal) = length (config.Targets Setup.raw)
  /\ config.Providers Setup.normal <> ∅
  /\ (forall k p, config.Providers Setup.normal !! k = Some p -> wellFormed p)
  /\ config.Targets Setup.normal <> []
  /\ NoDup (config.Name <$> config.Targets Setup.normal)
  /\ Forall (fun t => config.Name t <> "" /\ config.Org t <> ""
                      /\ is_Some (config.Providers Setup.normal !! config.ProviderName t)
                      /\ config.ProviderName t <> "")
            (config.Targets Setup.normal).
Proof.
  apply (validated_config Setup.env Setup.raw Setup.normal).
  - apply ranges_env.
  - vm_compute. reflexivity.
Defined.

Lemma validation_order_independent_witness :
  configRead.validateAndNormalizeV2
    (configRead.mkEnv (configRead.UserHomeDir Setup.env)
       (configRead.filepath_Join Setup.env) (configRead.unmarshalProbe Setup.env)
       (configRead.unmarshalV1 Setup.env) (configRead.unmarshalV2 Setup.env)
       Setup.backwards)
    Setup.raw
  = Ok Setup.normal.
Proof.
  apply (validation_order_independent Setup.env Setup.backwards Setup.raw Setup.normal).
  - apply ranges_env.
  - apply covers_backwards.
  - vm_compute. reflexivity.
Defined.

Lemma validation_idempotent_witness :
  configRead.validateAndNormalizeV2 Setup.env Setup.normal = Ok Setup.normal.
Proof.
  apply (validation_idempotent Setup.env Setup.raw Setup.normal).
  - apply ranges_env.
  - apply ranges_env.
  - repeat constructor; discriminate.
  - vm_compute. reflexivity.
Defined.

Example load_v2 :
  configRead.LoadFromBytesWithMetadata Setup.env "v2"
  = Ok (configRead.mkLoadResult Setup.normal 2 false "").
Proof. vm_compute. reflexivity. Qed.

Lemma loaded_config_has_clients_witness :
  config.Targets Setup.normal <> []
  /\ exists clients,
       configRead.BuildRemoteClients Setup.env
         (fun _ _ => Fleet.gitea) (fun _ _ => Fleet.github) Setup.normal = Ok clients
       /\ (forall k, clients !! k
                     = clientFor (fun _ _ => Fleet.gitea) (fun _ _ => Fleet.github)
                         <$> config.Providers Setup.normal !! k)
       /\ Forall (fun t => is_Some (clients !! config.ProviderName t))
                 (config.Targets Setup.normal).
Proof.
  apply (loaded_config_has_clients Setup.env _ _ "v2").
  - apply ranges_env.
  - vm_compute. reflexivity.
Defined.

(** The old configuration is read without complaint, and what it migrates
    to is refused by the validation of the new format. *)
Example ReadV1_duplicate_names :
  is_ok (configRead.ReadV1 Setup.env "v1") = true
  /\ configRead.validateAndNormalizeV2 Setup.env
       (configRead.migrateV1toV2 Setup.env Setup.old)
     = Err ("duplicate target name " +:+ repo.fmt_q "team").
Proof. split; vm_compute; reflexivity. Qed.

Lemma migrated_config_validates_witness :
  is_ok (configRead.validateAndNormalizeV2 Setup.env
           (configRead.migrateV1toV2 Setup.env Setup.old)) = true
  <-> configRead.TrimSuffix (configRead.GiteaURL Setup.old) "/" <> ""
      /\ configRead.GiteaToken Setup.old <> ""
      /\ configRead.Organizations Setup.old <> []
      /\ Forall (fun o => configRead.org_Name o <> ""
                          /\ configRead.expandPath Setup.env (configRead.org_Path o) <> "")
                (configRead.Organizations Setup.old)
      /\ NoDup (configRead.org_Name <$> configRead.Organizations Setup.old).
Proof.
  apply (migrated_config_validates Setup.env Setup.old).
  apply ranges_env.
Defined.

(** * The command line: the number of workers *)
Module cli.

Definition isDigit (c : ascii) : bool :=
  let n := nat_of_ascii c in (48 <=? n)%nat && (n <=? 57)%nat.

Fixpoint digitsValue (acc : Z) (s : string) : option Z :=
  match s with
  | EmptyString => Some acc
  | String c s' =>
      if isDigit c then digitsValue (10 * acc + (Z.of_nat (nat_of_ascii c) - 48)) s'
      else None
  end.

(** [strconv.Atoi]: an optional sign and a non-empty run of decimal
    digits whose value fits an [int]; [None] is a non-nil error. *)
Definition Atoi (s : string) : option Z :=
  let '(neg, body) :=
    match s with
    | String "-"%char r => (true, r)
    | String "+"%char r => (false, r)
    | _ => (false, s)
    end in
  match body with
  | EmptyString => None
  | _ =>
      match digitsValue 0 body with
      | None => None
      | Some n =>
          let v := if neg then - n else n in
          if (GoStrings.minInt64 <=? v) && (v <=? GoStrings.maxInt64) then Some v
          else None
      end
  end.

(** [strings.TrimPrefix] *)
Definition TrimPrefix (s prefix : string) : string :=
  if String.prefix prefix s
  then String.substring (String.length prefix)
                        (String.length s - String.length prefix) s
  else s.

(** The assignment [workers = n] under its guard [err == nil && n > 0]. *)
Definition setWorkers (workers : Z) (value : string) : Z :=
  match Atoi value with
  | Some n => if 0 <? n then n else workers
  | None => workers
  end.

(** The loop of [parseWorkers] from the argument it stands at, with the
    values of [workers] and [remaining]. *)
Fixpoint parseWorkers_from (args : list string) (workers : Z)
    (remaining : list string) : Z * list string :=
  match args with
  | [] => (workers, remaining)
  | arg :: rest =>
      if String.eqb arg "--workers" || String.eqb arg "-w" then
        match rest with
        | [] => (workers, remaining)
        | value :: rest' =>
            parseWorkers_from rest' (setWorkers workers value) remaining
        end
      else if String.prefix "--workers=" arg then
        parseWorkers_from rest (setWorkers workers (TrimPrefix arg "--workers="))
                          remaining
      else if String.prefix "-w=" arg then
        parseWorkers_from rest (setWorkers workers (TrimPrefix arg "-w=")) remaining
      else parseWorkers_from rest workers (remaining ++ [arg])
  end.

(** [parseWorkers] *)
Definition parseWorkers (args : list string) : Z * list string :=
  parseWorkers_from args 0 [].

(** [resolveWorkers] *)
Definition resolveWorkers (cliWorkers : Z) (cfg : config.Config) : Z :=
  if 0 <? cliWorkers then cliWorkers else config.Workers cfg.

End cli.

Section Workers.
Import cli.

(** An argument that [parseWorkers] takes for the flag. *)
Definition isFlag (arg : string) : bool :=
  String.eqb arg "--workers" || String.eqb arg "-w"
  || String.prefix "--workers=" arg || String.prefix "-w=" arg.

Lemma setWorkers_cases w v :
  (setWorkers w v = w) \/ (0 < setWorkers w v /\ forall w', setWorkers w' v = setWorkers w v).
Proof.
  unfold setWorkers. destruct (Atoi v) as [n|]; [|left; reflexivity].
  destruct (0 <? n) eqn:Hn; [|left; reflexivity].
  apply Z.ltb_lt in Hn. right. split; [exact Hn|]. intros w'. reflexivity.
Qed.

Lemma setWorkers_nonneg w v : 0 <= w -> 0 <= setWorkers w v.
Proof. intros H. destruct (setWorkers_cases w v) as [->|[H' _]]; lia. Qed.

Lemma pair_induction {A} (P : list A -> Prop) :
  P [] -> (forall a, P [a]) -> (forall a b l, P l -> P (b :: l) -> P (a :: b :: l)) ->
  forall l, P l.
Proof.
  intros H0 H1 H2 l.
  assert (H : P l /\ forall a, P (a :: l)).
  { induction l as [|b l [IH1 IH2]].
    - split; [exact H0|exact H1].
    - split; [apply IH2|]. intros a. apply H2; [exact IH1|apply IH2]. }
  apply H.
Qed.

Lemma parseWorkers_from_cons arg rest w rem :
  parseWorkers_from (arg :: rest) w rem
  = if String.eqb arg "--workers" || String.eqb arg "-w" then
      match rest with
      | [] => (w, rem)
      | value :: rest' => parseWorkers_from rest' (setWorkers w value) rem
      end
    else if String.prefix "--workers=" arg then
      parseWorkers_from rest (setWorkers w (TrimPrefix arg "--workers=")) rem
    else if String.prefix "-w=" arg then
      parseWorkers_from rest (setWorkers w (TrimPrefix arg "-w=")) rem
    else parseWorkers_from rest w (rem ++ [arg]).
Proof. reflexivity. Qed.

Definition found (x w : Z) : Z := if 0 <? x then x else w.

Lemma found_setWorkers x w v :
  found (found x (setWorkers 0 v)) w = found x (setWorkers w v).
Proof.
  unfold found. destruct (0 <? x) eqn:Hx; [rewrite Hx; reflexivity|].
  destruct (setWorkers_cases 0 v) as [H|[H Hall]].
  - rewrite H. cbn.
    destruct (setWorkers_cases w v) as [H'|[H' Hall']]; [symmetry; exact H'|].
    rewrite (Hall' 0) in H. lia.
  - rewrite (Hall w). apply Z.ltb_lt in H. rewrite H. reflexivity.
Qed.

(** The accumulators only carry: the loop run from any state is the loop
    run from the initial state, with a count it found taking the place of
    the count it started with. *)
Lemma parseWorkers_from_acc args :
  forall w rem,
    parseWorkers_from args w rem
    = (found (fst (parseWorkers args)) w, rem ++ snd (parseWorkers args)).
Proof.
  unfold parseWorkers.
  induction args as [|a|a b l IHl IHbl] using pair_induction; intros w rem.
  - cbn. rewrite app_nil_r. reflexivity.
  - rewrite !parseWorkers_from_cons.
    destruct (String.eqb a "--workers" || String.eqb a "-w").
    { cbn. rewrite app_nil_r. reflexivity. }
    destruct (String.prefix "--workers=" a).
    { cbn [parseWorkers_from fst snd]. rewrite app_nil_r.
      f_equal. exact (eq_sym (found_setWorkers 0 w _)). }
    destruct (String.prefix "-w=" a).
    { cbn [parseWorkers_from fst snd]. rewrite app_nil_r.
      f_equal. exact (eq_sym (found_setWorkers 0 w _)). }
    cbn. reflexivity.
  - rewrite !(parseWorkers_from_cons a).
    destruct (String.eqb a "--workers" || String.eqb a "-w").
    { rewrite (IHl (setWorkers w b) rem), (IHl (setWorkers 0 b) []). cbn [fst snd].
      rewrite found_setWorkers. reflexivity. }
    destruct (String.prefix "--workers=" a).
    { rewrite (IHbl (setWorkers w _) rem), (IHbl (setWorkers 0 _) []). cbn [fst snd].
      rewrite found_setWorkers. reflexivity. }
    destruct (String.prefix "-w=" a).
    { rewrite (IHbl (setWorkers w _) rem), (IHbl (setWorkers 0 _) []). cbn [fst snd].
      rewrite found_setWorkers. reflexivity. }
    rewrite (IHbl w (rem ++ [a])), (IHbl 0 ([] ++ [a])). cbn [fst snd].
    rewrite <- !app_assoc.
    assert (Hf : forall x, found (found x 0) w = found x w).
    { intros x. unfold found. destruct (0 <? x) eqn:Hx; [rewrite Hx|]; reflexivity. }
    rewrite Hf. reflexivity.
Qed.

Lemma parseWorkers_cons a rest :
  parseWorkers (a :: rest)
  = if String.eqb a "--workers" || String.eqb a "-w" then
      match rest with
      | [] => (0, [])
      | value :: rest' =>
          (found (fst (parseWorkers rest')) (setWorkers 0 value),
           snd (parseWorkers rest'))
      end
    else if String.prefix "--workers=" a then
      (found (fst (parseWorkers rest)) (setWorkers 0 (TrimPrefix a "--workers=")),
       snd (parseWorkers rest))
    else if String.prefix "-w=" a then
      (found (fst (parseWorkers rest)) (setWorkers 0 (TrimPrefix a "-w=")),
       snd (parseWorkers rest))
    else (fst (parseWorkers rest), a :: snd (parseWorkers rest)).
Proof.
  unfold parseWorkers at 1. rewrite parseWorkers_from_cons.
  destruct (String.eqb a "--workers" || String.eqb a "-w").
  { destruct rest as [|v rest']; [reflexivity|].
    rewrite parseWorkers_from_acc. reflexivity. }
  destruct (String.prefix "--workers=" a).
  { rewrite parseWorkers_from_acc. reflexivity. }
  destruct (String.prefix "-w=" a).
  { rewrite parseWorkers_from_acc. reflexivity. }
  rewrite parseWorkers_from_acc. cbn [app]. f_equal.
  unfold found. destruct (0 <? fst (parseWorkers rest)) eqn:H; [reflexivity|].
  apply Z.ltb_ge in H.
  assert (Hn : 0 <= fst (parseWorkers rest)); [|lia].
  unfold parseWorkers. clear H.
  assert (Hg : forall l w rem, 0 <= w -> 0 <= fst (parseWorkers_from l w rem)).
  { induction l as [|x|x y l IHl IHyl] using pair_induction; intros w rem Hw.
    - exact Hw.
    - rewrite parseWorkers_from_cons.
      destruct (String.eqb x "--workers" || String.eqb x "-w"); [exact Hw|].
      destruct (String.prefix "--workers=" x); [apply setWorkers_nonneg, Hw|].
      destruct (String.prefix "-w=" x); [apply setWorkers_nonneg, Hw|]. exact Hw.
    - rewrite parseWorkers_from_cons.
      destruct (String.eqb x "--workers" || String.eqb x "-w");
        [apply IHl, setWorkers_nonneg, Hw|].
      destruct (String.prefix "--workers=" x); [apply IHyl, setWorkers_nonneg, Hw|].
      destruct (String.prefix "-w=" x); [apply IHyl, setWorkers_nonneg, Hw|].
      apply IHyl, Hw. }
  apply Hg. lia.
Qed.

Lemma found_nonneg x w : 0 <= x -> 0 <= w -> 0 <= found x w.
Proof. unfold found. destruct (0 <? x); auto. Qed.

Lemma parseWorkers_facts args :
  0 <= fst (parseWorkers args)
  /\ snd (parseWorkers args) `sublist_of` args
  /\ Forall (fun a => isFlag a = false) (snd (parseWorkers args)).
Proof.
  induction args as [|a|a b l IHl IHbl] using pair_induction.
  - cbn. split; [lia|]. split; constructor.
  - rewrite parseWorkers_cons. unfold isFlag.
    destruct (String.eqb a "--workers" || String.eqb a "-w") eqn:E1.
    { cbn. split; [lia|]. split; [apply sublist_nil_l|constructor]. }
    destruct (String.prefix "--workers=" a) eqn:E2.
    { cbn [fst snd parseWorkers parseWorkers_from found]. cbn [Z.ltb Z.compare].
      split; [apply setWorkers_nonneg; lia|]. split; [apply sublist_nil_l|constructor]. }
    destruct (String.prefix "-w=" a) eqn:E3.
    { cbn [fst snd parseWorkers parseWorkers_from found]. cbn [Z.ltb Z.compare].
      split; [apply setWorkers_nonneg; lia|]. split; [apply sublist_nil_l|constructor]. }
    cbn [fst snd parseWorkers parseWorkers_from]. split; [lia|].
    split; [reflexivity|]. constructor; [|constructor].
    unfold isFlag. rewrite E1, E2, E3. reflexivity.
  - destruct IHl as (Hl1 & Hl2 & Hl3). destruct IHbl as (Hb1 & Hb2 & Hb3).
    rewrite parseWorkers_cons.
    destruct (String.eqb a "--workers" || String.eqb a "-w") eqn:E1.
    { cbn [fst snd]. split; [apply found_nonneg; [exact Hl1|apply setWorkers_nonneg; lia]|].
      split; [do 2 apply sublist_cons; exact Hl2|exact Hl3]. }
    destruct (String.prefix "--workers=" a) eqn:E2.
    { cbn [fst snd]. split; [apply found_nonneg; [exact Hb1|apply setWorkers_nonneg; lia]|].
      split; [apply sublist_cons; exact Hb2|exact Hb3]. }
    destruct (String.prefix "-w=" a) eqn:E3.
    { cbn [fst snd]. split; [apply found_nonneg; [exact Hb1|apply setWorkers_nonneg; lia]|].
      split; [apply sublist_cons; exact Hb2|exact Hb3]. }
    cbn [fst snd]. split; [exact Hb1|].
    split; [apply sublist_skip; exact Hb2|]. constructor; [|exact Hb3].
    unfold isFlag. rewrite E1, E2, E3. reflexivity.
Qed.

Lemma parseWorkers_no_flag args :
  Forall (fun a => isFlag a = false) args -> parseWorkers args = (0, args).
Proof.
  induction 1 as [|a rest Ha Hrest IH]; [reflexivity|].
  rewrite parseWorkers_cons, IH. unfold isFlag in Ha.
  destruct (String.eqb a "--workers" || String.eqb a "-w"); [discriminate|].
  destruct (String.prefix "--workers=" a); [discriminate|].
  destruct (String.prefix "-w=" a); [discriminate|]. reflexivity.
Qed.

(** X22.  The arguments left over are arguments given, in their order, none of
    them a workers flag, and the count is never negative; arguments without
    a workers flag are left as they are, with count 0, and the number of
    workers is then that of the configuration. *)
Theorem parseWorkers_remaining args cfg :
  0 <= fst (parseWorkers args)
  /\ snd (parseWorkers args) `sublist_of` args
  /\ Forall (fun a => isFlag a = false) (snd (parseWorkers args))
  /\ (Forall (fun a => isFlag a = false) args ->
      parseWorkers args = (0, args)
      /\ resolveWorkers (fst (parseWorkers args)) cfg = config.Workers cfg).
Proof.
  destruct (parseWorkers_facts args) as (H1 & H2 & H3).
  split; [exact H1|]. split; [exact H2|]. split; [exact H3|].
  intros H. rewrite (parseWorkers_no_flag args H). split; reflexivity.
Qed.

(** X23.  The argument that follows [--workers] or [-w] is taken for its value
    and never left over, whether it is a count or not; a count given later
    on the line takes precedence over it. *)
Theorem parseWorkers_flag_value flag value rest :
  flag = "--workers" \/ flag = "-w" ->
  parseWorkers (flag :: value :: rest)
  = (found (fst (parseWorkers rest)) (setWorkers 0 value), snd (parseWorkers rest)).
Proof.
  intros H. rewrite parseWorkers_cons.
  destruct H as [-> | ->]; reflexivity.
Qed.

End Workers.

Lemma parseWorkers_remaining_witness :
  cli.parseWorkers ["rideshare"; "--debug"] = (0, ["rideshare"; "--debug"])
  /\ cli.resolveWorkers (fst (cli.parseWorkers ["rideshare"; "--debug"])) Setup.normal
     = config.Workers Setup.normal.
Proof.
  apply (proj2 (proj2 (proj2 (parseWorkers_remaining ["rideshare"; "--debug"]
                                Setup.normal)))).
  repeat constructor.
Defined.

(** A target name after the flag is taken for the count, and lost. *)
Lemma parseWorkers_flag_value_witness :
  cli.parseWorkers ["-w"; "rideshare"; "mobile"; "--workers=12"] = (12, ["mobile"]).
Proof.
  rewrite (parseWorkers_flag_value "-w" "rideshare" ["mobile"; "--workers=12"]).
  - vm_compute. reflexivity.
  - right. reflexivity.
Defined.

(** * Package [repo]: cloning

    Cloning changes the file system that later steps look at, so the file
    system is threaded through: [MkdirAll] and the clones of one pool run
    each give the file system that follows.  A clone's outcome is that of
    [git clone] on the file system the run started from.  What a command did
    is recorded as the [git] invocations made and the lines written to
    standard output. *)
Module repoClone.
Import repo.

(** [remote.Repository.GetCloneURL] *)
Definition GetCloneURL (r : remote.Repository) (preferSSH : bool) : string :=
  if preferSSH && negb (String.eqb (remote.SSHURL r) "") then remote.SSHURL r
  else remote.CloneURL r.

(** [pickCloneURL] *)
Definition pickCloneURL (r : remote.Repository) (protocol : string) : string :=
  if String.eqb protocol "ssh" then GetCloneURL r true
  else if String.eqb protocol "auto" then
    if negb (String.eqb (remote.SSHURL r) "") then GetCloneURL r true
    else GetCloneURL r false
  else GetCloneURL r false.

Record cloneJob : Type := mkCloneJob {
  cj_cloneURL : string;
  cj_repoPath : string;
  cj_repoName : string
}.

(** The host of a clone run: [os.MkdirAll] (the file system it leaves and
    its error), [filepath.Dir], [git clone url path] run on a file system
    (its combined output and its error), the file system after the clone
    jobs of one run, [runtime.GOMAXPROCS(0)], and how the goroutines of the
    pool interleave on a list of jobs. *)
Record Host : Type := mkHost {
  MkdirAll : OS -> string -> OS * option string;
  Dir : string -> string;
  gitClone : OS -> string -> string -> string * option string;
  afterClones : OS -> list cloneJob -> OS;
  h_procs : positive;
  h_sched : list cloneJob -> list nat
}.

Record cloneLog : Type := mkCloneLog {
  log_ops : list gitCmd;
  log_printed : list string
}.

Definition logSay (log : cloneLog) (line : string) : cloneLog :=
  mkCloneLog (log_ops log) (log_printed log ++ [line]).

(** How a call ends: with nil, with an error, or in a run-time panic. *)
Inductive outcome : Type :=
| Done
| Failed (e : string)
| Panic.

(** The invocation [exec.Command("git", "clone", url, path)]; it runs in
    the working directory of the process, which the empty directory name
    stands for. *)
Definition cloneCmd (job : cloneJob) : gitCmd :=
  ("", ["clone"; cj_cloneURL job; cj_repoPath job]).

(** The function each pool worker applies to a clone job, paired with the
    invocation it makes. *)
Definition cloneOne (h : Host) (os : OS) (job : cloneJob) : gitCmd * cloneResult :=
  (cloneCmd job,
   match gitClone h os (cj_cloneURL job) (cj_repoPath job) with
   | (output, Some e) =>
       mkCloneResult (cj_repoName job) "error" (Some (e +:+ ": " +:+ output))
   | (_, None) => mkCloneResult (cj_repoName job) "cloned" None
   end).

Definition reportClone (st : tally) (r : cloneResult) : tally :=
  if String.eqb (status r) "cloned" then
    incOk (say st ("  [CLONED] " +:+ repoName r))
  else
    incFailed (say st ("  [ERROR]  " +:+ repoName r +:+ ": " +:+ default "" (err r))).

(** The comparison given to [sort.Slice] in [cloneOrg]. *)
Definition nameNotAfter (a b : remote.Repository) : Prop :=
  String.ltb (remote.Name b) (remote.Name a) = false.

#[global] Instance nameNotAfter_dec (a b : remote.Repository)
    : Decision (nameNotAfter a b) :=
  decide (String.ltb (remote.Name b) (remote.Name a) = false).

Definition protocolOf (m : Manager) (t : config.Target) : string :=
  config.Protocol (config.Clone (config.providerOptions (config m)
                                   (config.ProviderName t))).

(** The body of the loop of [cloneOrg] that builds the jobs. *)
Definition orgCloneJob (m : Manager) (os : OS) (t : config.Target)
    (excludeEmpty includeArchived : bool) (r : remote.Repository)
    : option cloneJob :=
  if remote.Empty r && excludeEmpty then None
  else if remote.Archived r && negb includeArchived then None
  else
    let dest := Join os (config.Path t) (remote.Name r) in
    if isGitRepo os dest then None
    else Some (mkCloneJob (pickCloneURL r (protocolOf m t)) dest (remote.Name r)).

(** [Manager.cloneOrg] *)
Definition cloneOrg (m : Manager) (h : Host) (t : config.Target)
    (excludeEmpty includeArchived : bool) (workers : Z)
    (os : OS) (log : cloneLog) : OS * cloneLog * outcome :=
  match providers m !! config.ProviderName t with
  | None => (os, log, Failed ("no client for provider " +:+ config.ProviderName t))
  | Some client =>
      match remote.ListOrgRepos client (config.Org t) with
      | Err e =>
          (os, log, Failed ("listing repos for " +:+ config.Org t +:+ ": " +:+ e))
      | Ok repos =>
          match MkdirAll h os (config.Path t) with
          | (os1, Some e) =>
              (os1, log,
               Failed ("creating directory " +:+ config.Path t +:+ ": " +:+ e))
          | (os1, None) =>
              let repos := merge_sort nameNotAfter repos in
              let jobs :=
                omap (orgCloneJob m os1 t excludeEmpty includeArchived) repos in
              if (length jobs =? 0)%nat then
                (os1,
                 logSay log ("Org " +:+ config.Org t +:+ ": nothing to clone"),
                 Done)
              else
                let results :=
                  pool.Run (h_procs h) (h_sched h jobs) jobs workers
                           (cloneOne h os1) in
                let st := fold_left reportClone (snd <$> results) tally0 in
                (afterClones h os1 jobs,
                 mkCloneLog
                   (log_ops log ++ (fst <$> results))
                   (log_printed log
                    ++ ["Org " +:+ config.Org t +:+ ": cloning "
                        +:+ GoStrings.fmt_d (Z.of_nat (length jobs))
                        +:+ " repositories..."]
                    ++ printed st
                    ++ ["Org " +:+ config.Org t +:+ ": clone complete ("
                        +:+ GoStrings.fmt_d (nOk st) +:+ " cloned, "
                        +:+ GoStrings.fmt_d (nFailed st) +:+ " failed)"]),
                 Done)
          end
      end
  end.

(** The loop of [cloneRepoWithFoldout] that builds the foldout jobs: the
    log, and the jobs or how the loop ended the call.  A name of fewer than
    two segments makes [parts[1]] panic. *)
Fixpoint foldoutCloneJobs (m : Manager) (client : remote.Client) (os : OS)
    (t : config.Target) (excludeEmpty includeArchived : bool)
    (repos : list foldoutRepo) (log : cloneLog) (jobs : list cloneJob)
    : cloneLog * (list cloneJob + outcome) :=
  match repos with
  | [] => (log, inl jobs)
  | fr :: rest =>
      let dest := Join os (config.Path t) (fr_Target fr) in
      if isGitRepo os dest then
        foldoutCloneJobs m client os t excludeEmpty includeArchived rest log jobs
      else
        match GoStrings.Split (fr_Name fr) "/" with
        | org :: repoName :: _ =>
            match remote.GetRepo client org repoName with
            | Err e =>
                (log, inr (Failed ("fetching foldout repo " +:+ fr_Name fr
                                   +:+ ": " +:+ e)))
            | Ok None =>
                foldoutCloneJobs m client os t excludeEmpty includeArchived rest
                  (logSay log ("  [MISS] " +:+ fr_Name fr +:+ " not found")) jobs
            | Ok (Some r) =>
                if remote.Empty r && excludeEmpty then
                  foldoutCloneJobs m client os t excludeEmpty includeArchived rest
                                   log jobs
                else if remote.Archived r && negb includeArchived then
                  foldoutCloneJobs m client os t excludeEmpty includeArchived rest
                                   log jobs
                else
                  foldoutCloneJobs m client os t excludeEmpty includeArchived rest
                    log
                    (jobs ++ [mkCloneJob (pickCloneURL r (protocolOf m t)) dest
                                         (fr_Name fr)])
            end
        | _ => (log, inr Panic)
        end
  end.

Definition reportFoldout (lines : list string) (r : cloneResult) : list string :=
  if String.eqb (status r) "cloned" then
    lines ++ ["  [CLONED] " +:+ repoName r]
  else
    lines ++ ["  [ERROR]  " +:+ repoName r +:+ ": " +:+ default "" (err r)].

(** The part of [cloneRepoWithFoldout] that follows the clone of the
    repository itself. *)
Definition cloneFoldouts (m : Manager) (h : Host) (client : remote.Client)
    (t : config.Target) (excludeEmpty includeArchived : bool) (workers : Z)
    (os : OS) (log : cloneLog) : OS * cloneLog * outcome :=
  match loadFoldout os (config.Path t) with
  | Err e => (os, log, Failed e)
  | Ok None => (os, log, Done)
  | Ok (Some fc) =>
      match cleanFoldoutTargets (config.Path t) (Repos fc) with
      | Some e => (os, log, Failed e)
      | None =>
          match foldoutCloneJobs m client os t excludeEmpty includeArchived
                                 (Repos fc) log [] with
          | (log, inr end_) => (os, log, end_)
          | (log, inl jobs) =>
              if (length jobs =? 0)%nat then (os, log, Done)
              else
                let results :=
                  pool.Run (h_procs h) (h_sched h jobs) jobs workers
                           (cloneOne h os) in
                (afterClones h os jobs,
                 mkCloneLog
                   (log_ops log ++ (fst <$> results))
                   (fold_left reportFoldout (snd <$> results)
                      (log_printed log
                       ++ ["Foldout: cloning "
                           +:+ GoStrings.fmt_d (Z.of_nat (length jobs))
                           +:+ " repos under " +:+ config.Path t])),
                 Done)
          end
      end
  end.

(** [Manager.cloneRepoWithFoldout]; what the failed clone of the
    repository wrote goes to standard error and is not recorded. *)
Definition cloneRepoWithFoldout (m : Manager) (h : Host) (t : config.Target)
    (excludeEmpty includeArchived : bool) (workers : Z)
    (os : OS) (log : cloneLog) : OS * cloneLog * outcome :=
  match providers m !! config.ProviderName t with
  | None => (os, log, Failed ("no client for provider " +:+ config.ProviderName t))
  | Some client =>
      match remote.GetRepo client (config.Org t) (config.Repo t) with
      | Err e =>
          (os, log, Failed ("fetching repo " +:+ config.Org t +:+ "/"
                            +:+ config.Repo t +:+ ": " +:+ e))
      | Ok None =>
          (os, log, Failed ("repo " +:+ config.Org t +:+ "/" +:+ config.Repo t
                            +:+ " not found"))
      | Ok (Some r) =>
          if remote.Empty r && excludeEmpty then
            (os, logSay log ("Skipping empty repo: " +:+ config.Org t +:+ "/"
                             +:+ config.Repo t), Done)
          else if remote.Archived r && negb includeArchived then
            (os, logSay log ("Skipping archived repo: " +:+ config.Org t +:+ "/"
                             +:+ config.Repo t), Done)
          else
            match MkdirAll h os (Dir h (config.Path t)) with
            | (os1, Some e) => (os1, log, Failed ("creating parent dir: " +:+ e))
            | (os1, None) =>
                if negb (isGitRepo os1 (config.Path t)) then
                  let job := mkCloneJob (pickCloneURL r (protocolOf m t))
                                        (config.Path t) (config.Repo t) in
                  let log :=
                    mkCloneLog
                      (log_ops log ++ [cloneCmd job])
                      (log_printed log
                       ++ ["Cloning " +:+ config.Org t +:+ "/" +:+ config.Repo t
                           +:+ " -> " +:+ config.Path t]) in
                  match gitClone h os1 (cj_cloneURL job) (cj_repoPath job) with
                  | (_, Some e) => (afterClones h os1 [job], log, Failed e)
                  | (_, None) =>
                      cloneFoldouts m h client t excludeEmpty includeArchived
                                    workers (afterClones h os1 [job]) log
                  end
                else
                  cloneFoldouts m h client t excludeEmpty includeArchived workers
                                os1 (logSay log ("Exists: " +:+ config.Path t))
            end
      end
  end.

(** The loop of [Manager.Clone] over the targets. *)
Fixpoint cloneTargets (m : Manager) (h : Host) (targets : list config.Target)
    (excludeEmpty includeArchived : bool) (workers : Z)
    (os : OS) (log : cloneLog) : OS * cloneLog * outcome :=
  match targets with
  | [] => (os, log, Done)
  | t :: rest =>
      let '(os', log', end_) :=
        if String.eqb (config.Repo t) "" then
          cloneOrg m h t excludeEmpty includeArchived workers os log
        else
          cloneRepoWithFoldout m h t excludeEmpty includeArchived workers os log in
      match end_ with
      | Done => cloneTargets m h rest excludeEmpty includeArchived workers os' log'
      | _ => (os', log', end_)
      end
  end.

(** [Manager.Clone] *)
Definition Clone (m : Manager) (h : Host) (targetNames : list string)
    (excludeEmpty includeArchived : bool) (workers : Z) (os : OS)
    : OS * cloneLog * outcome :=
  match targetsFor m targetNames with
  | Err e => (os, mkCloneLog [] [], Failed e)
  | Ok targets =>
      cloneTargets m h targets excludeEmpty includeArchived workers os
                   (mkCloneLog [] [])
  end.

End repoClone.

(** ** What a clone run clones *)
Section Cloning.
Import repo repoClone.

(** X24.  The address a clone uses is the SSH address exactly when the protocol
    is [ssh] or [auto] and the repository has one; in every other case,
    an unknown protocol and [ssh] without an SSH address among them, it
    is the HTTPS address.  So [ssh] and [auto] choose alike. *)
Theorem pickCloneURL_spec r protocol :
  pickCloneURL r protocol
  = (if (String.eqb protocol "ssh" || String.eqb protocol "auto")
        && negb (String.eqb (remote.SSHURL r) "")
     then remote.SSHURL r else remote.CloneURL r)
  /\ pickCloneURL r "ssh" = pickCloneURL r "auto".
Proof.
  unfold pickCloneURL, GetCloneURL. split.
  - destruct (String.eqb protocol "ssh"); [reflexivity|].
    destruct (String.eqb protocol "auto"); [|reflexivity].
    destruct (String.eqb (remote.SSHURL r) ""); reflexivity.
  - cbn. destruct (String.eqb (remote.SSHURL r) ""); reflexivity.
Qed.

(** A listed repository that [cloneOrg] is to clone. *)
Definition wanted (os : OS) (t : config.Target) (excludeEmpty includeArchived : bool)
    (r : remote.Repository) : Prop :=
  (remote.Empty r && excludeEmpty = false)
  /\ (remote.Archived r && negb includeArchived = false)
  /\ isGitRepo os (Join os (config.Path t) (remote.Name r)) = false.

#[local] Instance wanted_dec os t ee ia r : Decision (wanted os t ee ia r).
Proof. unfold wanted. apply _. Defined.

Definition orgJobOf (m : Manager) (os : OS) (t : config.Target)
    (r : remote.Repository) : cloneJob :=
  mkCloneJob (pickCloneURL r (protocolOf m t))
             (Join os (config.Path t) (remote.Name r)) (remote.Name r).

Lemma omap_orgCloneJob m os t ee ia (repos : list remote.Repository) :
  omap (orgCloneJob m os t ee ia) repos
  = orgJobOf m os t <$> filter (wanted os t ee ia) repos.
Proof.
  induction repos as [|r rest IH]; [reflexivity|].
  cbn [omap list_omap]. fold (omap (orgCloneJob m os t ee ia) rest). rewrite IH.
  unfold orgCloneJob at 1.
  destruct (decide (wanted os t ee ia r)) as [Hw|Hw].
  - rewrite (filter_cons_True (wanted os t ee ia)) by exact Hw.
    destruct Hw as (H1 & H2 & H3). rewrite H1, H2. cbv zeta. rewrite H3. reflexivity.
  - rewrite (filter_cons_False (wanted os t ee ia)) by exact Hw.
    unfold wanted in Hw.
    destruct (remote.Empty r && ee); [reflexivity|].
    destruct (remote.Archived r && negb ia); [reflexivity|]. cbv zeta.
    destruct (isGitRepo os (Join os (config.Path t) (remote.Name r))); [reflexivity|].
    exfalso. apply Hw. repeat split.
Qed.

Lemma fold_reportClone_counts rs st :
  nOk (fold_left reportClone rs st) + nFailed (fold_left reportClone rs st)
  = nOk st + nFailed st + Z.of_nat (length rs).
Proof.
  revert st. induction rs as [|r rs IH]; intros st; [cbn; lia|].
  cbn [fold_left length]. rewrite IH. unfold reportClone.
  destruct (String.eqb (status r) "cloned"); cbn; lia.
Qed.

(** X25.  Where the provider has a client, the listing succeeds and the target
    directory can be made, [cloneOrg] ends without error, whatever the clones
    do; it runs one [git clone] for each listed repository that is not
    filtered out as empty or archived and has no working copy yet on the file
    system as [MkdirAll] left it, into the directory of that name under the
    target path and from the address the provider's protocol selects, and
    runs nothing else. *)
Theorem cloneOrg_clones m h t ee ia workers os log client repos os1 :
  providers m !! config.ProviderName t = Some client ->
  remote.ListOrgRepos client (config.Org t) = Ok repos ->
  MkdirAll h os (config.Path t) = (os1, None) ->
  exists os' log',
    cloneOrg m h t ee ia workers os log = (os', log', Done)
    /\ log_ops log'
       ≡ₚ log_ops log
          ++ (cloneCmd ∘ orgJobOf m os1 t <$> filter (wanted os1 t ee ia) repos).
Proof.
  intros Hc Hl Hm. unfold cloneOrg. rewrite Hc, Hl, Hm. cbv zeta.
  assert (Hjobs : omap (orgCloneJob m os1 t ee ia) (merge_sort nameNotAfter repos)
                  ≡ₚ orgJobOf m os1 t <$> filter (wanted os1 t ee ia) repos).
  { rewrite (merge_sort_Permutation nameNotAfter repos). rewrite omap_orgCloneJob.
    reflexivity. }
  destruct (length (omap (orgCloneJob m os1 t ee ia) (merge_sort nameNotAfter repos))
            =? 0)%nat eqn:Hn.
  - apply Nat.eqb_eq in Hn.
    destruct (omap (orgCloneJob m os1 t ee ia) (merge_sort nameNotAfter repos))
      as [|j js] eqn:Hj; [|discriminate].
    eexists _, _. split; [reflexivity|]. cbn [log_ops logSay].
    apply Permutation_nil_l in Hjobs. rewrite list_fmap_compose, <- Hjobs.
    rewrite app_nil_r. reflexivity.
  - eexists _, _. split; [reflexivity|]. cbn [log_ops].
    apply Permutation_app_head.
    rewrite (Run_Permutation (h_procs h) (cloneOne h os1)).
    rewrite <- list_fmap_compose.
    change (fst ∘ cloneOne h os1) with cloneCmd.
    rewrite Hjobs, <- list_fmap_compose. reflexivity.
Qed.

(** A foldout entry whose clone the loop has queued, with the repository
    the provider answered for it. *)
Definition queued (m : Manager) (client : remote.Client) (os : OS)
    (t : config.Target) (ee ia : bool) (p : foldoutRepo * remote.Repository) : Prop :=
  isGitRepo os (Join os (config.Path t) (fr_Target (fst p))) = false
  /\ (exists org name,
        GoStrings.Split (fr_Name (fst p)) "/" = [org; name]
        /\ remote.GetRepo client org name = Ok (Some (snd p)))
  /\ remote.Empty (snd p) && ee = false
  /\ remote.Archived (snd p) && negb ia = false.

(** A foldout entry the loop cannot resolve: it has no working copy yet and
    the provider answers the request for its repository with an error. *)
Definition unresolved (client : remote.Client) (os : OS) (t : config.Target)
    (fr : foldoutRepo) : Prop :=
  isGitRepo os (Join os (config.Path t) (fr_Target fr)) = false
  /\ exists org name e,
       GoStrings.Split (fr_Name fr) "/" = [org; name]
       /\ remote.GetRepo client org name = Err e.

Definition foldoutJobOf (m : Manager) (os : OS) (t : config.Target)
    (p : foldoutRepo * remote.Repository) : cloneJob :=
  mkCloneJob (pickCloneURL (snd p) (protocolOf m t))
             (Join os (config.Path t) (fr_Target (fst p))) (fr_Name (fst p)).

(** The invocation that clones a foldout entry: [git clone], from the
    address the provider's protocol selects for the repository answered,
    into the entry's target directory under the path of the target. *)
Definition foldoutClone (m : Manager) (os : OS) (t : config.Target)
    (p : foldoutRepo * remote.Repository) : gitCmd :=
  ("", ["clone"; pickCloneURL (snd p) (protocolOf m t);
        Join os (config.Path t) (fr_Target (fst p))]).

Lemma foldoutCloneJobs_spec m client os t ee ia repos :
  Forall (fun fr => twoSegments (fr_Name fr)) repos ->
  forall log jobs,
  exists log',
    log_ops log' = log_ops log
    /\ ((exists e, foldoutCloneJobs m client os t ee ia repos log jobs
                   = (log', inr (Failed e))
                   /\ exists fr, fr ∈ repos /\ unresolved client os t fr)
        \/ exists picked,
             foldoutCloneJobs m client os t ee ia repos log jobs
             = (log', inl (jobs ++ (foldoutJobOf m os t <$> picked)))
             /\ fst <$> picked `sublist_of` repos
             /\ Forall (queued m client os t ee ia) picked
             /\ (forall fr r, fr ∈ repos -> queued m client os t ee ia (fr, r) ->
                              (fr, r) ∈ picked)).
Proof.
  induction 1 as [|fr rest Hfr Hrest IH]; intros log jobs.
  - exists log. split; [reflexivity|]. right. exists [].
    cbn. rewrite app_nil_r. split; [reflexivity|]. split; [constructor|].
    split; [constructor|]. intros fr r Hin. apply elem_of_nil in Hin. contradiction.
  - cbn [foldoutCloneJobs]. cbv zeta.
    assert (Hskip : forall log0,
              (forall r, ~ queued m client os t ee ia (fr, r)) ->
              exists log',
                log_ops log' = log_ops log0
                /\ ((exists e, foldoutCloneJobs m client os t ee ia rest log0 jobs
                               = (log', inr (Failed e))
                               /\ exists fr', fr' ∈ fr :: rest /\ unresolved client os t fr')
                    \/ exists picked,
                         foldoutCloneJobs m client os t ee ia rest log0 jobs
                         = (log', inl (jobs ++ (foldoutJobOf m os t <$> picked)))
                         /\ fst <$> picked `sublist_of` fr :: rest
                         /\ Forall (queued m client os t ee ia) picked
                         /\ (forall fr' r, fr' ∈ fr :: rest ->
                                           queued m client os t ee ia (fr', r) ->
                                           (fr', r) ∈ picked))).
    { intros log0 Hnq.
      destruct (IH log0 jobs)
        as (log' & Hops & [(e & He & fr' & Hin & Hun)
                          |(picked & Hrun & Hsub & Hall & Hcomp)]).
      - exists log'. split; [exact Hops|]. left. exists e. split; [exact He|].
        exists fr'. split; [apply list_elem_of_further; exact Hin|exact Hun].
      - exists log'. split; [exact Hops|]. right. exists picked.
        split; [exact Hrun|]. split; [apply sublist_cons; exact Hsub|].
        split; [exact Hall|].
        intros fr' r Hin Hq. apply elem_of_cons in Hin as [->|Hin].
        + exfalso. exact (Hnq r Hq).
        + exact (Hcomp fr' r Hin Hq). }
    destruct (isGitRepo os (Join os (config.Path t) (fr_Target fr))) eqn:Hgit.
    { apply Hskip. intros r (Hq & _). cbn [fst] in Hq. congruence. }
    unfold twoSegments in Hfr.
    destruct (GoStrings.Split (fr_Name fr) "/") as [|org [|name [|x xs]]] eqn:Hsplit;
      try discriminate.
    destruct (remote.GetRepo client org name) as [[r|]|e] eqn:Hget.
    + assert (Hsame : forall r', queued m client os t ee ia (fr, r') -> r' = r).
      { intros r' (_ & (org' & name' & Hs' & Hg') & _). cbn [fst snd] in Hs', Hg'.
        rewrite Hsplit in Hs'. injection Hs' as <- <-. congruence. }
      destruct (remote.Empty r && ee) eqn:He.
      { destruct (Hskip log) as (log' & Hops & Hcases).
        - intros r' Hq. pose proof (Hsame r' Hq) as ->.
          destruct Hq as (_ & _ & Hq & _). cbn [snd] in Hq. congruence.
        - exists log'. split; [exact Hops|]. exact Hcases. }
      destruct (remote.Archived r && negb ia) eqn:Ha.
      { destruct (Hskip log) as (log' & Hops & Hcases).
        - intros r' Hq. pose proof (Hsame r' Hq) as ->.
          destruct Hq as (_ & _ & _ & Hq). cbn [snd] in Hq. congruence.
        - exists log'. split; [exact Hops|]. exact Hcases. }
      destruct (IH log (jobs ++ [mkCloneJob (pickCloneURL r (protocolOf m t))
                                   (Join os (config.Path t) (fr_Target fr))
                                   (fr_Name fr)]))
        as (log' & Hops & [(e' & He' & fr' & Hin & Hun)
                          |(picked & Hrun & Hsub & Hall & Hcomp)]).
      * exists log'. split; [exact Hops|]. left. exists e'. split; [exact He'|].
        exists fr'. split; [apply list_elem_of_further; exact Hin|exact Hun].
      * exists log'. split; [exact Hops|]. right. exists ((fr, r) :: picked).
        split; [rewrite Hrun, <- app_assoc; reflexivity|].
        split; [cbn; apply sublist_skip; exact Hsub|].
        split.
        { constructor; [|exact Hall]. unfold queued. cbn [fst snd].
          split; [exact Hgit|]. split; [|split; assumption].
          exists org, name. split; [exact Hsplit|exact Hget]. }
        intros fr' r' Hin Hq. apply elem_of_cons in Hin as [->|Hin].
        { rewrite (Hsame r' Hq). apply list_elem_of_here. }
        apply list_elem_of_further. exact (Hcomp fr' r' Hin Hq).
    + refine (Hskip (logSay log ("  [MISS] " +:+ fr_Name fr +:+ " not found")) _).
      intros r' (_ & (org' & name' & Hs' & Hg') & _).
      cbn [fst snd] in Hs', Hg'. rewrite Hsplit in Hs'. injection Hs' as <- <-.
      congruence.
    + exists log. split; [reflexivity|]. left. eexists. split; [reflexivity|].
      exists fr. split; [apply list_elem_of_here|].
      split; [exact Hgit|]. exists org, name, e. split; [exact Hsplit|exact Hget].
Qed.

Definition goodTargets (picked : list (foldoutRepo * remote.Repository)) : Prop :=
  NoDup (fr_Target ∘ fst <$> picked)
  /\ Forall (fun p => fr_Target (fst p) <> ""
                      /\ GoStrings.Contains (fr_Target (fst p)) ".." = false) picked.

Lemma cleanFoldoutTargets_None base repos :
  cleanFoldoutTargets base repos = None ->
  NoDup (fr_Target <$> repos) /\ Forall (fun r => ~ badTarget r) repos.
Proof.
  intros Hc.
  assert (Hn : ~ ((exists r, r ∈ repos /\ badTarget r) \/ ~ NoDup (fr_Target <$> repos))).
  { intros H. apply (cleanFoldoutTargets_spec base) in H. contradiction. }
  split.
  - destruct (decide (NoDup (fr_Target <$> repos))) as [H|H]; [exact H|].
    exfalso. apply Hn. right. exact H.
  - apply Forall_forall. intros r Hr Hbad. apply Hn. left. exists r. split; assumption.
Qed.

Lemma loadFoldout_names os path fc :
  loadFoldout os path = Ok (Some fc) ->
  Forall (fun fr => twoSegments (fr_Name fr)) (Repos fc).
Proof.
  unfold loadFoldout.
  destruct (ReadFile os _) as [data| |msg]; try discriminate.
  destruct (Unmarshal os data) as [fc0|msg]; [|discriminate].
  destruct (defaultTargets (Repos fc0)) as [rs|e] eqn:Hd; [|discriminate].
  intros H. injection H as <-. cbn [Repos].
  eapply Forall_impl; [apply (defaultTargets_post _ _ Hd)|].
  intros fr [H _]. exact H.
Qed.

(** X26.  The foldout part of [cloneRepoWithFoldout], on a manifest that
    loads and passes the check of its targets.  If the provider answers
    with an error for an entry that has no working copy yet, the call
    fails and no clone is run.  Otherwise the call ends without error,
    whatever the clones do, and the clones it runs are exactly those of the
    manifest entries that have no working copy yet under the path of the
    repository and for whose name the provider answered a repository that
    is not filtered out as empty or archived: one [git clone] for each such
    entry, from the address the provider's protocol selects, into the
    entry's target directory; no two go into the same target, and every
    target is non-empty and has no [..] in it. *)
Theorem foldout_clones m h client t ee ia workers os log fc :
  loadFoldout os (config.Path t) = Ok (Some fc) ->
  cleanFoldoutTargets (config.Path t) (Repos fc) = None ->
  exists os' log' end_,
    cloneFoldouts m h client t ee ia workers os log = (os', log', end_)
    /\ ((exists e fr,
           end_ = Failed e /\ fr ∈ Repos fc /\ unresolved client os t fr
           /\ log_ops log' = log_ops log)
        \/ (end_ = Done
            /\ exists picked,
                 log_ops log' ≡ₚ log_ops log ++ (foldoutClone m os t <$> picked)
                 /\ fst <$> picked `sublist_of` Repos fc
                 /\ (forall fr r,
                       (fr, r) ∈ picked
                       <-> fr ∈ Repos fc /\ queued m client os t ee ia (fr, r))
                 /\ goodTargets picked)).
Proof.
  intros Hload Hclean. unfold cloneFoldouts. rewrite Hload, Hclean.
  apply loadFoldout_names in Hload.
  apply cleanFoldoutTargets_None in Hclean as [Hnd Hgood].
  destruct (foldoutCloneJobs_spec m client os t ee ia (Repos fc) Hload log [])
    as (log1 & Hops & [(e & He & fr & Hin & Hun)
                      |(picked & Hrun & Hsub & Hall & Hcomp)]).
  { rewrite He. eexists _, _, _. split; [reflexivity|]. left.
    exists e, fr. auto. }
  rewrite Hrun. cbn [app].
  assert (Hgt : goodTargets picked).
  { split.
    - rewrite list_fmap_compose. apply (sublist_NoDup _ _ Hnd).
      apply fmap_sublist. exact Hsub.
    - apply Forall_forall. intros p Hp.
      assert (Hin : fst p ∈ Repos fc).
      { apply (elem_of_sublist (fst <$> picked)); [|exact Hsub].
        apply list_elem_of_fmap_2. exact Hp. }
      rewrite Forall_forall in Hgood. specialize (Hgood _ Hin). unfold badTarget in Hgood.
      split; [tauto|].
      destruct (GoStrings.Contains (fr_Target (fst p)) ".."); [|reflexivity].
      exfalso. apply Hgood. right. reflexivity. }
  assert (Hiff : forall fr r,
            (fr, r) ∈ picked
            <-> fr ∈ Repos fc /\ queued m client os t ee ia (fr, r)).
  { intros fr r. split.
    - intros Hp. split.
      + apply (elem_of_sublist (fst <$> picked)); [|exact Hsub].
        apply (list_elem_of_fmap_2 fst _ _ Hp).
      + rewrite Forall_forall in Hall. exact (Hall _ Hp).
    - intros [Hin Hq]. exact (Hcomp fr r Hin Hq). }
  destruct (length (foldoutJobOf m os t <$> picked) =? 0)%nat eqn:Hn.
  - apply Nat.eqb_eq in Hn. rewrite length_fmap in Hn.
    destruct picked; [|discriminate].
    eexists _, _, _. split; [reflexivity|]. right. split; [reflexivity|].
    exists []. rewrite Hops. cbn [fmap list_fmap]. rewrite app_nil_r.
    split; [reflexivity|]. split; [exact Hsub|]. split; [exact Hiff|exact Hgt].
  - eexists _, _, _. split; [reflexivity|]. right. split; [reflexivity|].
    exists picked. cbn [log_ops]. rewrite Hops.
    split; [|split; [exact Hsub|split; [exact Hiff|exact Hgt]]].
    apply Permutation_app_head.
    rewrite (Run_Permutation (h_procs h) (cloneOne h os)).
    rewrite <- !list_fmap_compose. reflexivity.
Qed.

Lemma cloneFoldouts_no_panic m h client t ee ia workers os log :
  snd (cloneFoldouts m h client t ee ia workers os log) <> Panic.
Proof.
  unfold cloneFoldouts.
  destruct (loadFoldout os (config.Path t)) as [[fc|]|e] eqn:Hload;
    [|discriminate|discriminate].
  destruct (cleanFoldoutTargets (config.Path t) (Repos fc)); [discriminate|].
  apply loadFoldout_names in Hload.
  destruct (foldoutCloneJobs_spec m client os t ee ia (Repos fc) Hload log [])
    as (log1 & _ & [(e & He & _)|(picked & Hrun & _)]).
  - rewrite He. discriminate.
  - rewrite Hrun. destruct (length _ =? 0)%nat; discriminate.
Qed.

Lemma cloneOrg_no_panic m h t ee ia workers os log :
  snd (cloneOrg m h t ee ia workers os log) <> Panic.
Proof.
  unfold cloneOrg.
  destruct (providers m !! config.ProviderName t) as [client|]; [|discriminate].
  destruct (remote.ListOrgRepos client (config.Org t)) as [repos|e]; [|discriminate].
  destruct (MkdirAll h os (config.Path t)) as [os1 [e|]]; [discriminate|].
  cbv zeta. destruct (length _ =? 0)%nat; discriminate.
Qed.

Lemma cloneRepoWithFoldout_no_panic m h t ee ia workers os log :
  snd (cloneRepoWithFoldout m h t ee ia workers os log) <> Panic.
Proof.
  unfold cloneRepoWithFoldout.
  destruct (providers m !! config.ProviderName t) as [client|]; [|discriminate].
  destruct (remote.GetRepo client (config.Org t) (config.Repo t)) as [[r|]|e];
    [|discriminate|discriminate].
  destruct (remote.Empty r && ee); [discriminate|].
  destruct (remote.Archived r && negb ia); [discriminate|].
  destruct (MkdirAll h os (Dir h (config.Path t))) as [os1 [e|]]; [discriminate|].
  destruct (negb (isGitRepo os1 (config.Path t))).
  - cbv zeta. cbn [cj_cloneURL cj_repoPath].
    destruct (gitClone h os1 _ _) as [out [e|]]; [discriminate|].
    apply cloneFoldouts_no_panic.
  - apply cloneFoldouts_no_panic.
Qed.

Lemma Clone_no_panic m h targetNames ee ia workers os :
  snd (Clone m h targetNames ee ia workers os) <> Panic.
Proof.
  unfold Clone. destruct (targetsFor m targetNames) as [targets|e]; [|discriminate].
  generalize (mkCloneLog [] []). revert os.
  induction targets as [|t rest IH]; intros os log; [discriminate|].
  cbn [cloneTargets].
  destruct (String.eqb (config.Repo t) "").
  - pose proof (cloneOrg_no_panic m h t ee ia workers os log) as Hp.
    destruct (cloneOrg m h t ee ia workers os log) as [[os' log'] [|e|]];
      [apply IH|discriminate|exact Hp].
  - pose proof (cloneRepoWithFoldout_no_panic m h t ee ia workers os log) as Hp.
    destruct (cloneRepoWithFoldout m h t ee ia workers os log) as [[os' log'] [|e|]];
      [apply IH|discriminate|exact Hp].
Qed.

(** X27.  A clone run never panics, whatever the configuration, the providers'
    answers, the manifests and the file system are; the one index
    expression it evaluates on data from outside, [parts[1]] on a foldout
    name, is in range whenever it is reached.  The run ends with nil or
    with an error. *)
Theorem Clone_never_panics m h targetNames ee ia workers os :
  snd (Clone m h targetNames ee ia workers os) = Done
  \/ exists e, snd (Clone m h targetNames ee ia workers os) = Failed e.
Proof.
  pose proof (Clone_no_panic m h targetNames ee ia workers os) as Hp.
  destruct (snd (Clone m h targetNames ee ia workers os)) as [|e|].
  - left. reflexivity.
  - right. exists e. reflexivity.
  - contradiction.
Qed.

End Cloning.

(** ** A clone run over the fleet *)
Module Yard.
Import repo repoClone.

Definition repoOf (name : string) (empty archived : bool) : remote.Repository :=
  remote.mkRepository 1 name ("acme/" +:+ name) ""
    ("https://gitea.acme.com/acme/" +:+ name +:+ ".git")
    ("git@gitea.acme.com:acme/" +:+ name +:+ ".git") "" "main"
    empty archived false false.

(** The organisation has a repository cloned already, a new one, an empty
    one, and one whose clone fails. *)
Definition gitea : remote.Client :=
  remote.mkClient
    (fun org => if String.eqb org "acme"
                then Ok [repoOf "old" false true; repoOf "zeta" false false;
                         repoOf "blank" true false; repoOf "new" false false]
                else Err "404")
    (fun org name => if String.eqb org "beta"
                     then Ok (Some (repoOf name false false))
                     else Ok None).

Definition manager : Manager :=
  mkManager {[ "gitea" := gitea; "github" := gitea ]} Fleet.cfg.

Definition host : Host :=
  mkHost (fun os _ => (os, None)) (fun p => p)
    (fun _ _ path => if String.eqb path "/w/acme/zeta"
                     then ("fatal: repository not found", Some "exit status 128")
                     else ("", None))
    (fun os _ => os) 2%positive (fun _ => []).

End Yard.

Example cloneOrg_yard :
  repoClone.cloneOrg Yard.manager Yard.host Fleet.t_acme true true 0 Fleet.os
    (repoClone.mkCloneLog [] [])
  = (Fleet.os,
     repoClone.mkCloneLog
       [("", ["clone"; "https://gitea.acme.com/acme/new.git"; "/w/acme/new"]);
        ("", ["clone"; "https://gitea.acme.com/acme/zeta.git"; "/w/acme/zeta"])]
       ["Org acme: cloning 2 repositories...";
        "  [CLONED] new";
        "  [ERROR]  zeta: exit status 128: fatal: repository not found";
        "Org acme: clone complete (1 cloned, 1 failed)"],
     repoClone.Done).
Proof. vm_compute. reflexivity. Qed.

Lemma cloneOrg_clones_witness :
  exists os' log',
    repoClone.cloneOrg Yard.manager Yard.host Fleet.t_acme true true 0 Fleet.os
      (repoClone.mkCloneLog [] [])
    = (os', log', repoClone.Done)
    /\ repoClone.log_ops log'
       ≡ₚ [] ++ (repoClone.cloneCmd ∘ orgJobOf Yard.manager Fleet.os Fleet.t_acme
                   <$> filter (wanted Fleet.os Fleet.t_acme true true)
                         [Yard.repoOf "old" false true; Yard.repoOf "zeta" false false;
                          Yard.repoOf "blank" true false; Yard.repoOf "new" false false]).
Proof.
  apply (cloneOrg_clones Yard.manager Yard.host Fleet.t_acme true true 0 Fleet.os
           (repoClone.mkCloneLog [] []) Yard.gitea).
  - reflexivity.
  - reflexivity.
  - reflexivity.
Defined.

Example Clone_yard :
  repoClone.Clone Yard.manager Yard.host [] true false 0 Fleet.os
  = (Fleet.os,
     repoClone.mkCloneLog
       [("", ["clone"; "https://gitea.acme.com/acme/new.git"; "/w/acme/new"]);
        ("", ["clone"; "https://gitea.acme.com/acme/zeta.git"; "/w/acme/zeta"]);
        ("", ["clone"; "https://gitea.acme.com/acme/mobile-infra.git";
              "/w/app/mobile-infra"])]
       ["Org acme: cloning 2 repositories..."; "  [CLONED] new";
        "  [ERROR]  zeta: exit status 128: fatal: repository not found";
        "Org acme: clone complete (1 cloned, 1 failed)";
        "Exists: /w/app"; "Foldout: cloning 1 repos under /w/app";
        "  [CLONED] beta/mobile-infra"],
     repoClone.Done).
Proof. vm_compute. reflexivity. Qed.

(** The foldout part of the clone of [beta/app]: of the two manifest
    entries, [api] has a working copy and [mobile-infra] is cloned. *)
Definition fleet_manifest : repo.foldoutConfig :=
  repo.mkFoldoutConfig [repo.mkFoldoutRepo "beta/mobile-api" "api";
                        repo.mkFoldoutRepo "beta/mobile-infra" "mobile-infra"].

Example cloneFoldouts_yard :
  repoClone.cloneFoldouts Yard.manager Yard.host Yard.gitea Fleet.t_app true false 0
    Fleet.os (repoClone.mkCloneLog [] [])
  = (Fleet.os,
     repoClone.mkCloneLog
       [("", ["clone"; "https://gitea.acme.com/acme/mobile-infra.git";
              "/w/app/mobile-infra"])]
       ["Foldout: cloning 1 repos under /w/app"; "  [CLONED] beta/mobile-infra"],
     repoClone.Done).
Proof. vm_compute. reflexivity. Qed.

(** With a provider that answers every request with an error, the foldout
    part fails at the first entry without working copy and clones
    nothing. *)
Definition gitea_down : remote.Client :=
  remote.mkClient (fun _ => Err "503") (fun _ _ => Err "503").

Example cloneFoldouts_provider_down :
  repoClone.cloneFoldouts Yard.manager Yard.host gitea_down Fleet.t_app true false 0
    Fleet.os (repoClone.mkCloneLog [] [])
  = (Fleet.os, repoClone.mkCloneLog [] [],
     repoClone.Failed "fetching foldout repo beta/mobile-infra: 503").
Proof. vm_compute. reflexivity. Qed.

Lemma foldout_clones_witness :
  exists os' log' end_,
    repoClone.cloneFoldouts Yard.manager Yard.host Yard.gitea Fleet.t_app true false 0
      Fleet.os (repoClone.mkCloneLog [] [])
    = (os', log', end_)
    /\ ((exists e fr,
           end_ = repoClone.Failed e /\ fr ∈ repo.Repos fleet_manifest
           /\ unresolved Yard.gitea Fleet.os Fleet.t_app fr
           /\ repoClone.log_ops log' = [])
        \/ (end_ = repoClone.Done
            /\ exists picked,
                 repoClone.log_ops log'
                 ≡ₚ [] ++ (foldoutClone Yard.manager Fleet.os Fleet.t_app <$> picked)
                 /\ fst <$> picked `sublist_of` repo.Repos fleet_manifest
                 /\ (forall fr r,
                       (fr, r) ∈ picked
                       <-> fr ∈ repo.Repos fleet_manifest
                           /\ queued Yard.manager Yard.gitea Fleet.os Fleet.t_app
                                     true false (fr, r))
                 /\ goodTargets picked)).
Proof.
  exact (foldout_clones Yard.manager Yard.host Yard.gitea Fleet.t_app true false 0
           Fleet.os (repoClone.mkCloneLog [] []) fleet_manifest
           loadFoldout_fleet eq_refl).
Defined.

(** * Package [repo]: the status report *)
Module repoStatus.
Import repo.

(** The six counters of [Manager.Status] and the lines it has written. *)
Record summary : Type := mkSummary {
  n_clean : Z;
  n_dirty : Z;
  n_ahead : Z;
  n_behind : Z;
  n_diverged : Z;
  n_errored : Z;
  s_printed : list string
}.

Definition summary0 : summary := mkSummary 0 0 0 0 0 0 [].

(** The flags of a status without fatal error, in the order they are
    appended. *)
Definition flagsOf (s : RepoStatus) : list string :=
  (if Dirty s then ["dirty"] else [])
  ++ (if 0 <? Ahead s then [GoStrings.fmt_d (Ahead s) +:+ " ahead"] else [])
  ++ (if 0 <? Behind s then
        [GoStrings.fmt_d (Behind s) +:+ " behind"]
        ++ (if negb (CanFastForward s) then ["diverged"] else [])
      else [])
  ++ (if negb (String.eqb (RemoteError s) "") then ["remote: " +:+ RemoteError s]
      else [])
  ++ (if Archived s then ["archived"] else [])
  ++ (if Orphan s then ["orphan"] else []).

Definition bump (b : bool) (n : Z) : Z := if b then n + 1 else n.

(** The body of the loop of [Manager.Status]. *)
Definition report (acc : summary) (s : RepoStatus) : summary :=
  if negb (String.eqb (Error s) "") then
    mkSummary (n_clean acc) (n_dirty acc) (n_ahead acc) (n_behind acc)
              (n_diverged acc) (n_errored acc + 1)
              (s_printed acc ++ ["  [ERROR]    " +:+ Path s +:+ ": " +:+ Error s])
  else
    let flags := flagsOf s in
    mkSummary
      (bump (negb (0 <? length flags)%nat) (n_clean acc))
      (bump (Dirty s) (n_dirty acc))
      (bump (0 <? Ahead s) (n_ahead acc))
      (bump (0 <? Behind s) (n_behind acc))
      (bump ((0 <? Behind s) && negb (CanFastForward s)) (n_diverged acc))
      (n_errored acc)
      (s_printed acc
       ++ [if (0 <? length flags)%nat then
             "  " +:+ Path s +:+ " (" +:+ Branch s +:+ ") ["
             +:+ String.concat ", " flags +:+ "]"
           else "  [CLEAN]  " +:+ Path s]).

(** [Manager.Status]; [elapsed] is the text of the total time a debug run
    reports. *)
Definition Status (m : Manager) (w : World) (targetNames : list string)
    (debug : bool) (workers : Z) (elapsed : string) : result summary :=
  match targetsFor m targetNames with
  | Err e => Err e
  | Ok targets =>
      match getAllStatuses m w targets workers with
      | Err e => Err e
      | Ok statuses =>
          let acc := fold_left report statuses summary0 in
          let lines :=
            s_printed acc
            ++ [nl +:+ "Summary: " +:+ GoStrings.fmt_d (n_clean acc) +:+ " clean, "
                +:+ GoStrings.fmt_d (n_dirty acc) +:+ " dirty, "
                +:+ GoStrings.fmt_d (n_ahead acc) +:+ " ahead, "
                +:+ GoStrings.fmt_d (n_behind acc) +:+ " behind, "
                +:+ GoStrings.fmt_d (n_diverged acc) +:+ " diverged, "
                +:+ GoStrings.fmt_d (n_errored acc) +:+ " errors"] in
          let lines :=
            if debug && (0 <? length statuses)%nat then
              lines ++ [nl +:+ "Debug: "
                        +:+ GoStrings.fmt_d (Z.of_nat (length statuses))
                        +:+ " repos, total time " +:+ elapsed]
            else lines in
          Ok (mkSummary (n_clean acc) (n_dirty acc) (n_ahead acc) (n_behind acc)
                        (n_diverged acc) (n_errored acc) lines)
      end
  end.

End repoStatus.

(** ** What the summary of a status run counts *)
Section StatusSummary.
Import repo repoStatus.

(** The number of statuses that satisfy [c]. *)
Fixpoint tallyOf (c : RepoStatus -> bool) (l : list RepoStatus) : Z :=
  match l with
  | [] => 0
  | s :: rest => bump (c s) (tallyOf c rest)
  end.

Definition healthy (s : RepoStatus) : bool := String.eqb (Error s) "".

Definition isClean (s : RepoStatus) : bool :=
  healthy s && negb (Dirty s) && (Ahead s <=? 0) && (Behind s <=? 0)
  && String.eqb (RemoteError s) "" && negb (Archived s) && negb (Orphan s).

Lemma flagsOf_nil s :
  (0 <? length (flagsOf s))%nat
  = negb (negb (Dirty s) && (Ahead s <=? 0) && (Behind s <=? 0)
          && String.eqb (RemoteError s) "" && negb (Archived s) && negb (Orphan s)).
Proof.
  unfold flagsOf. rewrite (Z.leb_antisym 0 (Ahead s)), (Z.leb_antisym 0 (Behind s)).
  destruct (Dirty s); [reflexivity|].
  destruct (0 <? Ahead s); [reflexivity|].
  destruct (0 <? Behind s); [reflexivity|].
  destruct (String.eqb (RemoteError s) ""); [|reflexivity].
  destruct (Archived s); [reflexivity|].
  destruct (Orphan s); reflexivity.
Qed.

Lemma tallyOf_bump c s l : tallyOf c (l ++ [s]) = bump (c s) (tallyOf c l).
Proof.
  induction l as [|x l IH]; [reflexivity|]. cbn. rewrite IH.
  unfold bump. destruct (c s), (c x); lia.
Qed.

Lemma report_fields acc s :
  n_errored (report acc s) = bump (negb (healthy s)) (n_errored acc)
  /\ n_clean (report acc s) = bump (isClean s) (n_clean acc)
  /\ n_dirty (report acc s) = bump (healthy s && Dirty s) (n_dirty acc)
  /\ n_ahead (report acc s) = bump (healthy s && (0 <? Ahead s)) (n_ahead acc)
  /\ n_behind (report acc s) = bump (healthy s && (0 <? Behind s)) (n_behind acc)
  /\ n_diverged (report acc s)
     = bump (healthy s && (0 <? Behind s) && negb (CanFastForward s)) (n_diverged acc)
  /\ length (s_printed (report acc s)) = S (length (s_printed acc)).
Proof.
  unfold report, isClean, healthy. rewrite flagsOf_nil.
  destruct (String.eqb (Error s) "") eqn:He; cbn [negb andb].
  - cbn [n_errored n_clean n_dirty n_ahead n_behind n_diverged s_printed].
    rewrite negb_involutive, length_app. cbn [bump length].
    repeat split. lia.
  - cbn [n_errored n_clean n_dirty n_ahead n_behind n_diverged s_printed bump].
    rewrite length_app. cbn [length]. repeat split. lia.
Qed.

Lemma fold_report statuses :
  let acc := fold_left report statuses summary0 in
  n_errored acc = tallyOf (fun s => negb (healthy s)) statuses
  /\ n_clean acc = tallyOf isClean statuses
  /\ n_dirty acc = tallyOf (fun s => healthy s && Dirty s) statuses
  /\ n_ahead acc = tallyOf (fun s => healthy s && (0 <? Ahead s)) statuses
  /\ n_behind acc = tallyOf (fun s => healthy s && (0 <? Behind s)) statuses
  /\ n_diverged acc
     = tallyOf (fun s => healthy s && (0 <? Behind s) && negb (CanFastForward s))
               statuses
  /\ length (s_printed acc) = length statuses.
Proof.
  cbv zeta. induction statuses as [|s l IH] using rev_ind.
  - cbn. repeat split.
  - rewrite fold_left_app. cbn [fold_left]. rewrite !tallyOf_bump.
    destruct IH as (H1 & H2 & H3 & H4 & H5 & H6 & H7).
    destruct (report_fields (fold_left report l summary0) s)
      as (R1 & R2 & R3 & R4 & R5 & R6 & R7).
    rewrite R1, R2, R3, R4, R5, R6, R7, H1, H2, H3, H4, H5, H6, H7, length_app.
    cbn [length]. repeat split; lia.
Qed.

Lemma tallyOf_le c1 c2 l :
  (forall s, c1 s = true -> c2 s = true) -> 0 <= tallyOf c1 l <= tallyOf c2 l.
Proof.
  intros H. induction l as [|s l IH]; cbn; [lia|].
  specialize (H s). unfold bump. destruct (c1 s), (c2 s); try lia; discriminate (H eq_refl).
Qed.

Lemma tallyOf_exclusive c1 c2 l :
  (forall s, c1 s = true -> c2 s = false) ->
  tallyOf c1 l + tallyOf c2 l <= Z.of_nat (length l).
Proof.
  intros H. induction l as [|s l IH]; cbn [tallyOf length]; [lia|].
  specialize (H s). unfold bump. destruct (c1 s), (c2 s); try lia; discriminate (H eq_refl).
Qed.

(** X28.  The summary of a status run: [errors] counts the statuses with a fatal
    error, and each other number counts statuses without one: [clean] those
    that are not dirty, ahead or behind, carry no remote error and are not
    archived or orphan, [dirty], [ahead] and [behind] those with that
    property, [diverged] those behind that cannot be fast-forwarded.  One
    line is written per status, then the summary, then the timing line of
    a debug run that has statuses.  A status may so count
    under several headings or, if it is only archived, orphan or marked with
    a remote error, under none: [diverged] is at most [behind], and [clean]
    and [errors] together are at most the number of statuses. *)
Theorem Status_summary m w targetNames debug workers elapsed r :
  Status m w targetNames debug workers elapsed = Ok r ->
  exists targets statuses,
    targetsFor m targetNames = Ok targets
    /\ getAllStatuses m w targets workers = Ok statuses
    /\ n_errored r = tallyOf (fun s => negb (healthy s)) statuses
    /\ n_clean r = tallyOf isClean statuses
    /\ n_dirty r = tallyOf (fun s => healthy s && Dirty s) statuses
    /\ n_ahead r = tallyOf (fun s => healthy s && (0 <? Ahead s)) statuses
    /\ n_behind r = tallyOf (fun s => healthy s && (0 <? Behind s)) statuses
    /\ n_diverged r
       = tallyOf (fun s => healthy s && (0 <? Behind s) && negb (CanFastForward s))
                 statuses
    /\ n_diverged r <= n_behind r
    /\ n_clean r + n_errored r <= Z.of_nat (length statuses)
    /\ length (s_printed r)
       = (length statuses + 1
          + (if debug && (0 <? length statuses)%nat then 1 else 0))%nat.
Proof.
  unfold Status. intros H.
  destruct (targetsFor m targetNames) as [targets|e]; [|discriminate].
  destruct (getAllStatuses m w targets workers) as [statuses|e] eqn:Hs; [|discriminate].
  exists targets, statuses. split; [reflexivity|]. split; [exact Hs|].
  injection H as <-. cbn [n_errored n_clean n_dirty n_ahead n_behind n_diverged s_printed].
  destruct (fold_report statuses) as (H1 & H2 & H3 & H4 & H5 & H6 & H7).
  rewrite H1, H2, H3, H4, H5, H6.
  refine (conj eq_refl (conj eq_refl (conj eq_refl (conj eq_refl (conj eq_refl
            (conj eq_refl (conj _ (conj _ _)))))))).
  - apply tallyOf_le. intros s Hc. apply andb_prop in Hc as [Hc _]. exact Hc.
  - apply tallyOf_exclusive. intros s Hc. unfold isClean in Hc.
    repeat (apply andb_prop in Hc as [Hc _]). rewrite Hc. reflexivity.
  - destruct (debug && (0 <? length statuses)%nat);
      rewrite !length_app, H7; cbn [length]; lia.
Qed.

End StatusSummary.

Example Status_fleet :
  repoStatus.Status Fleet.manager Fleet.world [] true 0 "1.5s"
  = Ok (repoStatus.mkSummary 0 0 0 2 0 1
          ["  /w/app (main) [1 behind]";
           "  [ERROR]    /w/app/api: getting branch: exit status 128";
           "  /w/acme/old (main) [1 behind]";
           repo.nl +:+ "Summary: 0 clean, 0 dirty, 0 ahead, 2 behind, 0 diverged, 1 errors";
           repo.nl +:+ "Debug: 3 repos, total time 1.5s"]).
Proof. vm_compute. reflexivity. Qed.

Lemma Status_summary_witness :
  exists targets statuses,
    repo.targetsFor Fleet.manager [] = Ok targets
    /\ repo.getAllStatuses Fleet.manager Fleet.world targets 0 = Ok statuses
    /\ 1 = tallyOf (fun s => negb (healthy s)) statuses
    /\ 0 = tallyOf isClean statuses
    /\ 0 = tallyOf (fun s => healthy s && repo.Dirty s) statuses
    /\ 0 = tallyOf (fun s => healthy s && (0 <? repo.Ahead s)) statuses
    /\ 2 = tallyOf (fun s => healthy s && (0 <? repo.Behind s)) statuses
    /\ 0 = tallyOf (fun s => healthy s && (0 <? repo.Behind s)
                             && negb (repo.CanFastForward s)) statuses
    /\ 0 <= 2
    /\ 0 + 1 <= Z.of_nat (length statuses)
    /\ 5%nat = (length statuses + 1
                + (if true && (0 <? length statuses)%nat then 1 else 0))%nat.
Proof.
  apply (Status_summary Fleet.manager Fleet.world [] true 0 "1.5s" _ Status_fleet).
Defined.

(** * Package [repo]: the listing *)
Module repoList.
Import repo.

(** The order of [sort.Strings]. *)
Definition strNotAfter (a b : string) : Prop := String.ltb b a = false.

#[global] Instance strNotAfter_dec (a b : string) : Decision (strNotAfter a b) :=
  decide (String.ltb b a = false).

(** The keys of a map, as [range] followed by [sort.Strings] leaves them. *)
Definition sortedNames (names : gset string) : list string :=
  merge_sort strNotAfter (elements names).

(** The line of one remote repository, if it is shown. *)
Definition remoteLine (includeArchived : bool) (local : gset string)
    (n : string) (r : remote.Repository) : option string :=
  if remote.Archived r && negb includeArchived then None
  else
    let mark := if bool_decide (n ∈ local) then "[x]" else "[ ]" in
    let flags := if remote.Archived r then ["archived"] else [] in
    Some ("  " +:+ mark +:+ " " +:+ n
          +:+ (if (0 <? length flags)%nat
               then " (" +:+ String.concat ", " flags +:+ ")" else "")).

(** The branch of the loop of [Manager.List] for a target without [Repo]:
    the lines it writes, the empty line that ends the target included. *)
Definition listOrg (m : Manager) (os : OS) (includeArchived : bool)
    (t : config.Target) : list string :=
  match providers m !! config.ProviderName t with
  | None =>
      ["  [ERROR] no client for provider " +:+ config.ProviderName t; ""]
  | Some client =>
      let '(remoteMap, errLines) :=
        match remote.ListOrgRepos client (config.Org t) with
        | Ok repos =>
            (fold_left (fun acc r => <[remote.Name r := r]> acc) repos
                       (∅ : gmap string remote.Repository), [])
        | Err e => (∅, ["  [ERROR] listing org: " +:+ e])
        end in
      let local : gset string :=
        fold_left
          (fun acc e =>
             if entry_IsDir e
                && isGitRepo os (Join os (config.Path t) (entry_Name e))
             then {[ entry_Name e ]} ∪ acc else acc)
          (fst (ReadDir os (config.Path t))) ∅ in
      let shown :=
        omap (fun n => match remoteMap !! n with
                       | Some r => remoteLine includeArchived local n r
                       | None => None
                       end)
             (sortedNames (dom remoteMap)) in
      let orphans := sortedNames (local ∖ dom remoteMap) in
      errLines ++ shown
      ++ ((fun n => "  [x] " +:+ n +:+ " (orphan)") <$> orphans)
      ++ [""]
  end.

(** The branch for a target with [Repo]: the lines written, and the error
    that ends the run or nil. *)
Definition listRepo (os : OS) (t : config.Target) : list string * option string :=
  let mark := if isGitRepo os (config.Path t) then "[x]" else "[ ]" in
  let first := "  " +:+ mark +:+ " " +:+ config.Repo t in
  match loadFoldout os (config.Path t) with
  | Err e => ([first], Some e)
  | Ok None => ([first; ""], None)
  | Ok (Some fc) =>
      ([first]
       ++ ((fun fr =>
              "  " +:+ (if isGitRepo os (Join os (config.Path t) (fr_Target fr))
                        then "[x]" else "[ ]")
              +:+ " " +:+ fr_Name fr +:+ " -> " +:+ fr_Target fr)
             <$> Repos fc)
       ++ [""], None)
  end.

Fixpoint listTargets (m : Manager) (os : OS) (includeArchived : bool)
    (targets : list config.Target) (out : list string)
    : list string * option string :=
  match targets with
  | [] => (out, None)
  | t :: rest =>
      let out :=
        out ++ ["Target: " +:+ config.Name t +:+ " (" +:+ config.ProviderName t
                +:+ "/" +:+ config.Org t +:+ ") path=" +:+ config.Path t] in
      if String.eqb (config.Repo t) "" then
        listTargets m os includeArchived rest
                    (out ++ listOrg m os includeArchived t)
      else
        match listRepo os t with
        | (lines, Some e) => (out ++ lines, Some e)
        | (lines, None) => listTargets m os includeArchived rest (out ++ lines)
        end
  end.

(** [Manager.List]: the lines written and the error or nil. *)
Definition List (m : Manager) (os : OS) (targetNames : list string)
    (includeArchived : bool) (workers : Z) : list string * option string :=
  match targetsFor m targetNames with
  | Err e => ([], Some e)
  | Ok targets => listTargets m os includeArchived targets []
  end.

End repoList.

(** ** What makes a listing fail *)
Section Listing.
Import repo repoList.

Lemma listTargets_error m os ia targets out :
  match snd (listTargets m os ia targets out) with
  | Some e =>
      exists pre t post,
        targets = pre ++ t :: post
        /\ String.eqb (config.Repo t) "" = false
        /\ loadFoldout os (config.Path t) = Err e
        /\ Forall (fun t' => String.eqb (config.Repo t') "" = false ->
                             exists fc, loadFoldout os (config.Path t') = Ok fc) pre
  | None =>
      Forall (fun t' => String.eqb (config.Repo t') "" = false ->
                        exists fc, loadFoldout os (config.Path t') = Ok fc) targets
  end.
Proof.
  revert out. induction targets as [|t rest IH]; intros out; [constructor|].
  cbn [listTargets]. cbv zeta.
  destruct (String.eqb (config.Repo t) "") eqn:Hr.
  - match goal with
    | |- context [listTargets m os ia rest ?o] => specialize (IH o)
    end.
    destruct (snd (listTargets m os ia rest _)) as [e|].
    + destruct IH as (pre & t0 & post & -> & H1 & H2 & H3).
      exists (t :: pre), t0, post. split; [reflexivity|]. split; [exact H1|].
      split; [exact H2|]. constructor; [|exact H3]. intros H. congruence.
    + constructor; [|exact IH]. intros H. congruence.
  - unfold listRepo. cbv zeta.
    destruct (loadFoldout os (config.Path t)) as [fc|e] eqn:Hl.
    + assert (Hok : String.eqb (config.Repo t) "" = false ->
                    exists fc, loadFoldout os (config.Path t) = Ok fc)
        by (intros _; exists fc; exact Hl).
      destruct fc as [fc|];
        (match goal with
         | |- context [listTargets m os ia rest ?o] => specialize (IH o)
         end;
         destruct (snd (listTargets m os ia rest _)) as [e|];
         [destruct IH as (pre & t0 & post & -> & H1 & H2 & H3);
          exists (t :: pre), t0, post; split; [reflexivity|]; split; [exact H1|];
          split; [exact H2|]; constructor; [exact Hok|exact H3]
         |constructor; [exact Hok|exact IH]]).
    + cbn [snd]. exists [], t, rest. split; [reflexivity|]. split; [exact Hr|].
      split; [exact Hl|constructor].
Qed.

(** X29.  A listing fails only where the selection of targets fails or the
    manifest of a repository target cannot be loaded, and then with that
    error: a provider without client and an organisation whose remote
    listing fails are reported in the output and the listing goes on.
    Where every manifest loads, the listing ends with nil. *)
Theorem List_errors m os targetNames ia workers :
  match snd (List m os targetNames ia workers) with
  | Some e =>
      targetsFor m targetNames = Err e
      \/ exists targets t,
           targetsFor m targetNames = Ok targets /\ t ∈ targets
           /\ String.eqb (config.Repo t) "" = false
           /\ loadFoldout os (config.Path t) = Err e
  | None =>
      exists targets,
        targetsFor m targetNames = Ok targets
        /\ Forall (fun t => String.eqb (config.Repo t) "" = false ->
                            exists fc, loadFoldout os (config.Path t) = Ok fc) targets
  end.
Proof.
  unfold List. destruct (targetsFor m targetNames) as [targets|e].
  - pose proof (listTargets_error m os ia targets []) as H.
    destruct (snd (listTargets m os ia targets [])) as [e|].
    + destruct H as (pre & t & post & -> & H1 & H2 & _). right.
      exists (pre ++ t :: post), t. split; [reflexivity|].
      split; [|split; assumption].
      apply elem_of_app. right. apply list_elem_of_here.
    + exists targets. split; [reflexivity|exact H].
  - cbn. left. reflexivity.
Qed.

End Listing.

Example List_fleet :
  repoList.List Fleet.manager Fleet.os [] true 0
  = (["Target: rideshare (gitea/acme) path=/w/acme";
      "  [x] old (archived)"; "";
      "Target: mobile (github/beta) path=/w/app"; "  [x] app";
      "  [x] beta/mobile-api -> api";
      "  [ ] beta/mobile-infra -> mobile-infra"; ""],
     None).
Proof. vm_compute. reflexivity. Qed.

(** Without [--include-archived] the working copy of an archived
    repository is not listed, neither as present nor as orphan. *)
Example List_hides_archived :
  repoList.List Yard.manager Fleet.os ["rideshare"] false 0
  = (["Target: rideshare (gitea/acme) path=/w/acme"; "  [ ] blank";
      "  [ ] new"; "  [ ] zeta"; ""],
     None).
Proof. vm_compute. reflexivity. Qed.

Example List_malformed_manifest :
  repoList.List Fleet.manager Fleet.os_malformed [] true 0
  = (["Target: rideshare (gitea/acme) path=/w/acme";
      "  [x] old (archived)"; "";
      "Target: mobile (github/beta) path=/w/app"; "  [x] app"],
     Some ("invalid repo name " +:+ repo.fmt_q "mobile-infra"
           +:+ " in .tugboat.json (expected org/repo)")).
Proof. vm_compute. reflexivity. Qed.
